(** * Brute-force open-path travelling salesman (traveling_salesman.ts)

    A shallow embedding of the TypeScript sources and the properties of
    the optimizers, the permutation generator, the route scorer and the
    memoizing wrapper.

    The source file holds two revisions of the program:
    - the array revision ([Module V1]): [getPermutations] and a
      [travelingSalesman] built from [Array.prototype.map]/[reduce];
    - the iterator revision ([Module V2]): [total_distance],
      [calculateDistances], [startAndEnd], [generateRoutes],
      [travelingSalesman] and [handRolledTravelingSalesman], built on
      the itertools-ts helpers [permutations], [single.pairwise] and
      [reduce.toMin].
    [cachedFn] is the same in both revisions. *)

From Stdlib Require Import Floats Factorial.
From stdpp Require Import gmap list sorting.

(** ** JavaScript numbers

    The code is generic in the point type [T] and uses the number type
    only through the literal [0], [Infinity], [+] and [<].  [Number]
    collects exactly these four; [float_Number] is the JavaScript
    [number] itself (IEEE 754 binary64, round to nearest even). *)

Class Number (num : Type) := {
  zero : num;
  infinity : num;
  add : num → num → num;
  ltb : num → num → bool;
}.

#[export] Instance float_Number : Number float := {|
  zero := 0%float;
  infinity := PrimFloat.infinity;
  add := PrimFloat.add;
  ltb := PrimFloat.ltb;
|}.

(** A symbolic number records the additions that were executed and the
    order in which they were executed. *)
Inductive sym (Q : Type) : Type :=
  | SZero : sym Q
  | SInfinity : sym Q
  | SCall : Q → sym Q
  | SAdd : sym Q → sym Q → sym Q.
Arguments SZero {Q}.
Arguments SInfinity {Q}.
Arguments SCall {Q} _.
Arguments SAdd {Q} _ _.

#[export] Instance sym_Number Q : Number (sym Q) := {|
  zero := SZero;
  infinity := SInfinity;
  add := SAdd;
  ltb := λ _ _, false;
|}.

(** ** Effects of the distance callback

    The callback is the only caller-supplied code.  The program is
    written once over a monad [M] in which the callback runs:
    [Id] for a pure callback, [Eff] for a callback that may throw and
    whose calls are logged. *)

Definition Id (A : Type) : Type := A.
#[export] Instance Id_ret : MRet Id := λ A x, x.
#[export] Instance Id_bind : MBind Id := λ A B f x, f x.

(** [Eff Q E A]: the queries made so far, and either the error thrown
    or the value computed. *)
Definition Eff (Q E A : Type) : Type := list Q * (E + A).
#[export] Instance Eff_ret Q E : MRet (Eff Q E) := λ A x, ([], inr x).
#[export] Instance Eff_bind Q E : MBind (Eff Q E) := λ A B f m,
  match m.2 with
  | inl e => (m.1, inl e)
  | inr a => (m.1 ++ (f a).1, (f a).2)
  end.

(** The callback [dist] run in [Eff]: the call is logged, the outcome
    is the callback's own. *)
Definition call {Q E A} (dist : Q → E + A) (q : Q) : Eff Q E A := ([q], dist q).

(** [for (const x of xs) { s = body(s, x) }] *)
Fixpoint for_of `{MRet M, MBind M} {A S} (xs : list A) (body : S → A → M S) (s : S) : M S :=
  match xs with
  | [] => mret s
  | x :: rest => s' ← body s x; for_of rest body s'
  end.

(** ** The array revision (lines 1-125) *)
Module V1.
Section Program.
Context {T : Type} (undefined : T).

(** [arr[i]]: reading past the end gives [undefined]. *)
Definition index (arr : list T) (i : nat) : T := nth i arr undefined.

(** [getPermutations(arr, size)].  [size] is only compared with [0] and
    decremented; the loop runs over [arr.length]. *)
Fixpoint getPermutations (arr : list T) (size : nat) : list (list T) :=
  match size with
  | 0 => [[]]
  | S size' =>
      flat_map (λ i,
        let current := index arr i in
        let remaining := take i arr ++ drop (i + 1) arr in
        let subPermutations := getPermutations remaining size' in
        map (λ subPerm, current :: subPerm) subPermutations)
      (seq 0 (length arr))
  end.

Context `{Number num} `{MRet M, MBind M}.
Variable computeDistance : T * T → M num.

(** The body of [routes.map(route => ...)]: the loop
    [for (i = 0; i < route.length - 1; i++)] pushes one distance per
    index, then [distances.reduce((a, b) => a + b, 0)].  On an empty
    route [route.length - 1] is [-1] and the loop does not run, which
    is what the truncated subtraction gives as well. *)
Definition routeDistance (route : list T) : M (num * list T) :=
  distances ← mapM (λ i, computeDistance (index route i, index route (i + 1)))
                   (seq 0 (length route - 1));
  mret (foldl add zero distances, route).

(** [xs.reduce(f)] without an initial value: the first element starts
    the fold; on an empty array it throws a [TypeError] ([None]). *)
Definition reduce {X} (f : X → X → X) (xs : list X) : option X :=
  match xs with
  | [] => None
  | x :: rest => Some (foldl f x rest)
  end.

Definition travelingSalesman (innerDestinations : list T) (start end_ : T)
    : M (option (list T)) :=
  let destinationsCount := length innerDestinations in
  let permutations := getPermutations innerDestinations destinationsCount in
  let routes := map (λ permutation, start :: permutation ++ [end_]) permutations in
  routeDistances ← mapM routeDistance routes;
  let minRoute := reduce (λ min curr, if ltb curr.1 min.1 then curr else min) routeDistances in
  mret (snd <$> minRoute).
End Program.
End V1.

(** ** The iterator revision (lines 125-289) *)
Module V2.
Section Program.
Context {T : Type} (undefined : T).

(** [route[i]]: reading past the end (or at [-1]) gives [undefined]. *)
Definition index (arr : list T) (i : nat) : T := nth i arr undefined.

(** Modelled from the spec: [permutations] of itertools-ts
    (lib/combinatorics) is imported, not under src/.  Recursive
    selection: for each position, each remaining unused element is
    chosen as the next pivot and the generator recurses on the
    remainder; a permutation is emitted when [length] elements have
    been chosen.  [k] counts the elements still to choose. *)
Fixpoint generate (k : nat) (current remaining : list T) : list (list T) :=
  match k with
  | 0 => [current]
  | S k' =>
      flat_map (λ i,
        generate k' (current ++ [index remaining i])
                 (take i remaining ++ drop (i + 1) remaining))
      (seq 0 (length remaining))
  end.

(** Modelled from the spec: [permutations(data, length)] of
    itertools-ts starts the recursive selection with nothing chosen. *)
Definition permutations (data : list T) (length : nat) : list (list T) :=
  generate length [] data.

(** Modelled from the spec: [single.pairwise] of itertools-ts is
    imported, not under src/.  It yields the consecutive pairs
    [(route[i], route[i+1])], none for fewer than two elements. *)
Fixpoint pairwise {A} (data : list A) : list (A * A) :=
  match data with
  | a :: (b :: _) as rest => (a, b) :: pairwise rest
  | _ => []
  end.

Context `{Number num}.

(** Modelled from the spec: [reduce.toMin] of itertools-ts is
    imported, not under src/.  The candidates are scanned in order
    and the carried best is replaced only when the candidate's key is
    strictly less; [None] is [undefined], the result on no data. *)
Definition toMin {X} (data : list X) (compareBy : X → num) : option X :=
  foldl (λ carry datum,
           let best := default datum carry in
           Some (if ltb (compareBy datum) (compareBy best) then datum else best))
        None data.

Context `{MRet M, MBind M}.
Variable computeDistance : T * T → M num.

(** [let distance = 0; for (const [a, b] of single.pairwise(route))
    distance += computeDistance([a, b]); return distance] *)
Definition total_distance (route : list T) : M num :=
  for_of (pairwise route)
         (λ distance '(a, b), d ← computeDistance (a, b); mret (add distance d))
         zero.

(** The generator is consumed once, front to back, by [toMin]; the
    callback is the only effect, so the calls happen route by route in
    the order of [routes] whether the stages are interleaved or not. *)
Definition calculateDistances (routes : list (list T)) : M (list (num * list T)) :=
  mapM (λ route,
          let routeArray := route in
          distance ← total_distance routeArray;
          mret (distance, routeArray))
       routes.

Definition startAndEnd (start end_ : T) (inner : list T) : list T :=
  start :: inner ++ [end_].

Definition generateRoutes (start end_ : T) (inner : list (list T)) : list (list T) :=
  map (λ innerRoute, startAndEnd start end_ innerRoute) inner.

Definition travelingSalesman (innerDestinations : list T) (start end_ : T) : M (list T) :=
  let destinationsArray := innerDestinations in
  let destinationsCount := length destinationsArray in
  let permutationsIter := permutations destinationsArray destinationsCount in
  let routes := generateRoutes start end_ permutationsIter in
  distances ← calculateDistances routes;
  let minRoute := toMin distances fst in
  mret (match minRoute with
        | None => [start; end_]
        | Some r => r.2
        end).

(** The score the hand-rolled loop computes for one permutation
    (lines 277-280): [route[0]] and [route[route.length - 1]] are
    [undefined] on the empty permutation. *)
Definition handRolledDistance (start end_ : T) (route : list T) : M num :=
  distance ← total_distance route;
  d ← computeDistance (start, index route 0);
  let distance := add distance d in
  d ← computeDistance (index route (length route - 1), end_);
  let distance := add distance d in
  mret distance.

Definition handRolledTravelingSalesman (destinations : list T) (start end_ : T) : M (list T) :=
  let destinationsCount := length destinations in
  let permutationsIter := permutations destinations destinationsCount in
  best ← for_of permutationsIter
    (λ '(minDistance, minRoute) route,
       distance ← handRolledDistance start end_ route;
       mret (if ltb distance minDistance
             then (distance, route)
             else (minDistance, minRoute)))
    (infinity, []);
  mret (start :: best.2 ++ [end_]).
End Program.
End V2.


(** ** The program with a pure callback *)
Section PureVocabulary.
Context {T : Type} (undefined : T) `{Number num}.
Variable dist : T * T → num.

(** The score of a route, as [total_distance] computes it. *)
Definition route_score (route : list T) : num :=
  V2.total_distance (M := Id) dist route.

(** The score of a permutation, as the hand-rolled loop computes it. *)
Definition hand_score (start end_ : T) (route : list T) : num :=
  V2.handRolledDistance (M := Id) undefined dist start end_ route.

(** The pair [[distance, routeArray]] that [calculateDistances] yields. *)
Definition scored (route : list T) : num * list T :=
  (route_score route, route).

(** The step of the hand-rolled loop (lines 276-285). *)
Definition handRolledStep (start end_ : T) (best : num * list T) (route : list T)
    : num * list T :=
  let distance := hand_score start end_ route in
  if ltb distance best.1 then (distance, route) else best.

End PureVocabulary.

(** One step of the minimum selections of [reduce] and [toMin]: the
    carried best is replaced only by a strictly smaller candidate. *)
Definition keep_min `{Number num} {X : Type} (key : X → num) (best datum : X) : X :=
  if ltb (key datum) (key best) then datum else best.

(** ** Vocabulary of the specification *)

(** [r] is the first-encountered minimum of [data] under [key]: it
    stands at a position before which every candidate is strictly
    greater, and no candidate at all is strictly smaller. *)
Definition first_minimum `{Number num} {X : Type} (key : X → num)
    (data : list X) (r : X) : Prop :=
  ∃ i, data !! i = Some r
       ∧ (∀ j x, j < i → data !! j = Some x → ltb (key r) (key x) = true)
       ∧ (∀ x, x ∈ data → ltb (key x) (key r) = false).

(** The sum in the words of the specification: the distances
    [distance(route[i], route[i+1])] for [i] from [0] to [length - 2],
    added from zero in increasing [i]. *)
Definition route_sum {T : Type} (undefined : T) `{Number num}
    (distance : T * T → num) (route : list T) : num :=
  foldl add zero
    (map (λ i, distance (nth i route undefined, nth (i + 1) route undefined))
         (seq 0 (length route - 1))).

(** The elements strictly between the first and the last. *)
Definition middle {T} (route : list T) : list T :=
  take (length route - 2) (drop 1 route).

(** A route through [inner] from [start] to [end_]: [length inner + 2]
    points, [start] first, [end_] last, and in between the inner
    destinations as a multiset. *)
Definition is_route_of {T} (inner : list T) (start end_ : T) (route : list T) : Prop :=
  length route = length inner + 2
  ∧ head route = Some start
  ∧ last route = Some end_
  ∧ middle route ≡ₚ inner.

(** ** Concrete points and distance functions *)

(** A JavaScript value that is a number or [undefined]. *)
Inductive value : Type :=
  | Undefined : value
  | Num : float → value.
Arguments Num _%_float.

(** [(pair) => Math.abs(pair[0] - pair[1])], the distance function of
    the tests and of the benchmark; arithmetic on [undefined] gives
    [NaN]. *)
Definition abs_difference (pair : value * value) : float :=
  match pair with
  | (Num a, Num b) => PrimFloat.abs (PrimFloat.sub a b)
  | _ => nan
  end.

(** A distance function given by a table of directed edges [(a, b, d)],
    with one distance for every pair that is not in the table. *)
Definition edge_table (edges : list (float * float * float)) (otherwise : float)
    (pair : value * value) : float :=
  match pair with
  | (Num a, Num b) =>
      match List.find (λ e, PrimFloat.eqb a e.1.1 && PrimFloat.eqb b e.1.2) edges with
      | Some e => e.2
      | None => otherwise
      end
  | _ => nan
  end.

(** A distance function that refuses [undefined]:
    [(pair) => { if (pair[0] === undefined || pair[1] === undefined)
    throw ...; return Math.abs(pair[0] - pair[1]) }]. *)
Definition checked_difference (pair : value * value) : () + float :=
  match pair with
  | (Num a, Num b) => inr (PrimFloat.abs (PrimFloat.sub a b))
  | _ => inl ()
  end.

(** No road at all: every distance is [Infinity]. *)
Definition unreachable (pair : value * value) : float := PrimFloat.infinity.

(** Distances at which binary64 addition rounds: [(2^53 + 1) + 1] is
    [2^53] while [(1 + 1) + 2^53] is [2^53 + 2].  Along [0, 3, 2, 1, 4]
    the large distance comes first, along [0, 1, 2, 3, 4] it comes
    last; every other pair is [2^54] apart. *)
Definition rounding_table : value * value → float :=
  edge_table
    [ (0, 3, 0x1p+53); (3, 2, 1); (2, 1, 1); (1, 4, 0);
      (0, 1, 1); (1, 2, 1); (2, 3, 0x1p+53); (3, 4, 0) ]%float
    0x1p+54%float.

(** ** Vocabulary for a callback that may throw *)
Section FailureVocabulary.
Context {Q E V : Type} (dist : Q → E + V).

(** The callback returns on [q]. *)
Definition succeeds (q : Q) : Prop := ∀ err, dist q ≠ inl err.

(** A run whose log and outcome fit the callback: every logged query
    but the last returned, and the run ends in an error exactly when
    the last logged query threw it. *)
Definition faithful {A} (m : Eff Q E A) : Prop :=
  match m.2 with
  | inl err => ∃ qs q, m.1 = qs ++ [q] ∧ dist q = inl err ∧ Forall succeeds qs
  | inr _ => Forall succeeds m.1
  end.

(** When the run returns, it returns [x]. *)
Definition agrees {A} (m : Eff Q E A) (x : A) : Prop :=
  ∀ y, m.2 = inr y → y = x.
End FailureVocabulary.

(** The value of a callback where it returns (and zero where it throws,
    which no returning run depends on). *)
Definition value_of {Q E : Type} `{Number num} (dist : Q → E + num) (q : Q) : num :=
  match dist q with
  | inr v => v
  | inl _ => zero
  end.

(** ** The memoizing wrapper (lines 70-81 and 251-262)

    The wrapper keeps its results in a [Map], and a [Map] compares keys
    by SameValueZero, which is coarser than what a function can tell
    apart: [+0] and [-0] are one key.  [same_value_zero] sends an input
    to the key the map files it under; [f] receives the input itself. *)
Section CachedFn.
Context {Input Key Output : Type} `{Countable Key}.
Variable same_value_zero : Input → Key.
Variable f : Input → Output.

(** The state one call of [cachedFn(f)] creates: the [Map] captured by
    the returned closure, and the inputs on which [f] has been invoked
    so far, oldest first (what the test counts with [callCount++]). *)
Record cached_state : Type := {
  cache : gmap Key Output;
  invocations : list Input;
}.

(** [const cache = new Map()] *)
Definition new_cache : cached_state := {| cache := ∅; invocations := [] |}.

(** The closure [cachedFn(f)] returns, with its captured state threaded
    through: on a key the map has, the stored result; otherwise [f] is
    invoked and its result stored. *)
Definition cachedFn (input : Input) (st : cached_state) : Output * cached_state :=
  match cache st !! same_value_zero input with
  | Some result => (result, st)
  | None =>
      let result := f input in
      (result, {| cache := <[same_value_zero input := result]> (cache st);
                  invocations := invocations st ++ [input] |})
  end.

(** A sequence of calls of one wrapper. *)
Fixpoint calls (inputs : list Input) (st : cached_state) : list Output * cached_state :=
  match inputs with
  | [] => ([], st)
  | input :: rest =>
      let (result, st) := cachedFn input st in
      let (results, st) := calls rest st in
      (result :: results, st)
  end.

(** The first of [inputs] that has the key of [a] ([a] itself when
    there is none). *)
Fixpoint first_like (a : Input) (inputs : list Input) : Input :=
  match inputs with
  | [] => a
  | b :: rest =>
      if decide (same_value_zero b = same_value_zero a) then b else first_like a rest
  end.

(** [inputs] without every input whose key occurred before. *)
Fixpoint first_of_each_key (inputs : list Input) : list Input :=
  match inputs with
  | [] => []
  | a :: rest =>
      a :: filter (λ b, same_value_zero b ≠ same_value_zero a) (first_of_each_key rest)
  end.
End CachedFn.

(** SameValueZero on numbers: [+0] and [-0] are the same key, every
    other number is a key of its own, and [NaN] is one key.  The key is
    the number's sign, mantissa and exponent, with the sign of a zero
    left out. *)
Definition number_key (x : float) : () + (bool + (() + bool * positive * Z)) :=
  match Prim2SF x with
  | S754_zero _ => inl ()
  | S754_infinity sign => inr (inl sign)
  | S754_nan => inr (inr (inl ()))
  | S754_finite sign mantissa exponent => inr (inr (inr (sign, mantissa, exponent)))
  end.

(** ** The program over a store of arrays

    For the claim that the caller's sequence is not written to, arrays
    are cells of a store and the functions receive and return
    locations.  Reading an element, [length], [slice], spread and
    iteration read a cell; array literals, [slice], spread, [map] and
    [Array.from] allocate a fresh cell; [push] writes the cell it is
    called on.  A loop over an array reads its length when it starts.
    The callback is pure. *)
Module Store.
Section Cells.
Context {T num : Type}.

Definition loc : Type := nat.

Inductive cell : Type :=
  | Points (elements : list T)
  | Arrays (elements : list loc)
  | Numbers (elements : list num).

Definition St (A : Type) : Type := gmap loc cell → A * gmap loc cell.
#[global] Instance St_ret : MRet St := λ A a σ, (a, σ).
#[global] Instance St_bind : MBind St := λ A B f m σ, f (m σ).1 (m σ).2.

(** A new array. *)
Definition alloc (c : cell) : St loc :=
  λ σ, let l := fresh (dom σ) in (l, <[l := c]> σ).

(** The elements of an array of points, of arrays, of numbers. *)
Definition points (l : loc) : St (list T) :=
  λ σ, (match σ !! l with Some (Points elements) => elements | _ => [] end, σ).

Definition arrays (l : loc) : St (list loc) :=
  λ σ, (match σ !! l with Some (Arrays elements) => elements | _ => [] end, σ).

Definition numbers (l : loc) : St (list num) :=
  λ σ, (match σ !! l with Some (Numbers elements) => elements | _ => [] end, σ).

(** [l.push(x)] *)
Definition push_array (l : loc) (x : loc) : St () :=
  λ σ, (tt, match σ !! l with
            | Some (Arrays elements) => <[l := Arrays (elements ++ [x])]> σ
            | _ => σ
            end).

Definition push_number (l : loc) (d : num) : St () :=
  λ σ, (tt, match σ !! l with
            | Some (Numbers elements) => <[l := Numbers (elements ++ [d])]> σ
            | _ => σ
            end).
End Cells.
Arguments cell : clear implicits.
Arguments St : clear implicits.
End Store.

(** The array revision over the store. *)
Module StoreV1.
Import Store.
Section Program.
Context {T num : Type} (undefined : T) `{Number num}.
Variable computeDistance : T * T → num.

(** [[[]]] allocates two arrays; [permutations] is the array the loops
    push on; [before] and [after] are the two slices, [remaining] their
    spread; each [[current, ...subPerm]] is a new array. *)
Fixpoint getPermutations (arr : loc) (size : nat) : St T num loc :=
  match size with
  | 0 => empty ← alloc (Points []); alloc (Arrays [empty])
  | S size' =>
      permutations ← alloc (Arrays []);
      elements ← points arr;
      _ ← for_of (seq 0 (length elements))
        (λ _ i,
           elements ← points arr;
           let current := nth i elements undefined in
           before ← alloc (Points (take i elements));
           elements ← points arr;
           after ← alloc (Points (drop (i + 1) elements));
           xs ← points before;
           ys ← points after;
           remaining ← alloc (Points (xs ++ ys));
           subPermutations ← getPermutations remaining size';
           subPerms ← arrays subPermutations;
           for_of subPerms
             (λ _ subPerm,
                rest ← points subPerm;
                permutation ← alloc (Points (current :: rest));
                push_array permutations permutation)
             tt)
        tt;
      mret permutations
  end.

(** Each [map] allocates its result, [distances] is the array the loop
    pushes on; the objects [{distance, route}] are values that hold the
    location of their route. *)
Definition travelingSalesman (innerDestinations : loc) (start end_ : T)
    : St T num (option loc) :=
  elements ← points innerDestinations;
  let destinationsCount := length elements in
  permutations ← getPermutations innerDestinations destinationsCount;
  perms ← arrays permutations;
  routes ← mapM (λ permutation,
                   inner ← points permutation;
                   alloc (Points (start :: inner ++ [end_])))
                perms;
  routes ← alloc (Arrays routes);
  routes ← arrays routes;
  routeDistances ← mapM (λ route,
      distances ← alloc (Numbers []);
      elements ← points route;
      _ ← for_of (seq 0 (length elements - 1))
        (λ _ i,
           elements ← points route;
           push_number distances
             (computeDistance (nth i elements undefined, nth (i + 1) elements undefined)))
        tt;
      ds ← numbers distances;
      mret (foldl add zero ds, route))
    routes;
  mret (snd <$> V1.reduce (λ min curr, if ltb curr.1 min.1 then curr else min)
                  routeDistances).
End Program.
End StoreV1.

(** The iterator revision over the store. *)
Module StoreV2.
Import Store.
Section Program.
Context {T num : Type} (undefined : T) `{Number num}.
Variable computeDistance : T * T → num.

(** Modelled from the spec: [permutations] of itertools-ts is imported,
    not under src/.  It copies its input ([toArray]) and yields each
    ordering as an array of its own. *)
Definition permutations (data : loc) (length : nat) : St T num (list loc) :=
  elements ← points data;
  items ← alloc (Points elements);
  elements ← points items;
  mapM (λ permutation, alloc (Points permutation))
       (V2.permutations undefined elements length).

(** [Array.from] allocates [destinationsArray] and each [routeArray];
    the pairs [[distance, routeArray]] are values that hold the location
    of their route. *)
Definition travelingSalesman (innerDestinations : loc) (start end_ : T) : St T num loc :=
  elements ← points innerDestinations;
  destinationsArray ← alloc (Points elements);
  elements ← points destinationsArray;
  let destinationsCount := length elements in
  permutationsIter ← permutations destinationsArray destinationsCount;
  distances ← mapM (λ innerRoute,
      inner ← points innerRoute;
      routeArray ← alloc (Points (V2.startAndEnd start end_ inner));
      route ← points routeArray;
      mret (route_score computeDistance route, routeArray))
    permutationsIter;
  match V2.toMin distances fst with
  | None => alloc (Points [start; end_])
  | Some r => mret r.2
  end.

(** [minRoute] is first a new empty array, then an alias of the
    permutation the generator yielded; the result is a new array. *)
Definition handRolledTravelingSalesman (destinations : loc) (start end_ : T)
    : St T num loc :=
  empty ← alloc (Points []);
  elements ← points destinations;
  let destinationsCount := length elements in
  permutationsIter ← permutations destinations destinationsCount;
  best ← for_of permutationsIter
    (λ '(minDistance, minRoute) route,
       elements ← points route;
       let distance := hand_score undefined computeDistance start end_ elements in
       mret (if ltb distance minDistance
             then (distance, route)
             else (minDistance, minRoute)))
    (infinity, empty);
  elements ← points best.2;
  alloc (Points (start :: elements ++ [end_])).
End Program.
End StoreV2.

(** The frame of a computation: started in a store that contains the
    cells [D], it keeps every cell of the store allocated, leaves the
    cells [D] as they are, and returns a value in [Q]. *)
Definition framed {T num A} (D : gset Store.loc) (m : Store.St T num A) (Q : A → Prop) : Prop :=
  ∀ σ, D ⊆ dom σ →
    dom σ ⊆ dom (m σ).2 ∧ (∀ l, l ∈ D → (m σ).2 !! l = σ !! l) ∧ Q (m σ).1.

Section StoreVocabulary.
Context {T num : Type} (undefined : T).
Implicit Types (σ : gmap Store.loc (Store.cell T num)).

(** Arrays of points are never written to: each keeps its elements. *)
Definition points_kept σ σ' : Prop :=
  ∀ l xs, σ !! l = Some (Store.Points xs) → σ' !! l = Some (Store.Points xs).

(** What a call of [getPermutations] on an array holding [xs] leaves:
    the old cells as they were, and at the returned location an array
    of the orderings of [xs]. *)
Definition permutations_at (rec : Store.loc → Store.St T num Store.loc) (size : nat)
    : Prop :=
  ∀ σ (arr : Store.loc) (xs : list T),
    σ !! arr = Some (Store.Points xs) →
    σ ⊆ (rec arr σ).2
    ∧ ∃ ls, (rec arr σ).2 !! (rec arr σ).1 = Some (Store.Arrays ls)
            ∧ Forall2 (λ l p, (rec arr σ).2 !! l = Some (Store.Points p))
                      ls (V1.getPermutations undefined xs size).

End StoreVocabulary.

(** ** The loop of the hand-rolled optimizer on any generator

    [handRolledTravelingSalesman] is the loop of lines 270-288 run on
    what [permutations(destinations, destinations.length)] yields.
    [handRolledOver] is that loop on the sequence [permutationsIter] of
    the arrays yielded, whatever they are. *)
Section HandRolledLoop.
Context {T : Type} (undefined : T) `{Number num} `{MRet M, MBind M}.
Variable computeDistance : T * T → M num.

Definition handRolledOver (permutationsIter : list (list T)) (start end_ : T)
    : M (list T) :=
  best ← for_of permutationsIter
    (λ '(minDistance, minRoute) route,
       distance ← V2.handRolledDistance undefined computeDistance start end_ route;
       mret (if ltb distance minDistance
             then (distance, route)
             else (minDistance, minRoute)))
    (infinity, []);
  mret (start :: best.2 ++ [end_]).
End HandRolledLoop.

(** ** The pairs the array revision asks for

    [[route[i], route[i + 1]]] for [i] from [0] to [route.length - 2]. *)
Definition consecutive {T : Type} (undefined : T) (route : list T) : list (T * T) :=
  map (λ i, (V1.index undefined route i, V1.index undefined route (i + 1)))
      (seq 0 (length route - 1)).

(** ** The memoizing wrapper around a function with effects

    [cachedFn] accepts any function.  Here [f] has state of its own
    (such as the [callCount] of the test: [St]) and may throw ([E]): the
    statement [cache.set(input, result)] is reached only when
    [f(input)] returns.  The map is not part of the state [f] runs in:
    this [f] does not call the wrapper it is wrapped in ([Reentrant]
    below has an [f] that does). *)
Module Stateful.
Section CachedFn.
Context {Input Key Output E St : Type} `{Countable Key}.
Variable same_value_zero : Input → Key.
Variable f : Input → St → (E + Output) * St.

(** One call of the closure [cachedFn(f)] returns, on the captured map
    [cache] and the state [s] of [f]: the outcome, the map and the
    state after the call. *)
Definition cachedFn (input : Input) (cache : gmap Key Output) (s : St)
    : (E + Output) * gmap Key Output * St :=
  match cache !! same_value_zero input with
  | Some result => (inr result, cache, s)
  | None =>
      match f input s with
      | (inl err, s') => (inl err, cache, s')
      | (inr result, s') => (inr result, <[same_value_zero input := result]> cache, s')
      end
  end.

(** A sequence of calls of one wrapper by a caller that catches what
    is thrown and goes on: the outcomes in order, the map and the
    state at the end. *)
Fixpoint calls (inputs : list Input) (cache : gmap Key Output) (s : St)
    : list (E + Output) * gmap Key Output * St :=
  match inputs with
  | [] => ([], cache, s)
  | input :: rest =>
      let '(outcome, cache, s) := cachedFn input cache s in
      let '(outcomes, cache, s) := calls rest cache s in
      (outcome :: outcomes, cache, s)
  end.

End CachedFn.
End Stateful.

(** ** The memoizing wrapper around a function that calls it

    Nothing keeps [f] from calling the wrapper [cachedFn(f)] it is
    wrapped in (a recursive function memoized through its own wrapper
    does).  The map is then read and written by the nested calls while
    the outer call is waiting for [f], and the outer call's
    [cache.set(input, result)] comes after them. *)
Module Reentrant.
Section CachedFn.
Context {Input Key Output E St : Type} `{Countable Key}.
Variable same_value_zero : Input → Key.

(** What a call of [f] does from the state [s] of [f]: it returns, it
    throws, or it calls the wrapper on [input] and goes on with the
    outcome of that call (a result, or an error it has caught) and the
    state the call has left. *)
Inductive body : Type :=
  | Return (result : Output) (s : St)
  | Throw (err : E) (s : St)
  | Call (input : Input) (s : St) (continue : E + Output → St → body).

(** The body calls nothing. *)
Definition calls_nothing (b : body) : Prop :=
  match b with
  | Call _ _ _ => False
  | _ => True
  end.

(** A body that calls nothing, from its outcome. *)
Definition of_outcome (outcome : (E + Output) * St) : body :=
  match outcome with
  | (inl err, s) => Throw err s
  | (inr result, s) => Return result s
  end.

(** A body run on the map [cache], its calls answered by [wrapper]. *)
Fixpoint run (wrapper : Input → gmap Key Output → St
                        → (E + Output) * gmap Key Output * St)
    (b : body) (cache : gmap Key Output) : (E + Output) * gmap Key Output * St :=
  match b with
  | Return result s => (inr result, cache, s)
  | Throw err s => (inl err, cache, s)
  | Call input s continue =>
      let '(outcome, cache, s) := wrapper input cache s in
      run wrapper (continue outcome s) cache
  end.

(** [RangeError: Maximum call stack size exceeded] *)
Variable stack_overflow : E.
Variable f : Input → St → body.

(** One call of the closure [cachedFn(f)] returns, with room for
    [depth] nested calls of the closure on the stack: without room the
    call throws; otherwise the map is asked, and on a miss [f] runs,
    its calls of the closure having one level less, and when it returns
    the result is stored in the map as the nested calls have left it. *)
Fixpoint cachedFn (depth : nat) (input : Input) (cache : gmap Key Output) (s : St)
    : (E + Output) * gmap Key Output * St :=
  match depth with
  | 0 => (inl stack_overflow, cache, s)
  | S depth =>
      match cache !! same_value_zero input with
      | Some result => (inr result, cache, s)
      | None =>
          match run (cachedFn depth) (f input s) cache with
          | (inl err, cache, s) => (inl err, cache, s)
          | (inr result, cache, s) =>
              (inr result, <[same_value_zero input := result]> cache, s)
          end
      end
  end.

(** A sequence of calls of one wrapper by a caller that catches what
    is thrown and goes on. *)
Fixpoint calls (depth : nat) (inputs : list Input) (cache : gmap Key Output) (s : St)
    : list (E + Output) * gmap Key Output * St :=
  match inputs with
  | [] => ([], cache, s)
  | input :: rest =>
      let '(outcome, cache, s) := cachedFn depth input cache s in
      let '(outcomes, cache, s) := calls depth rest cache s in
      (outcome :: outcomes, cache, s)
  end.
End CachedFn.
Arguments body : clear implicits.
End Reentrant.

(** A function that calls its own wrapper once, on its own input, and
    counts its invocations:
    [let callCount = 0;
     const c = cachedFn(k => { callCount++;
                               return callCount === 1 ? c(k) + 1 : 0 })]. *)
Definition enters_once (k : nat) (callCount : nat) : Reentrant.body nat nat () nat :=
  if decide (S callCount = 1)
  then Reentrant.Call k (S callCount)
         (λ outcome s,
            match outcome with
            | inr result => Reentrant.Return (result + 1) s
            | inl err => Reentrant.Throw err s
            end)
  else Reentrant.Return 0 (S callCount).

(** ** The memoizing wrapper on pair arrays

    The optimizers call [computeDistance([a, b])], and the tests and
    [runTests] pass [cachedFn(f)] for [computeDistance].  The argument
    is a new array at every call and a [Map] compares arrays by
    identity, so the key of the map is the reference of the array
    ([same_value_zero] is the identity on references).
    [pairs] holds the pair arrays allocated so far, the reference of an
    array being its index; [wrapper] is the state of the one wrapper. *)
Module ByReference.
Section Pairs.
Context {T Output : Type} (undefined : T).
Variable f : T * T → Output.

Record world : Type := {
  pairs : list (T * T);
  wrapper : cached_state (Input := nat) (Key := nat) (Output := Output);
}.

Definition Refs (A : Type) : Type := world → A * world.
#[global] Instance Refs_ret : MRet Refs := λ A a w, (a, w).
#[global] Instance Refs_bind : MBind Refs := λ A B k m w, k (m w).1 (m w).2.

(** [const cache = new Map()], before any pair array exists. *)
Definition new_world : world := {| pairs := []; wrapper := new_cache |}.

(** [[a, b]]: a new array; the value of the expression is its reference. *)
Definition new_pair (pair : T * T) : Refs nat :=
  λ w, (length (pairs w), {| pairs := pairs w ++ [pair]; wrapper := wrapper w |}).

(** [cachedFn(f)] called on a reference: the map is asked for the
    reference, and [f] reads the two elements of the array behind it. *)
Definition cached (key : nat) : Refs Output :=
  λ w, let (result, st) :=
         cachedFn id (λ ref, f (nth ref (pairs w) (undefined, undefined)))
                  key (wrapper w) in
       (result, {| pairs := pairs w; wrapper := st |}).

(** [computeDistance([a, b])] with [computeDistance = cachedFn(f)]. *)
Definition computeDistance (pair : T * T) : Refs Output :=
  key ← new_pair pair; cached key.

(** The map holds only references of arrays that exist. *)
Definition valid (w : world) : Prop :=
  ∀ ref, is_Some (cache (wrapper w) !! ref) → ref < length (pairs w).
End Pairs.
Arguments world : clear implicits.
Arguments Refs : clear implicits.
End ByReference.

Section ReferenceRuns.
Context {T num : Type} (undefined : T).
Variable f : T * T → num.

(** The world after the calls [computeDistance(q)] for [q] in [qs]. *)
Definition after (w : ByReference.world T num) (qs : list (T * T))
    : ByReference.world T num :=
  foldl (λ w q, (ByReference.computeDistance undefined f q w).2) w qs.

(** From any valid world, [m] returns [a] and leaves the world that
    the calls [qs] leave. *)
Definition makes {A} (m : ByReference.Refs T num A) (qs : list (T * T)) (a : A) : Prop :=
  ∀ w, ByReference.valid w → m w = (a, after w qs).
End ReferenceRuns.

(** What a run from [w] that returns [a] and makes the calls [qs]
    leaves when every call is a miss: one new pair array per call, one
    invocation of [f] per call, on the new array, one more entry in the
    map per call, and again a valid world. *)
Definition all_misses {T num A : Type} (w : ByReference.world T num)
    (run : A * ByReference.world T num) (qs : list (T * T)) (a : A) : Prop :=
  run.1 = a
  ∧ ByReference.pairs run.2 = ByReference.pairs w ++ qs
  ∧ invocations (ByReference.wrapper run.2)
    = invocations (ByReference.wrapper w)
      ++ seq (length (ByReference.pairs w)) (length qs)
  ∧ size (cache (ByReference.wrapper run.2))
    = size (cache (ByReference.wrapper w)) + length qs
  ∧ ByReference.valid run.2.

(** ** Order of emission *)

(** Lexicographic order on lists of positions. *)
Fixpoint lex_lt (p q : list nat) : Prop :=
  match p, q with
  | _, [] => False
  | [], _ :: _ => True
  | a :: p', b :: q' => a < b ∨ (a = b ∧ lex_lt p' q')
  end.

(** ** Tactics for binary64 comparison

    [SFcompare] compares two finite numbers by sign, exponent and
    mantissa; [float_cases] splits on every such comparison in sight
    and closes what arithmetic decides. *)
Ltac compare_cases :=
  repeat match goal with
  | H : context [(?a ?= ?b)%Z] |- _ => destruct (Z.compare_spec a b)
  | |- context [(?a ?= ?b)%Z] => destruct (Z.compare_spec a b)
  | H : context [(?a ?= ?b)%positive] |- _ => destruct (Pos.compare_spec a b)
  | |- context [(?a ?= ?b)%positive] => destruct (Pos.compare_spec a b)
  end.

Ltac float_cases :=
  change PosDef.Pos.compare_cont with Pos.compare_cont in *;
  change (Pos.compare_cont Eq) with Pos.compare in *;
  compare_cases; simpl in *; try discriminate; try reflexivity; try lia.

(** * Properties *)

(** ** The permutation generator *)
Section PermutationFacts.
Context {T : Type} (undefined : T).
Implicit Types (arr p : list T) (i size : nat).

Lemma remaining_delete arr i : take i arr ++ drop (i + 1) arr = delete i arr.
Proof. by rewrite Nat.add_1_r, delete_take_drop. Qed.

Lemma index_lookup arr i :
  i < length arr → arr !! i = Some (V1.index undefined arr i).
Proof.
  intros Hi. unfold V1.index.
  destruct (nth_lookup_or_length arr i undefined); [done | lia].
Qed.

Lemma length_remaining arr i size :
  length arr = S size → i < length arr → length (delete i arr) = size.
Proof.
  intros Hlen Hi. rewrite length_delete; [lia |].
  by apply lookup_lt_is_Some.
Qed.

(** Membership in one level of the recursion. *)
Lemma elem_of_getPermutations_S arr size p :
  p ∈ V1.getPermutations undefined arr (S size) ↔
  ∃ i sub, i < length arr ∧ p = V1.index undefined arr i :: sub
           ∧ sub ∈ V1.getPermutations undefined (delete i arr) size.
Proof.
  simpl. rewrite list_elem_of_In, in_flat_map. split.
  - intros (i & Hi%in_seq & Hp). rewrite remaining_delete in Hp.
    apply in_map_iff in Hp as (sub & <- & Hsub).
    exists i, sub. split; [lia |]. split; [done |]. by apply list_elem_of_In.
  - intros (i & sub & Hi & -> & Hsub). exists i. split; [apply in_seq; lia |].
    rewrite remaining_delete. apply in_map, list_elem_of_In, Hsub.
Qed.

Lemma getPermutations_length arr size :
  length arr = size → length (V1.getPermutations undefined arr size) = fact size.
Proof.
  revert arr. induction size as [| size IH]; intros arr Hlen; [done |].
  simpl. rewrite (flat_map_constant_length (c := fact size)).
  - rewrite length_seq, Hlen. lia.
  - intros i Hi%in_seq. rewrite length_map, remaining_delete.
    apply IH, length_remaining; [done | lia].
Qed.

Lemma getPermutations_Permutation arr size p :
  length arr = size → p ∈ V1.getPermutations undefined arr size → p ≡ₚ arr.
Proof.
  revert arr p. induction size as [| size IH]; intros arr p Hlen Hp.
  - apply nil_length_inv in Hlen as ->. simpl in Hp.
    by apply list_elem_of_singleton in Hp as ->.
  - apply elem_of_getPermutations_S in Hp as (i & sub & Hi & -> & Hsub).
    apply IH in Hsub; [| by apply length_remaining].
    rewrite Hsub. symmetry. by apply delete_Permutation, index_lookup.
Qed.

Lemma getPermutations_complete arr size p :
  length arr = size → p ≡ₚ arr → p ∈ V1.getPermutations undefined arr size.
Proof.
  revert arr p. induction size as [| size IH]; intros arr p Hlen Hp.
  - apply nil_length_inv in Hlen as ->.
    apply Permutation_nil_r in Hp as ->. simpl. by apply list_elem_of_singleton.
  - destruct p as [| x p].
    { symmetry in Hp. apply Permutation_nil_r in Hp as ->. done. }
    assert (x ∈ arr) as (i & Hi)%list_elem_of_lookup_1.
    { rewrite <- Hp. by left. }
    pose proof (lookup_lt_Some _ _ _ Hi) as Hlt.
    apply elem_of_getPermutations_S. exists i, p. split; [done |].
    rewrite (index_lookup _ _ Hlt) in Hi. injection Hi as Hx. split; [by rewrite Hx |].
    apply IH; [by apply length_remaining |].
    apply (Permutation_cons_inv (a := x)). rewrite Hp.
    apply delete_Permutation. by rewrite index_lookup, Hx.
Qed.

Lemma NoDup_flat_map {A B} (f : A → list B) (l : list A) :
  NoDup l →
  (∀ a, a ∈ l → NoDup (f a)) →
  (∀ a b x, a ∈ l → b ∈ l → x ∈ f a → x ∈ f b → a = b) →
  NoDup (flat_map f l).
Proof.
  induction 1 as [| a l Ha Hl IH]; intros Hf Hdisj; simpl; [constructor |].
  apply NoDup_app. split; [apply Hf; by left |]. split.
  - intros x Hx Hx'%list_elem_of_In. apply in_flat_map in Hx' as (b & Hb%list_elem_of_In & Hxb%list_elem_of_In).
    assert (a = b) as -> by (apply (Hdisj a b x); [by left | by right | done | done]).
    done.
  - apply IH.
    + intros b Hb. apply Hf. by right.
    + intros b c x Hb Hc. apply Hdisj; by right.
Qed.

Lemma getPermutations_NoDup arr size :
  length arr = size → NoDup arr → NoDup (V1.getPermutations undefined arr size).
Proof.
  revert arr. induction size as [| size IH]; intros arr Hlen Hnd.
  - simpl. apply NoDup_singleton.
  - simpl. apply NoDup_flat_map.
    + apply NoDup_seq.
    + intros i Hi%elem_of_seq. rewrite remaining_delete.
      apply (NoDup_fmap_2 (cons _)).
      apply IH; [apply length_remaining; [done | lia] |].
      eapply sublist_NoDup; [exact Hnd | apply sublist_delete].
    + intros i j p Hi%elem_of_seq Hj%elem_of_seq Hp Hp'.
      apply list_elem_of_fmap in Hp as (s1 & -> & _).
      apply list_elem_of_fmap in Hp' as (s2 & [= Heq _] & _).
      eapply NoDup_lookup; [exact Hnd | |].
      * apply index_lookup. lia.
      * rewrite Heq. apply index_lookup. lia.
Qed.

(** The first ordering emitted is the input itself. *)
Lemma getPermutations_first arr :
  ∃ rest, V1.getPermutations undefined arr (length arr) = arr :: rest.
Proof.
  induction arr as [| a arr [rest IH]]; [by exists [] |].
  cbn [length V1.getPermutations seq flat_map].
  change (take 0 (a :: arr) ++ drop (0 + 1) (a :: arr)) with arr.
  rewrite IH. cbn [map app]. eauto.
Qed.
End PermutationFacts.

Section PermutationsByPosition.
Lemma map_flat_map {A B C} (h : B → C) (g : A → list B) (l : list A) :
  map h (flat_map g l) = flat_map (λ x, map h (g x)) l.
Proof.
  induction l as [| a l IH]; simpl; [done |]. by rewrite map_app, IH.
Qed.

Lemma flat_map_ext_seq {B} (g g' : nat → list B) n :
  (∀ i, i < n → g i = g' i) → flat_map g (seq 0 n) = flat_map g' (seq 0 n).
Proof.
  intros Hg. rewrite !flat_map_concat_map. f_equal.
  apply map_ext_in. intros i Hi%in_seq. apply Hg. lia.
Qed.

(** The generator never inspects the elements: it commutes with any
    relabelling of them. *)
Lemma getPermutations_map {A B} (f : A → B) (ua : A) (ub : B) (arr : list A) size :
  V1.getPermutations ub (map f arr) size
  = map (map f) (V1.getPermutations ua arr size).
Proof.
  revert arr. induction size as [| size IH]; intros arr; [done |].
  simpl. rewrite map_flat_map, length_map.
  apply flat_map_ext_seq. intros i Hi.
  rewrite firstn_map, skipn_map, <- map_app, IH, !map_map.
  apply map_ext. intros sub. simpl. f_equal.
  unfold V1.index. rewrite (nth_indep _ ub (f ua)) by (by rewrite length_map).
  apply map_nth.
Qed.

Lemma map_index_seq {T} (undefined : T) (arr : list T) :
  map (V1.index undefined arr) (seq 0 (length arr)) = arr.
Proof.
  apply list_eq. intros i. rewrite list_lookup_fmap.
  destruct (decide (i < length arr)) as [Hi | Hi].
  - rewrite lookup_seq_lt by done. simpl. by rewrite (index_lookup undefined).
  - rewrite lookup_seq_ge by lia. simpl. symmetry. apply lookup_ge_None. lia.
Qed.

(** Every emitted ordering is the input read through a permutation of
    its positions [0 .. n-1]. *)
Lemma getPermutations_by_position {T} (undefined : T) (arr : list T) :
  V1.getPermutations undefined arr (length arr)
  = map (λ positions, map (V1.index undefined arr) positions)
        (V1.getPermutations 0 (seq 0 (length arr)) (length arr)).
Proof.
  rewrite <- (getPermutations_map _ 0 undefined).
  by rewrite map_index_seq.
Qed.

(** The imported generator emits the same orderings in the same order. *)
Lemma generate_getPermutations {T} (undefined : T) k (current remaining : list T) :
  V2.generate undefined k current remaining
  = map (app current) (V1.getPermutations undefined remaining k).
Proof.
  revert current remaining. induction k as [| k IH]; intros current remaining.
  - simpl. by rewrite app_nil_r.
  - simpl. rewrite map_flat_map. apply flat_map_ext. intros i.
    rewrite IH, map_map. apply map_ext. intros sub.
    by rewrite <- app_assoc.
Qed.

Lemma permutations_getPermutations {T} (undefined : T) (data : list T) n :
  V2.permutations undefined data n = V1.getPermutations undefined data n.
Proof.
  unfold V2.permutations. rewrite generate_getPermutations.
  apply map_id.
Qed.
End PermutationsByPosition.

(** C6: on an input of length [n] the generator emits exactly [n!]
    orderings; they are the input read through the orderings of its
    positions [0 .. n-1], each ordering of the positions occurring
    exactly once (so equal values at different positions still give
    separate orderings, and none is omitted); every emitted ordering is a
    rearrangement of the input and every rearrangement is emitted; on
    the empty input exactly one ordering, the empty one, is emitted.
    The imported generator of the iterator revision emits the same list. *)
Theorem getPermutations_all_orderings {T : Type} (undefined : T) (arr : list T) :
  let n := length arr in
  length (V1.getPermutations undefined arr n) = fact n
  ∧ V1.getPermutations undefined arr n
    = map (λ positions, map (V1.index undefined arr) positions)
          (V1.getPermutations 0 (seq 0 n) n)
  ∧ NoDup (V1.getPermutations 0 (seq 0 n) n)
  ∧ (∀ positions, positions ∈ V1.getPermutations 0 (seq 0 n) n ↔ positions ≡ₚ seq 0 n)
  ∧ (∀ p, p ∈ V1.getPermutations undefined arr n ↔ p ≡ₚ arr)
  ∧ V1.getPermutations undefined [] 0 = [[]]
  ∧ V2.permutations undefined arr n = V1.getPermutations undefined arr n.
Proof.
  intros n. subst n. repeat split.
  - by apply getPermutations_length.
  - apply getPermutations_by_position.
  - apply getPermutations_NoDup; [by rewrite length_seq | apply NoDup_seq].
  - apply getPermutations_Permutation. by rewrite length_seq.
  - apply getPermutations_complete. by rewrite length_seq.
  - by apply getPermutations_Permutation.
  - by apply getPermutations_complete.
  - apply permutations_getPermutations.
Qed.

(** ** The route scorer *)

Section Pure.
Context {T : Type} (undefined : T) `{Number num}.
Variable dist : T * T → num.

Lemma for_of_Id {A S} (xs : list A) (body : S → A → S) (s : S) :
  for_of (M := Id) xs body s = foldl body s xs.
Proof. revert s. induction xs as [| x xs IH]; intros s; [done | apply IH]. Qed.

Lemma foldl_ext_eq {A S} (f g : S → A → S) (xs : list A) (s : S) :
  (∀ s x, f s x = g s x) → foldl f s xs = foldl g s xs.
Proof.
  intros Hfg. revert s. induction xs as [| x xs IH]; intros s; [done |].
  simpl. by rewrite Hfg, IH.
Qed.

Lemma mapM_Id {A B} (f : A → B) (l : list A) : mapM (M := Id) f l = map f l.
Proof.
  induction l as [| x l IH]; [done |].
  change (f x :: mapM (M := Id) f l = f x :: map f l). by rewrite IH.
Qed.

Lemma total_distance_Id (route : list T) :
  V2.total_distance (M := Id) dist route
  = foldl add zero (map dist (V2.pairwise route)).
Proof.
  unfold V2.total_distance. generalize (zero (num := num)) as acc.
  induction (V2.pairwise route) as [| [a b] pairs IH]; intros acc; [done |].
  apply IH.
Qed.

Lemma pairwise_by_index (route : list T) :
  V2.pairwise route
  = map (λ i, (nth i route undefined, nth (i + 1) route undefined))
        (seq 0 (length route - 1)).
Proof.
  induction route as [| a [| b rest] IH]; [done | done |].
  change (V2.pairwise (a :: b :: rest)) with ((a, b) :: V2.pairwise (b :: rest)).
  rewrite IH.
  replace (length (b :: rest) - 1) with (length rest) by (simpl; lia).
  replace (length (a :: b :: rest) - 1) with (S (length rest)) by (simpl; lia).
  change (seq 0 (S (length rest))) with (0 :: seq 1 (length rest)).
  rewrite <- seq_shift, map_cons, map_map. done.
Qed.

Lemma routeDistance_Id (route : list T) :
  V1.routeDistance (M := Id) undefined dist route
  = (route_sum undefined dist route, route).
Proof. unfold V1.routeDistance. by rewrite mapM_Id. Qed.

Lemma total_distance_route_sum (route : list T) :
  V2.total_distance (M := Id) dist route = route_sum undefined dist route.
Proof.
  rewrite total_distance_Id, (pairwise_by_index route), map_map. done.
Qed.
End Pure.

(** C7: for every route and every distance function, the scorer of the
    iterator revision ([total_distance]) and the scorer of the array
    revision (the body of [routeDistances]) both return the sum of
    [distance(route[i], route[i+1])] for [i] from [0] to [length - 2];
    on the empty route and on a route of one point they return zero. *)
Theorem total_distance_is_route_sum {T : Type} (undefined : T) `{Number num}
    (distance : T * T → num) (route : list T) (x : T) :
  V2.total_distance (M := Id) distance route = route_sum undefined distance route
  ∧ (V1.routeDistance (M := Id) undefined distance route).1
    = route_sum undefined distance route
  ∧ V2.total_distance (M := Id) distance [] = zero
  ∧ V2.total_distance (M := Id) distance [x] = zero
  ∧ (V1.routeDistance (M := Id) undefined distance []).1 = zero
  ∧ (V1.routeDistance (M := Id) undefined distance [x]).1 = zero.
Proof.
  split; [apply total_distance_route_sum |].
  split; [by rewrite routeDistance_Id |].
  done.
Qed.

(** ** Minimum selection *)
Section Scan.
Context `{Number num} {X : Type} (key : X → num).

Lemma toMin_nil : V2.toMin [] key = None.
Proof. done. Qed.

Lemma toMin_cons (x : X) (rest : list X) :
  V2.toMin (x :: rest) key = Some (foldl (keep_min key) x rest).
Proof.
  unfold V2.toMin. simpl.
  replace (if ltb (key x) (key x) then x else x) with x by (by destruct (ltb _ _)).
  generalize x. induction rest as [| y rest IH]; intros b; [done |].
  simpl. apply IH.
Qed.

Lemma reduce_cons (x : X) (rest : list X) :
  V1.reduce (λ min curr, if ltb (key curr) (key min) then curr else min) (x :: rest)
  = Some (foldl (keep_min key) x rest).
Proof. done. Qed.

Lemma foldl_keep_min_elem (b : X) (data : list X) :
  foldl (keep_min key) b data ∈ b :: data.
Proof.
  revert b. induction data as [| y data IH]; intros b; simpl; [by left |].
  unfold keep_min at 2. destruct (ltb _ _).
  - right. apply IH.
  - specialize (IH b). apply elem_of_cons in IH as [-> | ?]; [by left | by do 2 right].
Qed.
End Scan.

(** With [<] a strict total order on the keys (no [NaN]), the scan
    returns the first-encountered minimum. *)
Section FirstMinimum.
Context `{Number num} {X : Type} (key : X → num).
Hypothesis ltb_irreflexive : ∀ x : num, ltb x x = false.
Hypothesis ltb_transitive :
  ∀ x y z : num, ltb x y = true → ltb y z = true → ltb x z = true.
Hypothesis geb_transitive :
  ∀ x y z : num, ltb x y = false → ltb y z = false → ltb x z = false.

Lemma first_minimum_step (seen : list X) (best datum : X) :
  first_minimum key seen best →
  first_minimum key (seen ++ [datum]) (keep_min key best datum).
Proof.
  intros (i & Hi & Hbefore & Hmin). unfold keep_min.
  destruct (ltb (key datum) (key best)) eqn:Hlt.
  - exists (length seen). split; [| split].
    + by rewrite lookup_app_r, Nat.sub_diag.
    + intros j x Hj Hx. rewrite lookup_app_l in Hx by done.
      destruct (ltb (key datum) (key x)) eqn:Hdx; [done |].
      rewrite (geb_transitive _ (key x) _ Hdx) in Hlt; [done |].
      apply Hmin. by eapply list_elem_of_lookup_2.
    + intros x [Hx | ->%list_elem_of_singleton]%elem_of_app; [| done].
      destruct (ltb (key x) (key datum)) eqn:Hxd; [| done].
      rewrite <- (Hmin x Hx). symmetry. by eapply ltb_transitive.
  - exists i. split; [| split].
    + by apply lookup_app_l_Some.
    + intros j x Hj Hx. apply (Hbefore j); [done |].
      rewrite lookup_app_l in Hx; [done |].
      apply lookup_lt_Some in Hi. lia.
    + intros x [Hx | ->%list_elem_of_singleton]%elem_of_app; [by apply Hmin | done].
Qed.

Lemma first_minimum_scan (seen rest : list X) (best : X) :
  first_minimum key seen best →
  first_minimum key (seen ++ rest) (foldl (keep_min key) best rest).
Proof.
  revert seen best. induction rest as [| datum rest IH]; intros seen best Hbest.
  - by rewrite app_nil_r.
  - cbn [foldl]. rewrite (cons_middle datum seen rest), app_assoc.
    by apply IH, first_minimum_step.
Qed.

Lemma first_minimum_singleton (x : X) : first_minimum key [x] x.
Proof.
  exists 0. split; [done |]. split; [intros j y Hj; lia |].
  by intros y ->%list_elem_of_singleton.
Qed.

Lemma foldl_keep_min_first_minimum (x : X) (rest : list X) :
  first_minimum key (x :: rest) (foldl (keep_min key) x rest).
Proof. apply (first_minimum_scan [x]), first_minimum_singleton. Qed.

(** A first minimum of [sentinel :: data] is a first minimum of [data]
    as soon as some candidate is strictly below the sentinel. *)
Lemma first_minimum_after_sentinel (sentinel r : X) (data : list X) :
  Exists (λ x, ltb (key x) (key sentinel) = true) data →
  first_minimum key (sentinel :: data) r →
  first_minimum key data r.
Proof.
  intros (x & Hx & Hlt)%Exists_exists (i & Hi & Hbefore & Hmin).
  destruct i as [| i].
  - injection Hi as <-. rewrite Hmin in Hlt; [done | by right].
  - exists i. split; [done |]. split.
    + intros j y Hj Hy. apply (Hbefore (S j)); [lia | done].
    + intros y Hy. apply Hmin. by right.
Qed.
End FirstMinimum.

(** ** The optimizers with a pure callback *)
Section PureOptimizers.
Context {T : Type} (undefined : T) `{Number num}.
Variable dist : T * T → num.
Implicit Types (inner p route : list T).

Lemma travelingSalesman_Id inner (start end_ : T) :
  V2.travelingSalesman (M := Id) undefined dist inner start end_
  = match V2.toMin (map (scored dist) (V2.generateRoutes start end_
                      (V2.permutations undefined inner (length inner)))) fst with
    | None => [start; end_]
    | Some r => r.2
    end.
Proof.
  unfold V2.travelingSalesman, V2.calculateDistances.
  rewrite mapM_Id. done.
Qed.

Lemma handRolledTravelingSalesman_Id inner (start end_ : T) :
  V2.handRolledTravelingSalesman (M := Id) undefined dist inner start end_
  = start :: (foldl (handRolledStep undefined dist start end_) (infinity, [])
                    (V2.permutations undefined inner (length inner))).2 ++ [end_].
Proof.
  unfold V2.handRolledTravelingSalesman.
  rewrite for_of_Id.
  rewrite (foldl_ext_eq _ (handRolledStep undefined dist start end_)); [done |].
  by intros [minDistance minRoute] route.
Qed.
End PureOptimizers.

(** ** Shape of the returned route *)

Section Shape.
Context {T : Type} (undefined : T) `{Number num}.
Variable dist : T * T → num.
Implicit Types (inner p route : list T).

Lemma startAndEnd_is_route_of inner (start end_ : T) p :
  p ≡ₚ inner → is_route_of inner start end_ (V2.startAndEnd start end_ p).
Proof.
  intros Hp. unfold is_route_of, V2.startAndEnd, middle.
  split; [| split; [done | split]].
  - simpl. rewrite length_app, Hp. simpl. lia.
  - by rewrite app_comm_cons, last_snoc.
  - change (drop 1 (start :: p ++ [end_])) with (p ++ [end_]).
    replace (length (start :: p ++ [end_]) - 2) with (length p)
      by (simpl; rewrite length_app; simpl; lia).
    by rewrite take_app_length.
Qed.

Lemma permutations_nonempty inner :
  ∃ p rest, V2.permutations undefined inner (length inner) = p :: rest.
Proof.
  pose proof (getPermutations_length undefined inner (length inner) eq_refl) as Hlen.
  rewrite permutations_getPermutations.
  destruct (V1.getPermutations undefined inner (length inner)) as [| p rest]; [| by eauto].
  pose proof (lt_O_fact (length inner)). simpl in Hlen. lia.
Qed.

Lemma permutations_first inner :
  ∃ rest, V2.permutations undefined inner (length inner) = inner :: rest.
Proof. rewrite permutations_getPermutations. apply getPermutations_first. Qed.

Lemma permutations_Permutation inner p :
  p ∈ V2.permutations undefined inner (length inner) → p ≡ₚ inner.
Proof.
  rewrite permutations_getPermutations. by apply getPermutations_Permutation.
Qed.

(** The pipeline always returns one of the assembled candidates. *)
Lemma travelingSalesman_candidate inner (start end_ : T) :
  ∃ p, p ∈ V2.permutations undefined inner (length inner)
       ∧ V2.travelingSalesman (M := Id) undefined dist inner start end_
         = V2.startAndEnd start end_ p.
Proof.
  rewrite travelingSalesman_Id.
  assert (∀ c, c ∈ map (scored dist) (V2.generateRoutes start end_
                     (V2.permutations undefined inner (length inner))) →
               ∃ p, p ∈ V2.permutations undefined inner (length inner)
                    ∧ c.2 = V2.startAndEnd start end_ p) as Hcands.
  { intros c (route & -> & Hin)%list_elem_of_fmap.
    apply list_elem_of_fmap in Hin as (p & -> & Hin). by exists p. }
  destruct (permutations_nonempty inner) as (p1 & rest & Hperms).
  rewrite Hperms in Hcands |- *. simpl map in Hcands |- *. rewrite toMin_cons.
  apply Hcands, foldl_keep_min_elem.
Qed.

Lemma travelingSalesman_is_route_of inner (start end_ : T) :
  is_route_of inner start end_
    (V2.travelingSalesman (M := Id) undefined dist inner start end_).
Proof.
  destruct (travelingSalesman_candidate inner start end_) as (p & Hp & ->).
  by apply startAndEnd_is_route_of, permutations_Permutation.
Qed.

(** The hand-rolled loop keeps its sentinel until a score is below
    [Infinity]. *)
Lemma handRolled_scan_sentinel (start end_ : T) (perms : list (list T)) :
  Forall (λ p, ltb (hand_score undefined dist start end_ p)
                   infinity = false) perms →
  foldl (handRolledStep undefined dist start end_) (infinity, []) perms = (infinity, []).
Proof.
  induction 1 as [| p perms Hp _ IH]; [done |].
  cbn [foldl]. unfold handRolledStep at 2. cbv zeta. cbn [fst]. by rewrite Hp.
Qed.

Lemma handRolled_scan_elem (start end_ : T) (perms : list (list T)) best :
  (foldl (handRolledStep undefined dist start end_) best perms).2 ∈ best.2 :: perms.
Proof.
  revert best. induction perms as [| p perms IH]; intros best; cbn [foldl]; [by left |].
  unfold handRolledStep at 2. cbv zeta. destruct (ltb _ _).
  - right. apply IH.
  - specialize (IH best). apply elem_of_cons in IH as [-> | ?]; [by left | by do 2 right].
Qed.

Lemma handRolled_scan_candidate (start end_ : T) (perms : list (list T)) :
  Exists (λ p, ltb (hand_score undefined dist start end_ p)
                   infinity = true) perms →
  (foldl (handRolledStep undefined dist start end_) (infinity, []) perms).2 ∈ perms.
Proof.
  induction perms as [| p perms IH]; intros Hex; [by apply Exists_nil in Hex |].
  cbn [foldl]. unfold handRolledStep at 2. cbv zeta. cbn [fst].
  destruct (ltb _ _) eqn:Hlt.
  - apply (handRolled_scan_elem start end_ perms (_, p)).
  - right. apply IH. apply Exists_cons in Hex as [Hex | Hex]; [congruence | done].
Qed.

(** With some score below [Infinity] the hand-rolled optimizer returns
    a route through all inner destinations... *)
Lemma handRolled_is_route_of inner (start end_ : T) :
  Exists (λ p, ltb (hand_score undefined dist start end_ p)
                   infinity = true)
         (V2.permutations undefined inner (length inner)) →
  is_route_of inner start end_
    (V2.handRolledTravelingSalesman (M := Id) undefined dist inner start end_).
Proof.
  intros Hex. rewrite handRolledTravelingSalesman_Id.
  apply (startAndEnd_is_route_of inner start end_), permutations_Permutation.
  by apply handRolled_scan_candidate.
Qed.

(** ... and with none it returns [[start; end_]] whatever the inner
    destinations are. *)
Lemma handRolled_no_candidate inner (start end_ : T) :
  Forall (λ p, ltb (hand_score undefined dist start end_ p)
                   infinity = false)
         (V2.permutations undefined inner (length inner)) →
  V2.handRolledTravelingSalesman (M := Id) undefined dist inner start end_
  = [start; end_].
Proof.
  intros Hall. rewrite handRolledTravelingSalesman_Id.
  by rewrite handRolled_scan_sentinel.
Qed.
End Shape.

(** ** Ties: the first-encountered minimum *)
Section TieBreak.
Context {T : Type} (undefined : T) `{Number num}.
Variable dist : T * T → num.
Hypothesis ltb_irreflexive : ∀ x : num, ltb x x = false.
Hypothesis ltb_transitive :
  ∀ x y z : num, ltb x y = true → ltb y z = true → ltb x z = true.
Hypothesis geb_transitive :
  ∀ x y z : num, ltb x y = false → ltb y z = false → ltb x z = false.

(** The pipeline returns the route of the first-encountered minimum of
    its scored candidates. *)
Lemma travelingSalesman_first_minimum (inner : list T) (start end_ : T) :
  ∃ c, first_minimum fst
         (map (scored dist)
              (V2.generateRoutes start end_
                 (V2.permutations undefined inner (length inner)))) c
       ∧ V2.travelingSalesman (M := Id) undefined dist inner start end_ = c.2.
Proof.
  rewrite travelingSalesman_Id.
  destruct (permutations_nonempty undefined inner) as (p1 & rest & ->).
  cbn [V2.generateRoutes map]. rewrite toMin_cons.
  eexists. split; [by apply foldl_keep_min_first_minimum | done].
Qed.

(** So does the array revision. *)
Lemma V1_travelingSalesman_first_minimum (inner : list T) (start end_ : T) :
  ∃ c, first_minimum fst
         (map (λ p, (route_sum undefined dist (start :: p ++ [end_]),
                     start :: p ++ [end_]))
              (V1.getPermutations undefined inner (length inner))) c
       ∧ V1.travelingSalesman (M := Id) undefined dist inner start end_ = Some c.2.
Proof.
  unfold V1.travelingSalesman.
  rewrite (mapM_Id (V1.routeDistance (M := Id) undefined dist)).
  assert (∀ perms,
    map (V1.routeDistance (M := Id) undefined dist)
        (map (λ permutation, start :: permutation ++ [end_]) perms)
    = map (λ p, (route_sum undefined dist (start :: p ++ [end_]),
                 start :: p ++ [end_])) perms) as ->.
  { induction perms as [| p perms IH]; [done |].
    cbn [map]. by rewrite IH, routeDistance_Id. }
  destruct (permutations_nonempty undefined inner) as (p1 & rest & Hperms).
  rewrite permutations_getPermutations in Hperms. rewrite Hperms.
  cbn [map V1.reduce].
  eexists. split; [by apply foldl_keep_min_first_minimum | reflexivity].
Qed.

Lemma handRolled_scan_keep_min (start end_ : T) (perms : list (list T))
    (best : num * list T) :
  foldl (handRolledStep undefined dist start end_) best perms
  = foldl (keep_min fst) best
          (map (λ p, (hand_score undefined dist start end_ p, p)) perms).
Proof.
  revert best. induction perms as [| p perms IH]; intros best; [done |].
  cbn [map foldl]. apply IH.
Qed.

(** The hand-rolled optimizer returns the first-encountered minimum of
    its scored candidates when some score is below [Infinity]. *)
Lemma handRolled_first_minimum (inner : list T) (start end_ : T) :
  Exists (λ p, ltb (hand_score undefined dist start end_ p) infinity = true)
         (V2.permutations undefined inner (length inner)) →
  ∃ c, first_minimum fst
         (map (λ p, (hand_score undefined dist start end_ p, p))
              (V2.permutations undefined inner (length inner))) c
       ∧ V2.handRolledTravelingSalesman (M := Id) undefined dist inner start end_
         = start :: c.2 ++ [end_].
Proof.
  intros Hex. rewrite handRolledTravelingSalesman_Id, handRolled_scan_keep_min.
  eexists. split; [| done].
  apply (first_minimum_after_sentinel fst (infinity, [])); [done.. | |].
  - apply Exists_fmap. done.
  - by apply foldl_keep_min_first_minimum.
Qed.
End TieBreak.

(** ** Concrete runs *)

(** C8: with [distance(a, b) = |a - b|], inner destinations
    [1, 2, 3, 4, 5], start [0] and end [6], both optimizers of the
    iterator revision, and the optimizer of the array revision, return
    exactly [0, 1, 2, 3, 4, 5, 6]. *)
Theorem sorted_input_gives_ascending_route :
  V2.travelingSalesman (M := Id) Undefined abs_difference
    [Num 1; Num 2; Num 3; Num 4; Num 5] (Num 0) (Num 6)
  = [Num 0; Num 1; Num 2; Num 3; Num 4; Num 5; Num 6]
  ∧ V2.handRolledTravelingSalesman (M := Id) Undefined abs_difference
      [Num 1; Num 2; Num 3; Num 4; Num 5] (Num 0) (Num 6)
    = [Num 0; Num 1; Num 2; Num 3; Num 4; Num 5; Num 6]
  ∧ V1.travelingSalesman (M := Id) Undefined abs_difference
      [Num 1; Num 2; Num 3; Num 4; Num 5] (Num 0) (Num 6)
    = Some [Num 0; Num 1; Num 2; Num 3; Num 4; Num 5; Num 6].
Proof. repeat split; vm_compute; reflexivity. Qed.

(** C1 at an input where no route scores below [Infinity]: the
    hand-rolled optimizer returns [[start; end]] without the inner
    destination, where the pipeline returns the route through it. *)
Theorem handRolled_unreachable_drops_inner :
  V2.handRolledTravelingSalesman (M := Id) Undefined unreachable
    [Num 1] (Num 0) (Num 2)
  = [Num 0; Num 2]
  ∧ V2.travelingSalesman (M := Id) Undefined unreachable
      [Num 1] (Num 0) (Num 2)
    = [Num 0; Num 1; Num 2].
Proof. split; vm_compute; reflexivity. Qed.

(** C3 at an input where two routes tie at [Infinity]: each candidate
    scores [Infinity]; the pipeline returns the first candidate, the
    hand-rolled optimizer returns none of the candidates. *)
Theorem handRolled_tie_at_infinity_returns_no_candidate :
  map (hand_score Undefined unreachable (Num 0) (Num 3))
      (V2.permutations Undefined [Num 1; Num 2] 2)
  = [PrimFloat.infinity; PrimFloat.infinity]
  ∧ V2.travelingSalesman (M := Id) Undefined unreachable
      [Num 1; Num 2] (Num 0) (Num 3)
    = [Num 0; Num 1; Num 2; Num 3]
  ∧ V2.handRolledTravelingSalesman (M := Id) Undefined unreachable
      [Num 1; Num 2] (Num 0) (Num 3)
    = [Num 0; Num 3].
Proof. repeat split; vm_compute; reflexivity. Qed.

(** ** Accumulation order *)
Section Accumulation.
Context {T : Type} (undefined : T) `{Number num}.
Variable dist : T * T → num.

Lemma route_score_pairs (route : list T) :
  route_score dist route = foldl add zero (map dist (V2.pairwise route)).
Proof. apply total_distance_Id. Qed.

Lemma pairwise_snoc (p0 : T) (rest : list T) (end_ : T) :
  V2.pairwise ((p0 :: rest) ++ [end_])
  = V2.pairwise (p0 :: rest)
    ++ [(V2.index undefined (p0 :: rest) (length (p0 :: rest) - 1), end_)].
Proof.
  revert p0. induction rest as [| p1 rest IH]; intros p0; [done |].
  change (V2.pairwise ((p0 :: p1 :: rest) ++ [end_]))
    with ((p0, p1) :: V2.pairwise ((p1 :: rest) ++ [end_])).
  rewrite IH.
  replace (length (p0 :: p1 :: rest) - 1) with (S (length rest)) by (simpl; lia).
  replace (length (p1 :: rest) - 1) with (length rest) by (simpl; lia).
  done.
Qed.

Lemma hand_score_unfold (start end_ : T) (p : list T) :
  hand_score undefined dist start end_ p
  = add (add (route_score dist p) (dist (start, V2.index undefined p 0)))
        (dist (V2.index undefined p (length p - 1), end_)).
Proof. done. Qed.

Lemma route_score_assembled (start end_ p0 : T) (rest : list T) :
  route_score dist (V2.startAndEnd start end_ (p0 :: rest))
  = foldl add zero
      (map dist ((start, p0) :: V2.pairwise (p0 :: rest)
                 ++ [(V2.index undefined (p0 :: rest) (length (p0 :: rest) - 1), end_)])).
Proof.
  rewrite route_score_pairs. unfold V2.startAndEnd.
  change (V2.pairwise (start :: (p0 :: rest) ++ [end_]))
    with ((start, p0) :: V2.pairwise ((p0 :: rest) ++ [end_])).
  by rewrite pairwise_snoc.
Qed.

Lemma hand_score_pairs (start end_ : T) (p : list T) :
  hand_score undefined dist start end_ p
  = foldl add zero
      (map dist (V2.pairwise p
                 ++ [(start, V2.index undefined p 0);
                     (V2.index undefined p (length p - 1), end_)])).
Proof.
  rewrite hand_score_unfold, route_score_pairs, map_app, foldl_app. done.
Qed.

(** Under exact arithmetic the summand added first can as well be added
    last. *)
Lemma foldl_add_shift (a : num) (bs : list num) (z : num) :
  (∀ x y z, add (add x y) z = add x (add y z)) →
  (∀ x y, add x y = add y x) →
  foldl add (add z a) bs = add (foldl add z bs) a.
Proof.
  intros Hassoc Hcomm. revert z. induction bs as [| b bs IH]; intros z; [done |].
  cbn [foldl]. rewrite <- IH. f_equal.
  by rewrite !Hassoc, (Hcomm a b).
Qed.

Lemma exact_scores_agree (start end_ : T) (p : list T) :
  (∀ x y z, add (add x y) z = add x (add y z)) →
  (∀ x y, add x y = add y x) →
  p ≠ [] →
  hand_score undefined dist start end_ p
  = route_score dist (V2.startAndEnd start end_ p).
Proof.
  intros Hassoc Hcomm Hp. destruct p as [| p0 rest]; [done |].
  rewrite route_score_assembled, hand_score_pairs.
  rewrite map_cons, !map_app. cbn [foldl]. rewrite !foldl_app.
  rewrite foldl_add_shift by done. done.
Qed.
End Accumulation.

(** C4, as the code has it: for every candidate permutation
    [p = p0 :: rest] with last element [pk], the pipeline adds
    [distance(start, p0)], then the distances between consecutive inner
    points, then [distance(pk, end)], from left to right; the hand-rolled
    loop adds the distances between consecutive inner points first, then
    [distance(start, p0)], then [distance(pk, end)].  The number type is
    arbitrary, so the equations hold for the symbolic numbers, whose
    values are the additions themselves. *)
Theorem accumulation_order_of_each_optimizer {T : Type} (undefined : T) `{Number num}
    (distance : T * T → num) (start end_ p0 : T) (rest : list T) :
  let p := p0 :: rest in
  let pk := V2.index undefined p (length p - 1) in
  route_score distance (V2.startAndEnd start end_ p)
  = foldl add zero (map distance ((start, p0) :: V2.pairwise p ++ [(pk, end_)]))
  ∧ hand_score undefined distance start end_ p
    = foldl add zero (map distance (V2.pairwise p ++ [(start, p0); (pk, end_)])).
Proof.
  split; [apply route_score_assembled | apply hand_score_pairs].
Qed.

(** C4 as stated fails: on the candidate [3, 2, 1] between [0] and [4]
    the hand-rolled loop executes
    [((0 + d(3,2)) + d(2,1)) + d(0,3)) + d(1,4)], which on symbolic
    numbers is not the left-to-right sum along the route and on binary64
    numbers is [2^53 + 2] where the left-to-right sum is [2^53]. *)
Lemma handRolled_adds_in_another_order :
  hand_score (num := sym (value * value)) Undefined SCall (Num 0) (Num 4)
    [Num 3; Num 2; Num 1]
  = SAdd (SAdd (SAdd (SAdd SZero (SCall (Num 3, Num 2))) (SCall (Num 2, Num 1)))
               (SCall (Num 0, Num 3)))
         (SCall (Num 1, Num 4))
  ∧ hand_score (num := sym (value * value)) Undefined SCall (Num 0) (Num 4)
      [Num 3; Num 2; Num 1]
    ≠ foldl add zero
        (map SCall [(Num 0, Num 3); (Num 3, Num 2); (Num 2, Num 1); (Num 1, Num 4)])
  ∧ hand_score Undefined rounding_table (Num 0) (Num 4) [Num 3; Num 2; Num 1]
    = 9007199254740994%float
  ∧ foldl add zero (map rounding_table
      [(Num 0, Num 3); (Num 3, Num 2); (Num 2, Num 1); (Num 1, Num 4)])
    = 9007199254740992%float.
Proof.
  split; [reflexivity |]. split; [intros [=] |].
  split; vm_compute; reflexivity.
Qed.

(** ** Agreement of the two optimizers *)
Section Agreement.
Context {T : Type} (undefined : T) `{Number num}.
Variable dist : T * T → num.

(** Once both scans carry the same best, they stay together on
    candidates that both score alike. *)
Lemma scans_agree (start end_ : T) (rest : list (list T)) (d : num) (p : list T) :
  Forall (λ q, hand_score undefined dist start end_ q
               = route_score dist (V2.startAndEnd start end_ q)) rest →
  foldl (keep_min fst) (d, V2.startAndEnd start end_ p)
        (map (λ q, scored dist (V2.startAndEnd start end_ q)) rest)
  = ((foldl (handRolledStep undefined dist start end_) (d, p) rest).1,
     V2.startAndEnd start end_
       (foldl (handRolledStep undefined dist start end_) (d, p) rest).2).
Proof.
  intros Hall. revert d p. induction Hall as [| q rest Hq _ IH]; intros d p; [done |].
  cbn [map foldl].
  unfold keep_min at 2, handRolledStep at 2 4. cbv zeta.
  unfold scored at 2. cbn [fst]. rewrite Hq.
  destruct (ltb _ d); apply IH.
Qed.

(** While the pipeline carries a candidate of score [Infinity] and the
    hand-rolled loop its initial [Infinity] with the empty route, both
    keep what they carry on the same candidates, and both take the first
    candidate below [Infinity]; from there on they carry the same. *)
Lemma scans_meet (start end_ : T) (rest : list (list T)) (route : list T) :
  Forall (λ q, hand_score undefined dist start end_ q
               = route_score dist (V2.startAndEnd start end_ q)) rest →
  Exists (λ q, ltb (route_score dist (V2.startAndEnd start end_ q)) infinity = true)
         rest →
  foldl (keep_min fst) (infinity, route)
        (map (λ q, scored dist (V2.startAndEnd start end_ q)) rest)
  = ((foldl (handRolledStep undefined dist start end_) (infinity, []) rest).1,
     V2.startAndEnd start end_
       (foldl (handRolledStep undefined dist start end_) (infinity, []) rest).2).
Proof.
  intros Hall. induction Hall as [| q rest Hq Hall IH]; intros Hex.
  { by apply Exists_nil in Hex. }
  cbn [map foldl].
  unfold keep_min at 2, handRolledStep at 2 4. cbv zeta.
  unfold scored at 1 2. cbn [fst]. rewrite Hq.
  destruct (ltb (route_score dist (V2.startAndEnd start end_ q)) infinity) eqn:Hlt.
  - by apply scans_agree.
  - apply IH. apply Exists_cons in Hex as [Hex | Hex]; [congruence | done].
Qed.

Lemma empty_inner_Id (start end_ : T) :
  V2.travelingSalesman (M := Id) undefined dist [] start end_ = [start; end_]
  ∧ V2.handRolledTravelingSalesman (M := Id) undefined dist [] start end_
    = [start; end_].
Proof.
  split.
  { rewrite travelingSalesman_Id.
    change (V2.permutations undefined [] (length [])) with [@nil T].
    cbn [V2.generateRoutes map]. by rewrite toMin_cons. }
  rewrite handRolledTravelingSalesman_Id.
  change (V2.permutations undefined [] (length [])) with [@nil T].
  cbn [foldl]. unfold handRolledStep. cbv zeta. by destruct (ltb _ _).
Qed.
End Agreement.

(** Without inner destinations the pipeline asks for the distance from
    [start] to [end], the hand-rolled loop for the distances from
    [start] to [undefined] and from [undefined] to [end]; each returns
    [[start, end]] when its calls return. *)
Lemma empty_inner_Eff {T E : Type} (undefined : T) `{Number num}
    (dist : T * T → E + num) (start end_ : T) :
  V2.travelingSalesman (M := Eff (T * T) E) undefined (call dist) [] start end_
  = ([(start, end_)],
     match dist (start, end_) with
     | inl err => inl err
     | inr _ => inr [start; end_]
     end)
  ∧ V2.handRolledTravelingSalesman (M := Eff (T * T) E) undefined (call dist)
      [] start end_
    = match dist (start, undefined) with
      | inl err => ([(start, undefined)], inl err)
      | inr _ =>
          ([(start, undefined); (undefined, end_)],
           match dist (undefined, end_) with
           | inl err => inl err
           | inr _ => inr [start; end_]
           end)
      end.
Proof.
  split.
  - unfold V2.travelingSalesman.
    change (V2.permutations undefined [] (length [])) with [@nil T].
    cbn. destruct (dist (start, end_)) as [err | d]; cbn; [done |].
    by destruct (ltb _ _).
  - unfold V2.handRolledTravelingSalesman.
    change (V2.permutations undefined [] (length [])) with [@nil T].
    cbn. destruct (dist (start, undefined)) as [err | d]; cbn; [done |].
    destruct (dist (undefined, end_)) as [err | d']; cbn; [done |].
    by destruct (ltb _ _).
Qed.

(** Both scans return the same route when every non-empty candidate
    is scored alike by both, the first candidate's score is below
    [Infinity] or is [Infinity], and some candidate's score is below
    [Infinity]. *)
Lemma scans_return_the_same_route {T : Type} (undefined : T)
    `{Number num} (distance : T * T → num) (inner : list T) (start end_ : T) :
  (∀ p, p ∈ V2.permutations undefined inner (length inner) → p ≠ [] →
        hand_score undefined distance start end_ p
        = route_score distance (V2.startAndEnd start end_ p)) →
  (inner ≠ [] →
   ltb (route_score distance (V2.startAndEnd start end_ inner)) infinity = true
   ∨ route_score distance (V2.startAndEnd start end_ inner) = infinity) →
  (inner ≠ [] →
   ∃ p, p ∈ V2.permutations undefined inner (length inner)
        ∧ ltb (route_score distance (V2.startAndEnd start end_ p)) infinity = true) →
  V2.handRolledTravelingSalesman (M := Id) undefined distance inner start end_
  = V2.travelingSalesman (M := Id) undefined distance inner start end_.
Proof.
  intros Hscores Hfirst Hsome.
  destruct (decide (inner = [])) as [-> | Hinner].
  { destruct (empty_inner_Id undefined distance start end_) as [-> ->]. done. }
  specialize (Hfirst Hinner). destruct (Hsome Hinner) as (best & Hbest & Hbelow).
  rewrite handRolledTravelingSalesman_Id, travelingSalesman_Id.
  assert (∀ p, p ∈ V2.permutations undefined inner (length inner) → p ≠ []) as Hne.
  { intros p Hp%permutations_Permutation ->. by apply Permutation_nil_l in Hp. }
  destruct (permutations_first undefined inner) as [rest Hperms].
  rewrite Hperms in Hscores, Hne, Hbest |- *.
  assert (Forall (λ q, hand_score undefined distance start end_ q
                       = route_score distance (V2.startAndEnd start end_ q)) rest)
    as Hrest.
  { apply Forall_forall. intros q Hq. apply Hscores; [by right | apply Hne; by right]. }
  unfold V2.generateRoutes. rewrite map_map. cbn [map foldl]. rewrite toMin_cons.
  unfold handRolledStep at 2. cbv zeta. cbn [fst].
  rewrite (Hscores inner) by (by left || done).
  destruct (ltb (route_score distance (V2.startAndEnd start end_ inner)) infinity)
    eqn:Hlt.
  - unfold scored at 1. by rewrite (scans_agree undefined).
  - destruct Hfirst as [Hfirst | Hfirst]; [congruence |].
    unfold scored at 1. rewrite Hfirst.
    rewrite (scans_meet undefined); [done | done |].
    apply Exists_exists. exists best. split; [| done].
    apply elem_of_cons in Hbest as [-> | Hbest]; [congruence | done].
Qed.

(** C2, as the code has it.  With inner destinations: on every input
    on which each candidate permutation gets the same score from the
    hand-rolled accumulation as from the left-to-right accumulation
    along the assembled route, the score of the first candidate (the
    inner destinations in the order given) is below [Infinity] or is
    [Infinity], and some candidate's score is below [Infinity], the two
    optimizers return the same route, and so routes of equal total
    distance.  Without inner destinations both return [[start, end]]
    when their calls of the distance function return: the pipeline
    calls it on [(start, end)], the hand-rolled loop on
    [(start, undefined)] and then on [(undefined, end)]. *)
Theorem optimizers_agree_where_scores_agree {T E : Type} (undefined : T)
    `{Number num} (distance : T * T → num) (dist : T * T → E + num)
    (inner : list T) (start end_ : T) :
  (∀ p, p ∈ V2.permutations undefined inner (length inner) → p ≠ [] →
        hand_score undefined distance start end_ p
        = route_score distance (V2.startAndEnd start end_ p)) →
  (inner ≠ [] →
   ltb (route_score distance (V2.startAndEnd start end_ inner)) infinity = true
   ∨ route_score distance (V2.startAndEnd start end_ inner) = infinity) →
  (inner ≠ [] →
   ∃ p, p ∈ V2.permutations undefined inner (length inner)
        ∧ ltb (route_score distance (V2.startAndEnd start end_ p)) infinity = true) →
  V2.handRolledTravelingSalesman (M := Id) undefined distance inner start end_
  = V2.travelingSalesman (M := Id) undefined distance inner start end_
  ∧ route_score distance
      (V2.travelingSalesman (M := Id) undefined distance inner start end_)
    = route_score distance
        (V2.handRolledTravelingSalesman (M := Id) undefined distance inner start end_)
  ∧ V2.travelingSalesman (M := Eff (T * T) E) undefined (call dist) [] start end_
    = ([(start, end_)],
       match dist (start, end_) with
       | inl err => inl err
       | inr _ => inr [start; end_]
       end)
  ∧ V2.handRolledTravelingSalesman (M := Eff (T * T) E) undefined (call dist)
      [] start end_
    = match dist (start, undefined) with
      | inl err => ([(start, undefined)], inl err)
      | inr _ =>
          ([(start, undefined); (undefined, end_)],
           match dist (undefined, end_) with
           | inl err => inl err
           | inr _ => inr [start; end_]
           end)
      end.
Proof.
  intros Hscores Hfirst Hsome.
  rewrite (scans_return_the_same_route undefined distance inner start end_
             Hscores Hfirst Hsome).
  split; [done |]. split; [done |]. apply empty_inner_Eff.
Qed.

(** Under exact arithmetic (associative and commutative addition) the
    scores agree, so only the two conditions on [Infinity] are left to
    ask. *)
Lemma optimizers_agree_under_exact_arithmetic {T : Type} (undefined : T)
    `{Number num} (distance : T * T → num) (inner : list T) (start end_ : T) :
  (∀ x y z : num, add (add x y) z = add x (add y z)) →
  (∀ x y : num, add x y = add y x) →
  (inner ≠ [] →
   ltb (route_score distance (V2.startAndEnd start end_ inner)) infinity = true
   ∨ route_score distance (V2.startAndEnd start end_ inner) = infinity) →
  (inner ≠ [] →
   ∃ p, p ∈ V2.permutations undefined inner (length inner)
        ∧ ltb (route_score distance (V2.startAndEnd start end_ p)) infinity = true) →
  V2.handRolledTravelingSalesman (M := Id) undefined distance inner start end_
  = V2.travelingSalesman (M := Id) undefined distance inner start end_.
Proof.
  intros Hassoc Hcomm Hfirst Hsome.
  apply scans_return_the_same_route; [| done | done].
  intros p Hp Hne. by apply exact_scores_agree.
Qed.

(** A run of C2's amended statement past a candidate of score
    [Infinity]: with no road from [0] to [1] and every other distance
    [1], the first candidate [1, 2] scores [Infinity] in both optimizers
    and the second, [2, 1], scores [3]; both return [0, 2, 1, 3].  The
    callback of the last two parts throws on [undefined]. *)
Lemma optimizers_agree_past_an_unreachable_candidate :
  V2.handRolledTravelingSalesman (M := Id) Undefined
    (edge_table [(0, 1, PrimFloat.infinity)]%float 1%float)
    [Num 1; Num 2] (Num 0) (Num 3)
  = V2.travelingSalesman (M := Id) Undefined
      (edge_table [(0, 1, PrimFloat.infinity)]%float 1%float)
      [Num 1; Num 2] (Num 0) (Num 3)
  ∧ route_score (edge_table [(0, 1, PrimFloat.infinity)]%float 1%float)
      (V2.travelingSalesman (M := Id) Undefined
         (edge_table [(0, 1, PrimFloat.infinity)]%float 1%float)
         [Num 1; Num 2] (Num 0) (Num 3))
    = route_score (edge_table [(0, 1, PrimFloat.infinity)]%float 1%float)
        (V2.handRolledTravelingSalesman (M := Id) Undefined
           (edge_table [(0, 1, PrimFloat.infinity)]%float 1%float)
           [Num 1; Num 2] (Num 0) (Num 3))
  ∧ V2.travelingSalesman (M := Eff (value * value) ()) Undefined
      (call checked_difference) [] (Num 0) (Num 3)
    = ([(Num 0, Num 3)],
       match checked_difference (Num 0, Num 3) with
       | inl err => inl err
       | inr _ => inr [Num 0; Num 3]
       end)
  ∧ V2.handRolledTravelingSalesman (M := Eff (value * value) ()) Undefined
      (call checked_difference) [] (Num 0) (Num 3)
    = match checked_difference (Num 0, Undefined) with
      | inl err => ([(Num 0, Undefined)], inl err)
      | inr _ =>
          ([(Num 0, Undefined); (Undefined, Num 3)],
           match checked_difference (Undefined, Num 3) with
           | inl err => inl err
           | inr _ => inr [Num 0; Num 3]
           end)
      end.
Proof.
  apply (optimizers_agree_where_scores_agree Undefined
           (edge_table [(0, 1, PrimFloat.infinity)]%float 1%float) checked_difference
           [Num 1; Num 2] (Num 0) (Num 3)).
  - intros p Hp _. vm_compute in Hp.
    repeat (apply elem_of_cons in Hp as [-> | Hp]; [vm_compute; reflexivity |]).
    by apply elem_of_nil in Hp.
  - intros _. right. vm_compute. reflexivity.
  - intros _. exists [Num 2; Num 1]. split; [| vm_compute; reflexivity].
    vm_compute. right. by left.
Defined.

(** C2 as stated fails through rounding alone: with the distances of
    [rounding_table] (all finite) the pipeline returns [0, 3, 2, 1, 4],
    of total distance [2^53], and the hand-rolled optimizer returns
    [0, 1, 2, 3, 4], of total distance [2^53 + 2].  Each is the strict
    minimum of its optimizer's scores, so the order in which the
    permutations are emitted plays no part. *)
Lemma rounding_separates_the_optimizers :
  V2.travelingSalesman (M := Id) Undefined rounding_table
    [Num 1; Num 2; Num 3] (Num 0) (Num 4)
  = [Num 0; Num 3; Num 2; Num 1; Num 4]
  ∧ V2.handRolledTravelingSalesman (M := Id) Undefined rounding_table
      [Num 1; Num 2; Num 3] (Num 0) (Num 4)
    = [Num 0; Num 1; Num 2; Num 3; Num 4]
  ∧ route_score rounding_table
      (V2.travelingSalesman (M := Id) Undefined rounding_table
         [Num 1; Num 2; Num 3] (Num 0) (Num 4))
    = 9007199254740992%float
  ∧ route_score rounding_table
      (V2.handRolledTravelingSalesman (M := Id) Undefined rounding_table
         [Num 1; Num 2; Num 3] (Num 0) (Num 4))
    = 9007199254740994%float
  ∧ route_score rounding_table
      (V2.travelingSalesman (M := Id) Undefined rounding_table
         [Num 1; Num 2; Num 3] (Num 0) (Num 4))
    ≠ route_score rounding_table
        (V2.handRolledTravelingSalesman (M := Id) Undefined rounding_table
           [Num 1; Num 2; Num 3] (Num 0) (Num 4)).
Proof.
  do 4 (split; [vm_compute; reflexivity |]).
  vm_compute. intros Heq. discriminate Heq.
Qed.

(** The condition on the first candidate is needed: when its score is
    [NaN] (here the distance from [0] to [1] is), the pipeline keeps it,
    since no score is below [NaN], while the hand-rolled loop passes it
    over, since [NaN] is not below [Infinity].  Both optimizers give the
    two candidates the same scores, [NaN] and [3]. *)
Lemma nan_first_separates_the_optimizers :
  V2.travelingSalesman (M := Id) Undefined (edge_table [(0, 1, nan)]%float 1%float)
    [Num 1; Num 2] (Num 0) (Num 3)
  = [Num 0; Num 1; Num 2; Num 3]
  ∧ V2.handRolledTravelingSalesman (M := Id) Undefined
      (edge_table [(0, 1, nan)]%float 1%float) [Num 1; Num 2] (Num 0) (Num 3)
    = [Num 0; Num 2; Num 1; Num 3]
  ∧ map (hand_score Undefined (edge_table [(0, 1, nan)]%float 1%float) (Num 0) (Num 3))
        [[Num 1; Num 2]; [Num 2; Num 1]]
    = [nan; 3%float]
  ∧ map (route_score (edge_table [(0, 1, nan)]%float 1%float))
        [[Num 0; Num 1; Num 2; Num 3]; [Num 0; Num 2; Num 1; Num 3]]
    = [nan; 3%float].
Proof. repeat split; vm_compute; reflexivity. Qed.

(** Without inner destinations the optimizers differ on a callback
    that throws on [undefined]: the pipeline returns [[0, 3]], the
    hand-rolled loop ends in the error of its first call. *)
Lemma undefined_separates_the_optimizers :
  V2.travelingSalesman (M := Eff (value * value) ()) Undefined
    (call checked_difference) [] (Num 0) (Num 3)
  = ([(Num 0, Num 3)], inr [Num 0; Num 3])
  ∧ V2.handRolledTravelingSalesman (M := Eff (value * value) ()) Undefined
      (call checked_difference) [] (Num 0) (Num 3)
    = ([(Num 0, Undefined)], inl ()).
Proof. split; vm_compute; reflexivity. Qed.

(** ** A callback that throws *)
Section Failures.
Context {Q E V : Type} (dist : Q → E + V).

Lemma faithful_ret {A} (x : A) : faithful dist (mret (M := Eff Q E) x).
Proof. unfold faithful. simpl. constructor. Qed.

Lemma faithful_call (q : Q) : faithful dist (call dist q).
Proof.
  unfold faithful, call. simpl. destruct (dist q) as [err | v] eqn:Hq.
  - exists [], q. by repeat split.
  - apply Forall_singleton. intros err. congruence.
Qed.

Lemma faithful_bind {A B} (m : Eff Q E A) (f : A → Eff Q E B) :
  faithful dist m → (∀ a, faithful dist (f a)) → faithful dist (m ≫= f).
Proof.
  unfold faithful at 1 3. unfold mbind, Eff_bind.
  destruct m as [log [err | a]]; simpl; [done |].
  intros Hlog Hf. specialize (Hf a). unfold faithful in Hf.
  destruct (f a) as [log' [err | b]]; simpl in *.
  - destruct Hf as (qs & q & -> & Hq & Hqs).
    exists (log ++ qs), q. rewrite app_assoc. split; [done |]. split; [done |].
    by apply Forall_app.
  - by apply Forall_app.
Qed.

Lemma faithful_for_of {A S} (xs : list A) (body : S → A → Eff Q E S) (s : S) :
  (∀ s x, faithful dist (body s x)) → faithful dist (for_of xs body s).
Proof.
  intros Hbody. revert s. induction xs as [| x xs IH]; intros s.
  - apply faithful_ret.
  - apply faithful_bind; [apply Hbody | apply IH].
Qed.

Lemma faithful_mapM {A B} (f : A → Eff Q E B) (xs : list A) :
  (∀ x, faithful dist (f x)) → faithful dist (mapM f xs).
Proof.
  intros Hf. induction xs as [| x xs IH].
  - apply faithful_ret.
  - apply faithful_bind; [apply Hf |]. intros y.
    apply faithful_bind; [apply IH |]. intros k. apply faithful_ret.
Qed.

(** A faithful run ends in [err] exactly when some logged query threw
    [err]. *)
Lemma faithful_error_iff {A} (m : Eff Q E A) (err : E) :
  faithful dist m → (m.2 = inl err ↔ ∃ q, q ∈ m.1 ∧ dist q = inl err).
Proof.
  unfold faithful. destruct m as [log [err' | a]]; simpl.
  - intros (qs & q & -> & Hq & Hqs). split.
    + intros [= <-]. exists q. split; [| done]. apply elem_of_app. right. by left.
    + intros (q' & [Hin | Hin]%elem_of_app & Hq').
      * rewrite Forall_forall in Hqs. by destruct (Hqs q' Hin err).
      * apply list_elem_of_singleton in Hin as ->. congruence.
  - intros Hlog. split; [done |].
    intros (q & Hin & Hq). rewrite Forall_forall in Hlog. by destruct (Hlog q Hin err).
Qed.

Lemma agrees_ret {A} (x : A) : agrees (mret (M := Eff Q E) x) x.
Proof. intros y [= <-]. done. Qed.

Lemma agrees_bind {A B} (m : Eff Q E A) (f : A → Eff Q E B) (x : A) (g : A → B) :
  agrees m x → (∀ a, agrees (f a) (g a)) → agrees (m ≫= f) (g x).
Proof.
  unfold agrees, mbind, Eff_bind. destruct m as [log [err | a]]; simpl; [done |].
  intros Hm Hf y Hy. rewrite <- (Hm a eq_refl). by apply Hf.
Qed.

Lemma agrees_for_of {A S} (xs : list A) (body : S → A → Eff Q E S)
    (body' : S → A → S) (s : S) :
  (∀ s x, agrees (body s x) (body' s x)) →
  agrees (for_of xs body s) (foldl body' s xs).
Proof.
  intros Hbody. revert s. induction xs as [| x xs IH]; intros s.
  - apply agrees_ret.
  - apply (agrees_bind _ _ _ (λ s', foldl body' s' xs)); [apply Hbody | apply IH].
Qed.

Lemma agrees_mapM {A B} (f : A → Eff Q E B) (f' : A → B) (xs : list A) :
  (∀ x, agrees (f x) (f' x)) → agrees (mapM f xs) (map f' xs).
Proof.
  intros Hf. induction xs as [| x xs IH].
  - apply agrees_ret.
  - apply (agrees_bind _ _ _ (λ y, y :: map f' xs)); [apply Hf |]. intros y.
    apply (agrees_bind _ _ _ (λ k, y :: k)); [apply IH |]. intros k. apply agrees_ret.
Qed.
End Failures.

Section FailingOptimizers.
Context {T E : Type} (undefined : T) `{Number num}.
Variable dist : T * T → E + num.

Lemma faithful_total_distance (route : list T) :
  faithful dist (V2.total_distance (M := Eff (T * T) E) (call dist) route).
Proof.
  apply faithful_for_of. intros distance [a b].
  apply faithful_bind; [apply faithful_call | intros d; apply faithful_ret].
Qed.

Lemma faithful_travelingSalesman (inner : list T) (start end_ : T) :
  faithful dist
    (V2.travelingSalesman (M := Eff (T * T) E) undefined (call dist) inner start end_).
Proof.
  apply faithful_bind; [| intros distances; apply faithful_ret].
  apply faithful_mapM. intros route.
  apply faithful_bind; [apply faithful_total_distance | intros d; apply faithful_ret].
Qed.

Lemma faithful_handRolledTravelingSalesman (inner : list T) (start end_ : T) :
  faithful dist
    (V2.handRolledTravelingSalesman (M := Eff (T * T) E) undefined (call dist)
       inner start end_).
Proof.
  apply faithful_bind; [| intros best; apply faithful_ret].
  apply faithful_for_of. intros [minDistance minRoute] route.
  apply faithful_bind; [| intros d; apply faithful_ret].
  apply faithful_bind; [apply faithful_total_distance | intros d0].
  apply faithful_bind; [apply faithful_call | intros d1].
  apply faithful_bind; [apply faithful_call | intros d2; apply faithful_ret].
Qed.

Lemma faithful_V1_travelingSalesman (inner : list T) (start end_ : T) :
  faithful dist
    (V1.travelingSalesman (M := Eff (T * T) E) undefined (call dist) inner start end_).
Proof.
  apply faithful_bind; [| intros distances; apply faithful_ret].
  apply faithful_mapM. intros route.
  apply faithful_bind; [| intros ds; apply faithful_ret].
  apply faithful_mapM. intros i. apply faithful_call.
Qed.

Lemma agrees_call (q : T * T) : agrees (call dist q) (value_of dist q).
Proof. unfold agrees, call, value_of. simpl. by intros y ->. Qed.

Lemma agrees_total_distance (route : list T) :
  agrees (V2.total_distance (M := Eff (T * T) E) (call dist) route)
         (route_score (value_of dist) route).
Proof.
  unfold route_score. rewrite total_distance_Id.
  unfold V2.total_distance.
  generalize (zero (num := num)) as acc.
  induction (V2.pairwise route) as [| [a b] pairs IH]; intros acc.
  - apply agrees_ret.
  - cbn [for_of map foldl].
    apply (agrees_bind _ _ _ (λ s', foldl add s' (map (value_of dist) pairs))); [| apply IH].
    apply (agrees_bind _ _ _ (λ d, add acc d)); [apply agrees_call |].
    intros d. apply agrees_ret.
Qed.

Lemma agrees_travelingSalesman (inner : list T) (start end_ : T) :
  agrees
    (V2.travelingSalesman (M := Eff (T * T) E) undefined (call dist) inner start end_)
    (V2.travelingSalesman (M := Id) undefined (value_of dist) inner start end_).
Proof.
  rewrite travelingSalesman_Id. unfold V2.travelingSalesman.
  apply (agrees_bind _ _ _
    (λ distances, match V2.toMin distances fst with
                  | None => [start; end_]
                  | Some r => r.2
                  end)); [| intros distances; apply agrees_ret].
  apply agrees_mapM. intros route.
  apply (agrees_bind _ _ _ (λ d, (d, route))); [| intros d; apply agrees_ret].
  apply agrees_total_distance.
Qed.

Lemma agrees_handRolledTravelingSalesman (inner : list T) (start end_ : T) :
  agrees
    (V2.handRolledTravelingSalesman (M := Eff (T * T) E) undefined (call dist)
       inner start end_)
    (V2.handRolledTravelingSalesman (M := Id) undefined (value_of dist)
       inner start end_).
Proof.
  rewrite handRolledTravelingSalesman_Id. unfold V2.handRolledTravelingSalesman.
  apply (agrees_bind _ _ _ (λ best, start :: best.2 ++ [end_]));
    [| intros best; apply agrees_ret].
  apply agrees_for_of. intros [minDistance minRoute] route.
  unfold handRolledStep. cbv zeta. cbn [fst].
  apply (agrees_bind _ _ _
    (λ distance, if ltb distance minDistance
                 then (distance, route) else (minDistance, minRoute)));
    [| intros d; apply agrees_ret].
  rewrite hand_score_unfold. unfold V2.handRolledDistance.
  apply (agrees_bind _ _ _
    (λ d0, add (add d0 (value_of dist (start, V2.index undefined route 0)))
               (value_of dist (V2.index undefined route (length route - 1), end_))));
    [apply agrees_total_distance | intros d0].
  apply (agrees_bind _ _ _
    (λ d1, add (add d0 d1)
               (value_of dist (V2.index undefined route (length route - 1), end_))));
    [apply agrees_call | intros d1].
  apply (agrees_bind _ _ _ (λ d2, add (add d0 d1) d2));
    [apply agrees_call | intros d2; apply agrees_ret].
Qed.
End FailingOptimizers.

(** The pairs queried when the callback never throws. *)
Section Queries.
Context {T E : Type} (undefined : T) `{Number num}.
Variable d : T * T → num.

Lemma run_bind {Q A B} (m : Eff Q E A) (f : A → Eff Q E B) log a log' b :
  m = (log, inr a) → f a = (log', inr b) → m ≫= f = (log ++ log', inr b).
Proof. intros -> Hf. unfold mbind, Eff_bind. simpl. by rewrite Hf. Qed.

Lemma run_for_of {Q A S} (xs : list A) (body : S → A → Eff Q E S)
    (queries : A → list Q) (body' : S → A → S) (s : S) :
  (∀ s x, body s x = (queries x, inr (body' s x))) →
  for_of xs body s = (flat_map queries xs, inr (foldl body' s xs)).
Proof.
  intros Hbody. revert s. induction xs as [| x xs IH]; intros s; [done |].
  cbn [for_of flat_map foldl].
  exact (run_bind _ _ _ _ _ _ (Hbody s x) (IH (body' s x))).
Qed.

Lemma run_mapM {Q A B} (xs : list A) (f : A → Eff Q E B)
    (queries : A → list Q) (f' : A → B) :
  (∀ x, f x = (queries x, inr (f' x))) →
  mapM f xs = (flat_map queries xs, inr (map f' xs)).
Proof.
  intros Hf. induction xs as [| x xs IH]; [done |].
  cbn [flat_map map]. rewrite <- (app_nil_r (flat_map queries xs)).
  change (mapM f (x :: xs)) with (y ← f x; k ← mapM f xs; mret (y :: k)).
  apply (run_bind _ _ _ (f' x)); [done |].
  apply (run_bind _ _ _ (map f' xs)); [done | done].
Qed.

Lemma flat_map_singleton {A} (xs : list A) : flat_map (λ x, [x]) xs = xs.
Proof. induction xs as [| x xs IH]; [done |]. simpl. by rewrite IH. Qed.

Lemma run_total_distance (route : list T) :
  V2.total_distance (M := Eff (T * T) E) (call (λ q, inr (d q))) route
  = (V2.pairwise route, inr (route_score d route)).
Proof.
  unfold route_score. rewrite total_distance_Id. unfold V2.total_distance.
  rewrite (run_for_of _ _ (λ q, [q]) (λ distance q, add distance (d q))).
  - rewrite flat_map_singleton. do 2 f_equal.
    generalize (zero (num := num)) as acc.
    induction (V2.pairwise route) as [| q qs IH]; intros acc; [done | apply IH].
  - by intros distance [a b].
Qed.

Lemma queries_travelingSalesman (inner : list T) (start end_ : T) :
  (V2.travelingSalesman (M := Eff (T * T) E) undefined (call (λ q, inr (d q)))
     inner start end_).1
  = flat_map (λ p, V2.pairwise (V2.startAndEnd start end_ p))
             (V2.permutations undefined inner (length inner)).
Proof.
  unfold V2.travelingSalesman, V2.calculateDistances.
  erewrite run_bind; [| apply (run_mapM _ _ V2.pairwise (scored d)) | reflexivity].
  - cbn [fst]. rewrite app_nil_r. unfold V2.generateRoutes.
    induction (V2.permutations undefined inner (length inner)) as [| p ps IH]; [done |].
    cbn [map flat_map]. by rewrite IH.
  - intros route. erewrite run_bind; [| apply run_total_distance | reflexivity].
    by rewrite app_nil_r.
Qed.

Lemma queries_handRolledTravelingSalesman (inner : list T) (start end_ : T) :
  (V2.handRolledTravelingSalesman (M := Eff (T * T) E) undefined
     (call (λ q, inr (d q))) inner start end_).1
  = flat_map (λ p, V2.pairwise p
                   ++ [(start, V2.index undefined p 0);
                       (V2.index undefined p (length p - 1), end_)])
             (V2.permutations undefined inner (length inner)).
Proof.
  unfold V2.handRolledTravelingSalesman.
  erewrite run_bind;
    [| apply (run_for_of _ _
               (λ p, V2.pairwise p ++ [(start, V2.index undefined p 0);
                                        (V2.index undefined p (length p - 1), end_)])
               (handRolledStep undefined d start end_))
     | reflexivity].
  - cbn [fst]. by rewrite app_nil_r.
  - intros [minDistance minRoute] route. unfold V2.handRolledDistance.
    erewrite run_bind; [| | reflexivity].
    + rewrite app_nil_r. reflexivity.
    + erewrite run_bind; [| apply run_total_distance |]; [reflexivity |].
      erewrite run_bind; [| reflexivity |]; [reflexivity |].
      erewrite run_bind; [| reflexivity | reflexivity]. reflexivity.
Qed.
End Queries.

(** C9: with a distance function that may throw, each optimizer ends in
    the error [err] exactly when some pair it queried made the distance
    function throw [err]; the outcome is then the error itself and no
    route, and the failing query is the last one made (every earlier
    query returned).  When it returns a route instead, the route is the one the
    optimizer computes from the values the distance function returned. *)
Theorem distance_failure_propagates {T E : Type} (undefined : T) `{Number num}
    (dist : T * T → E + num) (inner : list T) (start end_ : T) (err : E) :
  let pipeline :=
    V2.travelingSalesman (M := Eff (T * T) E) undefined (call dist) inner start end_ in
  let handRolled :=
    V2.handRolledTravelingSalesman (M := Eff (T * T) E) undefined (call dist)
      inner start end_ in
  let arrays :=
    V1.travelingSalesman (M := Eff (T * T) E) undefined (call dist) inner start end_ in
  (pipeline.2 = inl err ↔ ∃ q, q ∈ pipeline.1 ∧ dist q = inl err)
  ∧ (handRolled.2 = inl err ↔ ∃ q, q ∈ handRolled.1 ∧ dist q = inl err)
  ∧ (arrays.2 = inl err ↔ ∃ q, q ∈ arrays.1 ∧ dist q = inl err)
  ∧ faithful dist pipeline ∧ faithful dist handRolled ∧ faithful dist arrays
  ∧ (∀ route, pipeline.2 = inr route →
       route = V2.travelingSalesman (M := Id) undefined (value_of dist)
                 inner start end_)
  ∧ (∀ route, handRolled.2 = inr route →
       route = V2.handRolledTravelingSalesman (M := Id) undefined (value_of dist)
                 inner start end_).
Proof.
  intros pipeline handRolled arrays.
  pose proof (faithful_travelingSalesman undefined dist inner start end_) as Hp.
  pose proof (faithful_handRolledTravelingSalesman undefined dist inner start end_) as Hh.
  pose proof (faithful_V1_travelingSalesman undefined dist inner start end_) as Ha.
  repeat (split; [by first [apply faithful_error_iff | assumption] |]).
  split.
  - apply agrees_travelingSalesman.
  - apply agrees_handRolledTravelingSalesman.
Qed.

(** ** The memoizing wrapper *)
Section CachedFnFacts.
Context {Input Key Output : Type} `{Countable Key}.
Variable key : Input → Key.
Variable f : Input → Output.
Implicit Types (st : cached_state (Input := Input) (Key := Key) (Output := Output)).
Implicit Types (a b c : Input) (inputs : list Input).

Lemma first_like_elem a inputs :
  key a ∈ key <$> inputs →
  first_like key a inputs ∈ inputs ∧ key (first_like key a inputs) = key a.
Proof.
  induction inputs as [| b rest IH]; [by intros ?%elem_of_nil |].
  cbn [first_like fmap list_fmap]. intros Hin.
  destruct (decide (key b = key a)) as [Heq | Hne]; [split; [by left | done] |].
  apply elem_of_cons in Hin as [Hin | Hin]; [done |].
  destruct (IH Hin) as [Hel Hkey]. split; [by right | done].
Qed.

(** Later inputs do not change which input came first with a key. *)
Lemma first_like_app a inputs later :
  key a ∈ key <$> inputs →
  first_like key a (inputs ++ later) = first_like key a inputs.
Proof.
  induction inputs as [| b rest IH]; [by intros ?%elem_of_nil |].
  cbn [first_like fmap list_fmap app]. intros Hin.
  destruct (decide (key b = key a)) as [Heq | Hne]; [done |].
  apply elem_of_cons in Hin as [Hin | Hin]; [done |]. by apply IH.
Qed.

Lemma first_like_new a inputs later :
  key a ∉ key <$> inputs →
  first_like key a (inputs ++ a :: later) = a.
Proof.
  induction inputs as [| b rest IH]; cbn [first_like fmap list_fmap app]; intros Hin.
  - by rewrite decide_True.
  - rewrite not_elem_of_cons in Hin. destruct Hin as [Hne Hin].
    rewrite decide_False by done. by apply IH.
Qed.

Lemma first_of_each_key_snoc inputs a :
  first_of_each_key key (inputs ++ [a])
  = if decide (key a ∈ key <$> inputs) then first_of_each_key key inputs
    else first_of_each_key key inputs ++ [a].
Proof.
  induction inputs as [| b rest IH].
  { cbn. rewrite decide_False; [done | apply not_elem_of_nil]. }
  cbn [first_of_each_key fmap list_fmap app]. rewrite IH.
  destruct (decide (key a ∈ key <$> rest)) as [Hin | Hin].
  - rewrite decide_True; [done | by right].
  - rewrite filter_app.
    destruct (decide (key a = key b)) as [Heq | Hne].
    + rewrite decide_True by (rewrite Heq; by left).
      rewrite filter_cons_False by (intros Hab; by apply Hab).
      by rewrite filter_nil, app_nil_r.
    + rewrite decide_False by (rewrite not_elem_of_cons; done).
      by rewrite filter_cons_True by done.
Qed.

Lemma first_of_each_key_elem inputs a :
  a ∈ first_of_each_key key inputs → a ∈ inputs.
Proof.
  revert a. induction inputs as [| b rest IH]; intros a; [done |].
  cbn [first_of_each_key]. intros [-> | Hin]%elem_of_cons; [by left |].
  right. apply IH. by apply list_elem_of_filter in Hin as [_ Hin].
Qed.

Lemma first_of_each_key_keys inputs (k : Key) :
  k ∈ key <$> first_of_each_key key inputs ↔ k ∈ key <$> inputs.
Proof.
  induction inputs as [| b rest IH]; [done |].
  cbn [first_of_each_key fmap list_fmap]. rewrite !elem_of_cons, <- IH.
  rewrite !list_elem_of_fmap. split.
  - intros [-> | (a & -> & Ha)]; [by left |].
    apply list_elem_of_filter in Ha as [_ Ha]. right. by exists a.
  - intros [-> | (a & -> & Ha)]; [by left |].
    destruct (decide (key a = key b)) as [Heq | Hne]; [by left |].
    right. exists a. split; [done |]. by apply list_elem_of_filter.
Qed.

Lemma first_of_each_key_NoDup inputs :
  NoDup (key <$> first_of_each_key key inputs).
Proof.
  induction inputs as [| b rest IH]; [constructor |].
  cbn [first_of_each_key fmap list_fmap]. constructor.
  - rewrite list_elem_of_fmap. intros (a & Heq & Ha).
    apply list_elem_of_filter in Ha as [Hne _]. by apply Hne.
  - revert IH. generalize (first_of_each_key key rest). intros l Hl.
    induction l as [| a l IHl]; [constructor |].
    cbn [fmap list_fmap] in Hl. apply NoDup_cons in Hl as [Ha Hl].
    destruct (decide (key a ≠ key b)) as [Hne | Heq].
    + rewrite filter_cons_True by done. cbn [fmap list_fmap]. constructor; [| by apply IHl].
      rewrite list_elem_of_fmap. intros (c & Hc & Hin).
      apply list_elem_of_filter in Hin as [_ Hin].
      apply Ha, list_elem_of_fmap. by exists c.
    + rewrite filter_cons_False by done. by apply IHl.
Qed.

Lemma filter_keeps_all (P : Input → Prop) `{∀ x, Decision (P x)} inputs :
  Forall P inputs → filter P inputs = inputs.
Proof.
  induction 1 as [| a rest Ha _ IH]; [done |]. by rewrite filter_cons_True, IH.
Qed.

Lemma filter_keeps_none (P : Input → Prop) `{∀ x, Decision (P x)} inputs :
  Forall (λ a, ¬ P a) inputs → filter P inputs = [].
Proof.
  induction 1 as [| a rest Ha _ IH]; [done |]. by rewrite filter_cons_False.
Qed.

Lemma first_of_each_key_distinct inputs :
  NoDup (key <$> inputs) → first_of_each_key key inputs = inputs.
Proof.
  induction inputs as [| b rest IH]; [done |].
  cbn [first_of_each_key fmap list_fmap]. intros [Hb Hrest]%NoDup_cons.
  rewrite IH by done. f_equal. apply filter_keeps_all, Forall_forall.
  intros a Ha Heq. apply Hb. rewrite <- Heq. apply list_elem_of_fmap. by exists a.
Qed.

Lemma first_of_each_key_same a inputs :
  Forall (λ b, key b = key a) inputs → first_of_each_key key (a :: inputs) = [a].
Proof.
  intros Hsame. cbn [first_of_each_key]. f_equal.
  apply filter_keeps_none, Forall_forall. intros b Hb%first_of_each_key_elem Hne.
  apply Hne. by eapply Forall_forall in Hsame.
Qed.

Lemma calls_snoc inputs a st :
  calls key f (inputs ++ [a]) st
  = ((calls key f inputs st).1 ++ [(cachedFn key f a (calls key f inputs st).2).1],
     (cachedFn key f a (calls key f inputs st).2).2).
Proof.
  revert st. induction inputs as [| b rest IH]; intros st.
  { cbn. by destruct (cachedFn key f a st). }
  cbn [calls app]. destruct (cachedFn key f b st) as [result st1].
  rewrite IH. by destruct (calls key f rest st1).
Qed.

(** The state of a wrapper after the calls [inputs]: the map holds,
    under each key seen, the result of [f] on the first input that had
    it, and [f] was invoked on these first inputs, in order. *)
Lemma calls_new_cache inputs :
  (calls key f inputs new_cache).1 = map (λ a, f (first_like key a inputs)) inputs
  ∧ invocations (calls key f inputs new_cache).2 = first_of_each_key key inputs
  ∧ ∀ a, cache (calls key f inputs new_cache).2 !! key a
         = if decide (key a ∈ key <$> inputs)
           then Some (f (first_like key a inputs)) else None.
Proof.
  induction inputs as [| a inputs (Hresults & Hinv & Hcache)] using rev_ind.
  { split; [done |]. split; [done |]. intros a. cbn. rewrite lookup_empty.
    rewrite decide_False; [done | apply not_elem_of_nil]. }
  rewrite calls_snoc, first_of_each_key_snoc. cbn [fst snd].
  unfold cachedFn. rewrite Hcache, map_app. cbn [map].
  assert (map (λ c, f (first_like key c (inputs ++ [a]))) inputs
          = map (λ c, f (first_like key c inputs)) inputs) as Hold.
  { apply map_ext_in. intros c Hc%list_elem_of_In. rewrite first_like_app; [done |].
    apply list_elem_of_fmap. by exists c. }
  destruct (decide (key a ∈ key <$> inputs)) as [Hin | Hin]; cbn [fst snd cache invocations].
  - split; [| split; [done |]].
    + rewrite Hold, Hresults. by rewrite first_like_app.
    + intros c. rewrite Hcache, fmap_app.
      destruct (decide (key c ∈ key <$> inputs)) as [Hc | Hc].
      * rewrite decide_True by (apply elem_of_app; by left). by rewrite first_like_app.
      * rewrite decide_False; [done |].
        intros [? | Hca%list_elem_of_singleton]%elem_of_app; [done |].
        apply Hc. by rewrite Hca.
  - split; [| split; [by rewrite Hinv |]].
    + rewrite Hold, Hresults. by rewrite first_like_new.
    + intros c. rewrite fmap_app. destruct (decide (key c = key a)) as [Heq | Hne].
      * rewrite Heq, lookup_insert_eq.
        rewrite decide_True by (apply elem_of_app; right; by left).
        f_equal. f_equal. rewrite <- Heq in Hin. clear -Hin Heq.
        induction inputs as [| b rest IH]; cbn [first_like app].
        { by rewrite decide_True. }
        cbn [fmap list_fmap] in Hin. rewrite not_elem_of_cons in Hin.
        destruct Hin as [Hb Hrest]. rewrite decide_False by done. by apply IH.
      * rewrite lookup_insert_ne by done. rewrite Hcache.
        destruct (decide (key c ∈ key <$> inputs)) as [Hc | Hc].
        -- rewrite decide_True by (apply elem_of_app; by left). by rewrite first_like_app.
        -- rewrite decide_False; [done |].
           intros [? | Hca%list_elem_of_singleton]%elem_of_app; done.
Qed.
End CachedFnFacts.

(** C5, as the code has it: for every function [f] that computes its
    output from its input, and every sequence [inputs] of calls of one
    wrapper [cachedFn(f)], each call returns
    what [f] returns on the first of [inputs] that has the same key in
    the map, which is what [f] returns on the input of the call when [f]
    does not tell inputs with the same key apart (as on [respected]);
    [f] is invoked exactly once for each distinct key among [inputs], on
    the first input that has it, and on nothing else; calls with the
    same key ([x] and then [same]) invoke [f] once, on [x]; and calls
    with pairwise distinct keys [distinct] invoke [f] once per call. *)
Theorem cachedFn_invokes_once_per_map_key {Input Key Output : Type} `{Countable Key}
    (same_value_zero : Input → Key) (f : Input → Output)
    (inputs respected same distinct : list Input) (x : Input) :
  (∀ a b, a ∈ respected → b ∈ respected →
          same_value_zero a = same_value_zero b → f a = f b) →
  Forall (λ y, same_value_zero y = same_value_zero x) same →
  NoDup (same_value_zero <$> distinct) →
  let run := calls same_value_zero f inputs new_cache in
  run.1 = map (λ a, f (first_like same_value_zero a inputs)) inputs
  ∧ (calls same_value_zero f respected new_cache).1 = map f respected
  ∧ invocations run.2 = first_of_each_key same_value_zero inputs
  ∧ NoDup (same_value_zero <$> invocations run.2)
  ∧ (∀ key, key ∈ same_value_zero <$> invocations run.2
            ↔ key ∈ same_value_zero <$> inputs)
  ∧ length (invocations run.2)
    = size (list_to_set (same_value_zero <$> inputs) : gset Key)
  ∧ invocations (calls same_value_zero f (x :: same) new_cache).2 = [x]
  ∧ invocations (calls same_value_zero f distinct new_cache).2 = distinct.
Proof.
  intros Hrespected Hsame Hdistinct run.
  destruct (calls_new_cache same_value_zero f inputs) as (Hresults & Hinv & _).
  fold run in Hresults, Hinv.
  split; [done |]. split; [| split; [done |]].
  { destruct (calls_new_cache same_value_zero f respected) as (-> & _ & _).
    apply map_ext_in. intros a Ha%list_elem_of_In.
    destruct (first_like_elem same_value_zero a respected) as [Hel Hkey].
    { apply list_elem_of_fmap. by exists a. }
    by apply Hrespected. }
  rewrite Hinv. split; [apply first_of_each_key_NoDup |].
  split; [apply first_of_each_key_keys |]. split; [| split].
  - rewrite <- (length_fmap same_value_zero).
    rewrite <- (size_list_to_set (C := gset Key)) by apply first_of_each_key_NoDup.
    f_equal. apply set_eq. intros key. rewrite !elem_of_list_to_set.
    apply first_of_each_key_keys.
  - destruct (calls_new_cache same_value_zero f (x :: same)) as (_ & -> & _).
    by apply first_of_each_key_same.
  - destruct (calls_new_cache same_value_zero f distinct) as (_ & -> & _).
    by apply first_of_each_key_distinct.
Qed.

(** A run of C5's amended statement on numbers, with [x => x * x],
    which gives [+0] and [-0] the same output: the calls of the test,
    [5, 5, 5, 10]; the calls [+0, -0, 5], answered as [f] would answer
    them; the calls [+0, -0, +0], which have one key; and the calls
    [5, 10], which have two. *)
Lemma cachedFn_test_run_on_numbers :
  let f := λ x : float, (x * x)%float in
  let run := calls number_key f [5; 5; 5; 10]%float new_cache in
  run.1 = map (λ a, f (first_like number_key a [5; 5; 5; 10]%float)) [5; 5; 5; 10]%float
  ∧ (calls number_key f [0%float; neg_zero; 5%float] new_cache).1
    = map f [0%float; neg_zero; 5%float]
  ∧ invocations run.2 = first_of_each_key number_key [5; 5; 5; 10]%float
  ∧ NoDup (number_key <$> invocations run.2)
  ∧ (∀ key, key ∈ number_key <$> invocations run.2
            ↔ key ∈ number_key <$> [5; 5; 5; 10]%float)
  ∧ length (invocations run.2)
    = size (list_to_set (number_key <$> [5; 5; 5; 10]%float)
              : gset (() + (bool + (() + bool * positive * Z))))
  ∧ invocations (calls number_key f (0 :: [neg_zero; 0])%float new_cache).2 = [0%float]
  ∧ invocations (calls number_key f [5; 10]%float new_cache).2 = [5; 10]%float.
Proof.
  apply (cachedFn_invokes_once_per_map_key number_key (λ x : float, (x * x)%float)
           [5; 5; 5; 10]%float [0%float; neg_zero; 5%float] [neg_zero; 0]%float
           [5; 10]%float 0%float).
  - intros a b Ha Hb Hkey.
    repeat (apply elem_of_cons in Ha as [-> | Ha]);
      try (by apply elem_of_nil in Ha);
      repeat (apply elem_of_cons in Hb as [-> | Hb]);
      try (by apply elem_of_nil in Hb);
      first [vm_compute; reflexivity | vm_compute in Hkey; discriminate Hkey].
  - repeat constructor.
  - vm_compute. repeat constructor; rewrite ?elem_of_cons, ?elem_of_nil;
      intros Hin; repeat destruct Hin as [Hin | Hin]; try discriminate Hin; done.
Defined.

(** C5 as stated fails where the map's key equality is coarser than
    what [f] can tell apart: with [f = x => 1 / x], the call on [-0]
    after the call on [+0] is answered from the map with [Infinity],
    while [f(-0)] is [-Infinity]; [f] was invoked on [+0] alone. *)
Lemma cachedFn_answers_minus_zero_from_plus_zero :
  (calls number_key (λ x, 1 / x)%float [0%float; neg_zero] new_cache).1
  = [PrimFloat.infinity; PrimFloat.infinity]
  ∧ map (λ x, 1 / x)%float [0%float; neg_zero] = [PrimFloat.infinity; neg_infinity]
  ∧ invocations (calls number_key (λ x, 1 / x)%float [0%float; neg_zero] new_cache).2
    = [0%float]
  ∧ (calls number_key (λ x, 1 / x)%float [0%float; neg_zero] new_cache).1
    ≠ map (λ x, 1 / x)%float [0%float; neg_zero].
Proof.
  do 3 (split; [vm_compute; reflexivity |]).
  vm_compute. intros Heq. discriminate Heq.
Qed.

(** ** Arguments are not written to *)
Section Frames.
Context {T num : Type}.
Implicit Types (D : gset Store.loc) (l : Store.loc).

Lemma framed_ret {A} D (a : A) (Q : A → Prop) : Q a → framed D (mret (M := Store.St T num) a) Q.
Proof. intros HQ σ HD. done. Qed.

Lemma framed_bind {A B} D (m : Store.St T num A) (f : A → Store.St T num B) (Q : A → Prop) (R : B → Prop) :
  framed D m Q → (∀ a, Q a → framed D (f a) R) → framed D (m ≫= f) R.
Proof.
  intros Hm Hf σ HD. destruct (Hm σ HD) as (Hdom & Hkeep & HQ).
  destruct (Hf _ HQ (m σ).2) as (Hdom' & Hkeep' & HR); [set_solver |].
  unfold mbind, Store.St_bind. split; [set_solver |]. split; [| done].
  intros l Hl. by rewrite Hkeep', Hkeep.
Qed.

Lemma framed_weaken {A} D (m : Store.St T num A) (Q R : A → Prop) :
  framed D m Q → (∀ a, Q a → R a) → framed D m R.
Proof. intros Hm HQR σ HD. destruct (Hm σ HD) as (? & ? & ?). auto. Qed.

Lemma framed_alloc D (c : Store.cell T num) : framed D (Store.alloc c) (λ l, l ∉ D).
Proof.
  intros σ HD. unfold Store.alloc. simpl.
  pose proof (is_fresh (dom σ)) as Hfresh.
  split; [rewrite dom_insert; set_solver |]. split; [| set_solver].
  intros l Hl. apply lookup_insert_ne. set_solver.
Qed.

Lemma framed_points D l : framed D (Store.points (num := num) l) (λ _ : list T, True).
Proof. intros σ HD. done. Qed.

Lemma framed_arrays D l : framed D (Store.arrays (T := T) (num := num) l) (λ _, True).
Proof. intros σ HD. done. Qed.

Lemma framed_numbers D l : framed D (Store.numbers (T := T) l) (λ _ : list num, True).
Proof. intros σ HD. done. Qed.

Lemma framed_push_array D l x :
  l ∉ D → framed D (Store.push_array (T := T) (num := num) l x) (λ _, True).
Proof.
  intros Hl σ HD. unfold Store.push_array. simpl.
  destruct (σ !! l) as [[| elements |] |]; try done.
  split; [rewrite dom_insert; set_solver |]. split; [| done].
  intros l' Hl'. apply lookup_insert_ne. set_solver.
Qed.

Lemma framed_push_number D l (d : num) :
  l ∉ D → framed D (Store.push_number (T := T) l d) (λ _, True).
Proof.
  intros Hl σ HD. unfold Store.push_number. simpl.
  destruct (σ !! l) as [[| | elements] |]; try done.
  split; [rewrite dom_insert; set_solver |]. split; [| done].
  intros l' Hl'. apply lookup_insert_ne. set_solver.
Qed.

Lemma framed_for_of {A S} D (xs : list A) (body : S → A → Store.St T num S) (s : S) (I : S → Prop) :
  (∀ s x, I s → framed D (body s x) I) → I s → framed D (for_of xs body s) I.
Proof.
  intros Hbody. revert s. induction xs as [| x xs IH]; intros s Hs.
  - by apply framed_ret.
  - eapply framed_bind; [by apply Hbody | apply IH].
Qed.

Lemma framed_mapM {A B} D (f : A → Store.St T num B) (xs : list A) (Q : B → Prop) :
  (∀ x, framed D (f x) Q) → framed D (mapM f xs) (Forall Q).
Proof.
  intros Hf. induction xs as [| x xs IH].
  - by apply framed_ret.
  - eapply framed_bind; [apply Hf |]. intros y Hy.
    eapply framed_bind; [apply IH |]. intros ys Hys.
    apply framed_ret. by constructor.
Qed.

(** A framed computation run on the whole store leaves every cell of
    the store as it was. *)
Lemma framed_subseteq {A} (m : Store.St T num A) (Q : A → Prop) σ :
  framed (dom σ) m Q → σ ⊆ (m σ).2.
Proof.
  intros Hm. destruct (Hm σ) as (_ & Hkeep & _); [done |].
  apply map_subseteq_spec. intros l c Hl.
  rewrite Hkeep; [done |]. by apply elem_of_dom_2 in Hl.
Qed.
End Frames.

Section ProgramFrames.
Context {T num : Type} (undefined : T) `{Number num}.
Variable computeDistance : T * T → num.
Implicit Types (D : gset Store.loc).

Lemma framed_alloc_any D (c : Store.cell T num) : framed D (Store.alloc c) (λ _, True).
Proof. eapply framed_weaken; [apply framed_alloc | done]. Qed.

(** [getPermutations] writes only to the array it returns, which is new. *)
Lemma framed_getPermutations D (arr : Store.loc) (size : nat) :
  framed D (StoreV1.getPermutations (num := num) undefined arr size) (λ l, l ∉ D).
Proof.
  revert arr. induction size as [| size IH]; intros arr.
  - eapply framed_bind; [apply framed_alloc | intros empty _]. apply framed_alloc.
  - cbn [StoreV1.getPermutations].
    eapply framed_bind; [apply framed_alloc | intros permutations Hnew].
    eapply framed_bind; [apply framed_points | intros elements _].
    eapply framed_bind; [| intros _ _; by apply framed_ret].
    apply (framed_for_of _ _ _ _ (λ _, True)); [| done]. intros _ i _.
    eapply framed_bind; [apply framed_points | intros elements1 _].
    eapply framed_bind; [apply framed_alloc | intros before _].
    eapply framed_bind; [apply framed_points | intros elements2 _].
    eapply framed_bind; [apply framed_alloc | intros after _].
    eapply framed_bind; [apply framed_points | intros xs _].
    eapply framed_bind; [apply framed_points | intros ys _].
    eapply framed_bind; [apply framed_alloc | intros remaining _].
    eapply framed_bind; [apply IH | intros subPermutations _].
    eapply framed_bind; [apply framed_arrays | intros subPerms _].
    apply (framed_for_of _ _ _ _ (λ _, True)); [| done]. intros _ subPerm _.
    eapply framed_bind; [apply framed_points | intros rest _].
    eapply framed_bind; [apply framed_alloc | intros permutation _].
    by apply framed_push_array.
Qed.

Lemma framed_V1_travelingSalesman D (innerDestinations : Store.loc) (start end_ : T) :
  framed D (StoreV1.travelingSalesman undefined computeDistance innerDestinations
              start end_) (λ _, True).
Proof.
  eapply framed_bind; [apply framed_points | intros elements _].
  eapply framed_bind; [apply framed_getPermutations | intros permutations _].
  eapply framed_bind; [apply framed_arrays | intros perms _].
  eapply framed_bind; [| intros routes _].
  { apply (framed_mapM _ _ _ (λ _, True)). intros permutation.
    eapply framed_bind; [apply framed_points | intros inner _].
    apply framed_alloc_any. }
  eapply framed_bind; [apply framed_alloc | intros routes' _].
  eapply framed_bind; [apply framed_arrays | intros routes'' _].
  eapply framed_bind; [| intros routeDistances _; by apply framed_ret].
  apply (framed_mapM _ _ _ (λ _, True)). intros route.
  eapply framed_bind; [apply framed_alloc | intros distances Hnew].
  eapply framed_bind; [apply framed_points | intros elements' _].
  eapply framed_bind; [| intros _ _].
  { apply (framed_for_of _ _ _ _ (λ _, True)); [| done]. intros _ i _.
    eapply framed_bind; [apply framed_points | intros elements'' _].
    by apply framed_push_number. }
  eapply framed_bind; [apply framed_numbers | intros ds _].
  by apply framed_ret.
Qed.

Lemma framed_permutations D (data : Store.loc) (n : nat) :
  framed D (StoreV2.permutations (num := num) undefined data n) (λ _, True).
Proof.
  eapply framed_bind; [apply framed_points | intros elements _].
  eapply framed_bind; [apply framed_alloc | intros items _].
  eapply framed_bind; [apply framed_points | intros elements' _].
  eapply framed_weaken; [| done].
  apply (framed_mapM _ _ _ (λ _, True)). intros permutation. apply framed_alloc_any.
Qed.

Lemma framed_V2_travelingSalesman D (innerDestinations : Store.loc) (start end_ : T) :
  framed D (StoreV2.travelingSalesman undefined computeDistance innerDestinations
              start end_) (λ _, True).
Proof.
  eapply framed_bind; [apply framed_points | intros elements _].
  eapply framed_bind; [apply framed_alloc | intros destinationsArray _].
  eapply framed_bind; [apply framed_points | intros elements' _].
  eapply framed_bind; [apply framed_permutations | intros permutationsIter _].
  eapply framed_bind; [| intros distances _].
  { apply (framed_mapM _ _ _ (λ _, True)). intros innerRoute.
    eapply framed_bind; [apply framed_points | intros inner _].
    eapply framed_bind; [apply framed_alloc | intros routeArray _].
    eapply framed_bind; [apply framed_points | intros route _].
    by apply framed_ret. }
  destruct (V2.toMin distances fst); [by apply framed_ret | apply framed_alloc_any].
Qed.

Lemma framed_handRolledTravelingSalesman D (destinations : Store.loc) (start end_ : T) :
  framed D (StoreV2.handRolledTravelingSalesman undefined computeDistance destinations
              start end_) (λ _, True).
Proof.
  eapply framed_bind; [apply framed_alloc | intros empty _].
  eapply framed_bind; [apply framed_points | intros elements _].
  eapply framed_bind; [apply framed_permutations | intros permutationsIter _].
  eapply framed_bind; [| intros best _].
  { apply (framed_for_of _ _ _ _ (λ _, True)); [| done].
    intros [minDistance minRoute] route _.
    eapply framed_bind; [apply framed_points | intros elements' _].
    by apply framed_ret. }
  eapply framed_bind; [apply framed_points | intros elements' _].
  apply framed_alloc_any.
Qed.
End ProgramFrames.

(** ** The store program computes the routes of the pure program *)
Section StoreRuns.
Context {T num : Type} (undefined : T) `{Number num}.
Variable computeDistance : T * T → num.
Implicit Types (σ : gmap Store.loc (Store.cell T num)).

Lemma run_St_bind {A B} (m : Store.St T num A) (f : A → Store.St T num B) σ :
  (m ≫= f) σ = f (m σ).1 (m σ).2.
Proof. done. Qed.

Lemma alloc_subseteq (c : Store.cell T num) σ :
  σ ⊆ (Store.alloc c σ).2 ∧ (Store.alloc c σ).2 !! (Store.alloc c σ).1 = Some c.
Proof.
  unfold Store.alloc. simpl. split; [| apply lookup_insert_eq].
  apply insert_subseteq, not_elem_of_dom, is_fresh.
Qed.

Lemma points_holds σ (l : Store.loc) (xs : list T) :
  σ !! l = Some (Store.Points xs) → Store.points l σ = (xs, σ).
Proof. intros Hl. unfold Store.points. by rewrite Hl. Qed.

Lemma holds_mono σ σ' (ls : list Store.loc) (ps : list (list T)) :
  σ ⊆ σ' →
  Forall2 (λ l p, σ !! l = Some (Store.Points p)) ls ps →
  Forall2 (λ l p, σ' !! l = Some (Store.Points p)) ls ps.
Proof.
  intros Hsub Hls. eapply Forall2_impl; [exact Hls |]. intros l p Hl.
  exact (lookup_weaken _ _ _ _ Hl Hsub).
Qed.

Lemma mapM_alloc_points (ps : list (list T)) σ :
  σ ⊆ (mapM (λ p, Store.alloc (Store.Points p)) ps σ).2
  ∧ Forall2 (λ l p, (mapM (λ p, Store.alloc (Store.Points p)) ps σ).2 !! l
                    = Some (Store.Points p))
            (mapM (λ p, Store.alloc (Store.Points p)) ps σ).1 ps.
Proof.
  revert σ. induction ps as [| p ps IH]; intros σ; [by split; [| constructor] |].
  change (mapM _ (p :: ps)) with
    (l ← Store.alloc (num := num) (Store.Points p);
     k ← mapM (λ p, Store.alloc (Store.Points p)) ps; mret (l :: k)).
  rewrite run_St_bind, run_St_bind.
  destruct (alloc_subseteq (Store.Points p) σ) as [Hsub Hl].
  destruct (IH (Store.alloc (Store.Points p) σ).2) as [Hsub' Hls].
  cbn [fst snd mret Store.St_ret]. split; [by etrans |].
  constructor; [exact (lookup_weaken _ _ _ _ Hl Hsub') | done].
Qed.

Lemma permutations_run σ (data : Store.loc) (xs : list T) (n : nat) :
  σ !! data = Some (Store.Points xs) →
  σ ⊆ (StoreV2.permutations undefined data n σ).2
  ∧ Forall2 (λ l p, (StoreV2.permutations undefined data n σ).2 !! l
                    = Some (Store.Points p))
            (StoreV2.permutations undefined data n σ).1
            (V2.permutations undefined xs n).
Proof.
  intros Hdata. unfold StoreV2.permutations.
  rewrite run_St_bind, (points_holds _ _ _ Hdata). cbn [fst snd].
  rewrite run_St_bind.
  destruct (alloc_subseteq (Store.Points xs) σ) as [Hsub Hitems].
  rewrite run_St_bind, (points_holds _ _ _ Hitems). cbn [fst snd].
  destruct (mapM_alloc_points (V2.permutations undefined xs n)
              (Store.alloc (Store.Points xs) σ).2) as [Hsub' Hls].
  split; [by etrans | done].
Qed.

Lemma toMin_related {X Y} (R : X → Y → Prop) (kx : X → num) (ky : Y → num)
    (xs : list X) (ys : list Y) :
  (∀ x y, R x y → kx x = ky y) →
  Forall2 R xs ys →
  option_Forall2 R (V2.toMin xs kx) (V2.toMin ys ky).
Proof.
  intros Hkey [| x y xs' ys' Hxy Hrest]; [constructor |].
  rewrite !toMin_cons. constructor.
  revert x y Hxy. induction Hrest as [| x' y' xs' ys' Hxy' _ IH]; intros x y Hxy; [done |].
  cbn [foldl]. apply IH. unfold keep_min.
  rewrite (Hkey _ _ Hxy), (Hkey _ _ Hxy'). by destruct (ltb _ _).
Qed.

Lemma mapM_run {B} (body : Store.loc → Store.St T num B)
    (R : gmap Store.loc (Store.cell T num) → B → list T → Prop)
    (ls : list Store.loc) (ps : list (list T)) σ :
  (∀ σ l p, σ !! l = Some (Store.Points p) →
            σ ⊆ (body l σ).2 ∧ R (body l σ).2 (body l σ).1 p) →
  (∀ σ σ' b p, σ ⊆ σ' → R σ b p → R σ' b p) →
  Forall2 (λ l p, σ !! l = Some (Store.Points p)) ls ps →
  σ ⊆ (mapM body ls σ).2
  ∧ Forall2 (R (mapM body ls σ).2) (mapM body ls σ).1 ps.
Proof.
  intros Hbody Hmono Hls. revert ps σ Hls.
  induction ls as [| l ls IH]; intros ps σ Hls.
  { apply Forall2_nil_inv_l in Hls as ->. by split; [| constructor]. }
  apply Forall2_cons_inv_l in Hls as (p & ps' & Hl & Hls & ->).
  change (mapM body (l :: ls)) with (y ← body l; k ← mapM body ls; mret (y :: k)).
  rewrite !run_St_bind. cbn [fst snd mret Store.St_ret].
  destruct (Hbody σ l p Hl) as [Hsub Hr].
  destruct (IH _ _ (holds_mono _ _ _ _ Hsub Hls)) as [Hsub' Hrs].
  split; [by etrans |]. constructor; [by eapply Hmono | done].
Qed.

Lemma score_route_run (start end_ : T) σ (l : Store.loc) (p : list T) :
  σ !! l = Some (Store.Points p) →
  σ ⊆ ((inner ← Store.points l;
        routeArray ← Store.alloc (Store.Points (V2.startAndEnd start end_ inner));
        route ← Store.points routeArray;
        mret (route_score computeDistance route, routeArray)) σ).2
  ∧ ((inner ← Store.points l;
      routeArray ← Store.alloc (Store.Points (V2.startAndEnd start end_ inner));
      route ← Store.points routeArray;
      mret (route_score computeDistance route, routeArray)) σ).1.1
    = route_score computeDistance (V2.startAndEnd start end_ p)
  ∧ ((inner ← Store.points l;
      routeArray ← Store.alloc (Store.Points (V2.startAndEnd start end_ inner));
      route ← Store.points routeArray;
      mret (route_score computeDistance route, routeArray)) σ).2
    !! ((inner ← Store.points l;
         routeArray ← Store.alloc (Store.Points (V2.startAndEnd start end_ inner));
         route ← Store.points routeArray;
         mret (route_score computeDistance route, routeArray)) σ).1.2
    = Some (Store.Points (V2.startAndEnd start end_ p)).
Proof.
  intros Hl. rewrite run_St_bind, (points_holds _ _ _ Hl). cbn [fst snd].
  rewrite run_St_bind.
  destruct (alloc_subseteq (Store.Points (V2.startAndEnd start end_ p)) σ) as [Hsub Hr].
  rewrite run_St_bind, (points_holds _ _ _ Hr). done.
Qed.

(** The location the pipeline returns holds the route the pure
    pipeline returns on the elements of [innerDestinations]. *)
Lemma StoreV2_travelingSalesman_computes σ (innerDestinations : Store.loc)
    (elements : list T) (start end_ : T) :
  σ !! innerDestinations = Some (Store.Points elements) →
  (StoreV2.travelingSalesman undefined computeDistance innerDestinations start end_ σ).2
    !! (StoreV2.travelingSalesman undefined computeDistance innerDestinations
          start end_ σ).1
  = Some (Store.Points
            (V2.travelingSalesman (M := Id) undefined computeDistance elements
               start end_)).
Proof.
  intros Hinner. unfold StoreV2.travelingSalesman.
  rewrite run_St_bind, (points_holds _ _ _ Hinner). cbn [fst snd].
  rewrite run_St_bind.
  destruct (alloc_subseteq (Store.Points elements) σ) as [Hsub Hcopy].
  rewrite run_St_bind, (points_holds _ _ _ Hcopy). cbn [fst snd].
  rewrite run_St_bind.
  destruct (permutations_run _ _ _ (length elements) Hcopy) as [Hsub1 Hperms].
  rewrite run_St_bind.
  destruct (mapM_run
              (λ innerRoute,
                 inner ← Store.points innerRoute;
                 routeArray ← Store.alloc
                                (Store.Points (V2.startAndEnd start end_ inner));
                 route ← Store.points routeArray;
                 mret (route_score computeDistance route, routeArray))
              (λ σ d p, d.1 = route_score computeDistance (V2.startAndEnd start end_ p)
                        ∧ σ !! d.2 = Some (Store.Points (V2.startAndEnd start end_ p)))
              _ _ _
              (λ σ l p Hl, score_route_run start end_ σ l p Hl)
              (λ σ σ' d p Hsub Hd,
                 conj (proj1 Hd) (lookup_weaken _ _ _ _ (proj2 Hd) Hsub))
              Hperms) as [Hsub2 Hscored].
  rewrite travelingSalesman_Id.
  set (run := mapM (M := Store.St T num) _ _ _) in *.
  set (σ3 := run.2) in *. set (distances := run.1) in *.
  assert (option_Forall2
            (λ d c, d.1 = c.1 ∧ σ3 !! d.2 = Some (Store.Points c.2))
            (V2.toMin distances fst)
            (V2.toMin (map (scored computeDistance)
                         (V2.generateRoutes start end_
                            (V2.permutations undefined elements (length elements))))
                      fst)) as Hmin.
  { apply toMin_related; [by intros d c [? _] |].
    unfold V2.generateRoutes. rewrite map_map. apply Forall2_fmap_r.
    eapply Forall2_impl; [exact Hscored |]. by intros d p [? ?]. }
  destruct Hmin as [d c [_ Hd] |]; [done |].
  apply alloc_subseteq.
Qed.

Lemma handRolled_loop_run (start end_ : T) (ls : list Store.loc) (ps : list (list T))
    σ (best : num * Store.loc) (route : list T) :
  Forall2 (λ l p, σ !! l = Some (Store.Points p)) ls ps →
  σ !! best.2 = Some (Store.Points route) →
  (for_of ls
     (λ '(minDistance, minRoute) route,
        elements ← Store.points route;
        mret (if ltb (hand_score undefined computeDistance start end_ elements)
                     minDistance
              then (hand_score undefined computeDistance start end_ elements, route)
              else (minDistance, minRoute)))
     best σ).2 = σ
  ∧ (for_of ls
       (λ '(minDistance, minRoute) route,
          elements ← Store.points route;
          mret (if ltb (hand_score undefined computeDistance start end_ elements)
                       minDistance
                then (hand_score undefined computeDistance start end_ elements, route)
                else (minDistance, minRoute)))
       best σ).1.1
    = (foldl (handRolledStep undefined computeDistance start end_) (best.1, route) ps).1
  ∧ σ !! (for_of ls
            (λ '(minDistance, minRoute) route,
               elements ← Store.points route;
               mret (if ltb (hand_score undefined computeDistance start end_ elements)
                            minDistance
                     then (hand_score undefined computeDistance start end_ elements,
                           route)
                     else (minDistance, minRoute)))
            best σ).1.2
    = Some (Store.Points
              (foldl (handRolledStep undefined computeDistance start end_)
                     (best.1, route) ps).2).
Proof.
  intros Hls. revert best route.
  induction Hls as [| l p ls ps Hl _ IH]; intros [minDistance minRoute] route Hbest;
    [done |].
  cbn [for_of foldl]. rewrite run_St_bind, run_St_bind, (points_holds _ _ _ Hl).
  cbn [fst snd mret Store.St_ret].
  unfold handRolledStep at 2 4. cbv zeta. cbn [fst].
  destruct (ltb _ minDistance); [by apply IH | by apply (IH (_, _))].
Qed.

(** The location the hand-rolled optimizer returns holds the route the
    pure hand-rolled optimizer returns on the elements of
    [destinations]. *)
Lemma StoreV2_handRolledTravelingSalesman_computes σ (destinations : Store.loc)
    (elements : list T) (start end_ : T) :
  σ !! destinations = Some (Store.Points elements) →
  (StoreV2.handRolledTravelingSalesman undefined computeDistance destinations
     start end_ σ).2
    !! (StoreV2.handRolledTravelingSalesman undefined computeDistance destinations
          start end_ σ).1
  = Some (Store.Points
            (V2.handRolledTravelingSalesman (M := Id) undefined computeDistance
               elements start end_)).
Proof.
  intros Hdest. unfold StoreV2.handRolledTravelingSalesman. cbv zeta.
  rewrite run_St_bind.
  destruct (alloc_subseteq (Store.Points []) σ) as [Hsub Hempty].
  rewrite run_St_bind, (points_holds _ _ _ (lookup_weaken _ _ _ _ Hdest Hsub)).
  cbn [fst snd]. rewrite run_St_bind.
  destruct (permutations_run _ _ _ (length elements)
              (lookup_weaken _ _ _ _ Hdest Hsub)) as [Hsub1 Hperms].
  rewrite run_St_bind.
  destruct (handRolled_loop_run start end_ _ _ _
              (infinity, (Store.alloc (Store.Points []) σ).1) [] Hperms
              (lookup_weaken _ _ _ _ Hempty Hsub1)) as (Hσ & _ & Hbest).
  rewrite Hσ. rewrite run_St_bind, (points_holds _ _ _ Hbest). cbn [fst snd].
  rewrite handRolledTravelingSalesman_Id.
  apply alloc_subseteq.
Qed.
End StoreRuns.

Section StoreV1Runs.
Context {T num : Type} (undefined : T) `{Number num}.
Variable computeDistance : T * T → num.
Implicit Types (σ : gmap Store.loc (Store.cell T num)).

Lemma points_kept_refl σ : points_kept σ σ.
Proof. by intros l xs. Qed.

Lemma points_kept_trans σ1 σ2 σ3 :
  points_kept σ1 σ2 → points_kept σ2 σ3 → points_kept σ1 σ3.
Proof. intros H12 H23 l xs Hl. by apply H23, H12. Qed.

Lemma points_kept_subseteq σ σ' : σ ⊆ σ' → points_kept σ σ'.
Proof. intros Hsub l xs Hl. exact (lookup_weaken _ _ _ _ Hl Hsub). Qed.

Lemma points_kept_Forall2 σ σ' (ls : list Store.loc) (ps : list (list T)) :
  points_kept σ σ' →
  Forall2 (λ l p, σ !! l = Some (Store.Points p)) ls ps →
  Forall2 (λ l p, σ' !! l = Some (Store.Points p)) ls ps.
Proof. intros Hkept Hls. eapply Forall2_impl; [exact Hls |]. intros l p. apply Hkept. Qed.

Lemma arrays_holds σ (l : Store.loc) (ls : list Store.loc) :
  σ !! l = Some (Store.Arrays ls) → Store.arrays l σ = (ls, σ).
Proof. intros Hl. unfold Store.arrays. by rewrite Hl. Qed.

Lemma push_array_run σ (l x : Store.loc) (ls : list Store.loc) :
  σ !! l = Some (Store.Arrays ls) →
  Store.push_array l x σ = (tt, <[l := Store.Arrays (ls ++ [x])]> σ).
Proof. intros Hl. unfold Store.push_array. by rewrite Hl. Qed.

(** The inner loop of [getPermutations]: one new array per
    sub-permutation, pushed on [permutations] in order. *)
Lemma push_loop_run (current : T) (permutations : Store.loc)
    (subPerms : list Store.loc) (sps : list (list T)) σ (ls0 : list Store.loc) :
  Forall2 (λ l p, σ !! l = Some (Store.Points p)) subPerms sps →
  σ !! permutations = Some (Store.Arrays ls0) →
  points_kept σ
    (for_of subPerms
       (λ _ subPerm,
          rest ← Store.points subPerm;
          permutation ← Store.alloc (Store.Points (current :: rest));
          Store.push_array permutations permutation) tt σ).2
  ∧ ∃ new,
      (for_of subPerms
         (λ _ subPerm,
            rest ← Store.points subPerm;
            permutation ← Store.alloc (Store.Points (current :: rest));
            Store.push_array permutations permutation) tt σ).2 !! permutations
      = Some (Store.Arrays (ls0 ++ new))
      ∧ Forall2 (λ l p,
          (for_of subPerms
             (λ _ subPerm,
                rest ← Store.points subPerm;
                permutation ← Store.alloc (Store.Points (current :: rest));
                Store.push_array permutations permutation) tt σ).2 !! l
          = Some (Store.Points p))
          new (map (cons current) sps).
Proof.
  intros Hsubs. revert sps σ ls0 Hsubs.
  induction subPerms as [| subPerm subPerms IH]; intros sps σ ls0 Hsubs Hperms.
  { apply Forall2_nil_inv_l in Hsubs as ->. split; [apply points_kept_refl |].
    exists []. by rewrite app_nil_r. }
  apply Forall2_cons_inv_l in Hsubs as (sp & sps' & Hsub & Hsubs & ->).
  cbn [for_of]. rewrite run_St_bind.
  set (σ2 := <[permutations := Store.Arrays (ls0 ++ [fresh (dom σ)])]>
               (<[fresh (dom σ) := Store.Points (current :: sp)]> σ)).
  assert (fresh (dom σ) ≠ permutations) as Hne.
  { intros Heq. apply (is_fresh (dom σ)). rewrite Heq. by apply elem_of_dom_2 in Hperms. }
  assert ((rest ← Store.points subPerm;
           permutation ← Store.alloc (Store.Points (current :: rest));
           Store.push_array permutations permutation) σ = (tt, σ2)) as ->.
  { rewrite run_St_bind, (points_holds _ _ _ Hsub). cbn [fst snd].
    rewrite run_St_bind. unfold Store.alloc at 1 2. cbn [fst snd].
    apply push_array_run. by rewrite lookup_insert_ne. }
  cbn [fst snd].
  assert (points_kept σ σ2) as Hkept.
  { intros l xs Hl. unfold σ2.
    rewrite lookup_insert_ne by (intros Heq; rewrite <- Heq in Hl; congruence).
    rewrite lookup_insert_ne; [done |].
    intros Heq. apply (is_fresh (dom σ)). rewrite Heq. by apply elem_of_dom_2 in Hl. }
  destruct (IH sps' σ2 (ls0 ++ [fresh (dom σ)])) as (Hkept' & new & Hperms' & Hnew).
  { exact (points_kept_Forall2 _ _ _ _ Hkept Hsubs). }
  { unfold σ2. apply lookup_insert_eq. }
  split; [exact (points_kept_trans _ _ _ Hkept Hkept') |].
  exists (fresh (dom σ) :: new). split; [by rewrite Hperms', <- app_assoc |].
  cbn [map]. constructor; [| done].
  apply Hkept'. unfold σ2. rewrite lookup_insert_ne by done. apply lookup_insert_eq.
Qed.

(** One round of the outer loop of [getPermutations]. *)
Lemma pivot_run (rec : Store.loc → Store.St T num Store.loc) (size : nat)
    (arr permutations : Store.loc) (xs : list T) (i : nat) σ (ls0 : list Store.loc) :
  permutations_at undefined rec size →
  σ !! arr = Some (Store.Points xs) →
  σ !! permutations = Some (Store.Arrays ls0) →
  points_kept σ
    ((elements ← Store.points arr;
      let current := nth i elements undefined in
      before ← Store.alloc (Store.Points (take i elements));
      elements ← Store.points arr;
      after ← Store.alloc (Store.Points (drop (i + 1) elements));
      xs ← Store.points before;
      ys ← Store.points after;
      remaining ← Store.alloc (Store.Points (xs ++ ys));
      subPermutations ← rec remaining;
      subPerms ← Store.arrays subPermutations;
      for_of subPerms
        (λ _ subPerm,
           rest ← Store.points subPerm;
           permutation ← Store.alloc (Store.Points (current :: rest));
           Store.push_array permutations permutation) tt) σ).2
  ∧ ∃ new,
      ((elements ← Store.points arr;
        let current := nth i elements undefined in
        before ← Store.alloc (Store.Points (take i elements));
        elements ← Store.points arr;
        after ← Store.alloc (Store.Points (drop (i + 1) elements));
        xs ← Store.points before;
        ys ← Store.points after;
        remaining ← Store.alloc (Store.Points (xs ++ ys));
        subPermutations ← rec remaining;
        subPerms ← Store.arrays subPermutations;
        for_of subPerms
          (λ _ subPerm,
             rest ← Store.points subPerm;
             permutation ← Store.alloc (Store.Points (current :: rest));
             Store.push_array permutations permutation) tt) σ).2 !! permutations
      = Some (Store.Arrays (ls0 ++ new))
      ∧ Forall2 (λ l p,
          ((elements ← Store.points arr;
            let current := nth i elements undefined in
            before ← Store.alloc (Store.Points (take i elements));
            elements ← Store.points arr;
            after ← Store.alloc (Store.Points (drop (i + 1) elements));
            xs ← Store.points before;
            ys ← Store.points after;
            remaining ← Store.alloc (Store.Points (xs ++ ys));
            subPermutations ← rec remaining;
            subPerms ← Store.arrays subPermutations;
            for_of subPerms
              (λ _ subPerm,
                 rest ← Store.points subPerm;
                 permutation ← Store.alloc (Store.Points (current :: rest));
                 Store.push_array permutations permutation) tt) σ).2 !! l
          = Some (Store.Points p))
          new
          (map (cons (nth i xs undefined))
               (V1.getPermutations undefined (take i xs ++ drop (i + 1) xs) size)).
Proof.
  intros Hrec Harr Hperms. cbv zeta.
  rewrite run_St_bind, (points_holds _ _ _ Harr). cbn [fst snd].
  rewrite run_St_bind.
  destruct (alloc_subseteq (Store.Points (take i xs)) σ) as [Hsub1 Hbefore].
  set (before := (Store.alloc (Store.Points (take i xs)) σ).1) in *.
  set (σ1 := (Store.alloc (Store.Points (take i xs)) σ).2) in *.
  rewrite run_St_bind, (points_holds _ _ _ (lookup_weaken _ _ _ _ Harr Hsub1)).
  cbn [fst snd]. rewrite run_St_bind.
  destruct (alloc_subseteq (Store.Points (drop (i + 1) xs)) σ1) as [Hsub2 Hafter].
  set (after := (Store.alloc (Store.Points (drop (i + 1) xs)) σ1).1) in *.
  set (σ2 := (Store.alloc (Store.Points (drop (i + 1) xs)) σ1).2) in *.
  rewrite run_St_bind, (points_holds _ _ _ (lookup_weaken _ _ _ _ Hbefore Hsub2)).
  cbn [fst snd]. rewrite run_St_bind, (points_holds _ _ _ Hafter). cbn [fst snd].
  rewrite run_St_bind.
  destruct (alloc_subseteq (Store.Points (take i xs ++ drop (i + 1) xs)) σ2)
    as [Hsub3 Hremaining].
  set (remaining := (Store.alloc (Store.Points (take i xs ++ drop (i + 1) xs)) σ2).1) in *.
  set (σ3 := (Store.alloc (Store.Points (take i xs ++ drop (i + 1) xs)) σ2).2) in *.
  rewrite run_St_bind.
  destruct (Hrec σ3 remaining _ Hremaining) as (Hsub4 & subs & Hsubl & Hsubs).
  set (σ4 := (rec remaining σ3).2) in *.
  rewrite run_St_bind, (arrays_holds _ _ _ Hsubl). cbn [fst snd].
  assert (σ ⊆ σ4) as Hsub by (do 3 (etrans; [eassumption |]); done).
  destruct (push_loop_run (nth i xs undefined) permutations subs _ σ4 ls0 Hsubs
              (lookup_weaken _ _ _ _ Hperms Hsub)) as (Hkept & new & Hperms' & Hnew).
  split; [| by exists new].
  exact (points_kept_trans _ _ _ (points_kept_subseteq _ _ Hsub) Hkept).
Qed.

Lemma pivots_run (body : () → nat → Store.St T num ()) (piece : nat → list (list T))
    (arr permutations : Store.loc) (xs : list T) (indices : list nat)
    σ (ls0 : list Store.loc) :
  (∀ σ ls0 i,
     σ !! arr = Some (Store.Points xs) →
     σ !! permutations = Some (Store.Arrays ls0) →
     points_kept σ (body tt i σ).2
     ∧ ∃ new, (body tt i σ).2 !! permutations = Some (Store.Arrays (ls0 ++ new))
              ∧ Forall2 (λ l p, (body tt i σ).2 !! l = Some (Store.Points p))
                        new (piece i)) →
  σ !! arr = Some (Store.Points xs) →
  σ !! permutations = Some (Store.Arrays ls0) →
  points_kept σ (for_of indices body tt σ).2
  ∧ ∃ new, (for_of indices body tt σ).2 !! permutations
           = Some (Store.Arrays (ls0 ++ new))
           ∧ Forall2 (λ l p, (for_of indices body tt σ).2 !! l = Some (Store.Points p))
                     new (flat_map piece indices).
Proof.
  intros Hbody. revert σ ls0.
  induction indices as [| i indices IH]; intros σ ls0 Harr Hperms.
  { split; [apply points_kept_refl |]. exists []. by rewrite app_nil_r. }
  cbn [for_of flat_map]. rewrite run_St_bind.
  destruct (Hbody σ ls0 i Harr Hperms) as (Hkept & new & Hperms' & Hnew).
  destruct (body tt i σ) as [[] σ1]. cbn [fst snd] in *.
  destruct (IH σ1 (ls0 ++ new) (Hkept _ _ Harr) Hperms')
    as (Hkept' & new' & Hperms'' & Hnew').
  split; [exact (points_kept_trans _ _ _ Hkept Hkept') |].
  exists (new ++ new'). split; [by rewrite Hperms'', <- app_assoc |].
  apply Forall2_app; [| done].
  exact (points_kept_Forall2 _ _ _ _ Hkept' Hnew).
Qed.

(** [getPermutations] over the store returns an array of the orderings
    that [getPermutations] computes on the elements. *)
Lemma StoreV1_getPermutations_computes (size : nat) :
  permutations_at (num := num) undefined
    (λ arr, StoreV1.getPermutations undefined arr size) size.
Proof.
  induction size as [| size IH]; intros σ arr xs Harr.
  - split.
    { eapply framed_subseteq, (framed_getPermutations undefined _ arr 0). }
    cbn [StoreV1.getPermutations]. rewrite run_St_bind.
    destruct (alloc_subseteq (Store.Points []) σ) as [Hsub Hempty].
    destruct (alloc_subseteq
                (Store.Arrays [(Store.alloc (T := T) (num := num) (Store.Points []) σ).1])
                (Store.alloc (Store.Points []) σ).2) as [Hsub' Hresult].
    eexists. split; [exact Hresult |].
    constructor; [| constructor]. exact (lookup_weaken _ _ _ _ Hempty Hsub').
  - split.
    { eapply framed_subseteq, (framed_getPermutations undefined _ arr (S size)). }
    cbn [StoreV1.getPermutations]. rewrite run_St_bind.
    destruct (alloc_subseteq (Store.Arrays []) σ) as [Hsub Hperms].
    set (permutations := (Store.alloc (Store.Arrays []) σ).1) in *.
    set (σ1 := (Store.alloc (Store.Arrays []) σ).2) in *.
    pose proof (lookup_weaken _ _ _ _ Harr Hsub) as Harr1.
    rewrite run_St_bind, (points_holds _ _ _ Harr1). cbn [fst snd].
    rewrite run_St_bind. cbn [mret Store.St_ret fst snd].
    match goal with
    | |- context [for_of (seq 0 (length xs)) ?body tt σ1] =>
        destruct (pivots_run body
                    (λ i, map (cons (nth i xs undefined))
                              (V1.getPermutations undefined
                                 (take i xs ++ drop (i + 1) xs) size))
                    arr permutations xs (seq 0 (length xs)) σ1 [])
          as (_ & new & Hnew & Hholds); [| exact Harr1 | exact Hperms |]
    end.
    { intros σ' ls0 i Harr' Hperms'.
      apply (pivot_run (λ arr, StoreV1.getPermutations undefined arr size) size
               arr permutations xs i σ' ls0 IH Harr' Hperms'). }
    exists new. split; [exact Hnew | exact Hholds].
Qed.
End StoreV1Runs.

Section StoreV1Optimizer.
Context {T num : Type} (undefined : T) `{Number num}.
Variable computeDistance : T * T → num.
Implicit Types (σ : gmap Store.loc (Store.cell T num)).

Lemma V1_travelingSalesman_Id (inner : list T) (start end_ : T) :
  V1.travelingSalesman (M := Id) undefined computeDistance inner start end_
  = snd <$> V1.reduce (λ min curr, if ltb curr.1 min.1 then curr else min)
              (map (λ p, (route_sum undefined computeDistance (start :: p ++ [end_]),
                          start :: p ++ [end_]))
                   (V1.getPermutations undefined inner (length inner))).
Proof.
  unfold V1.travelingSalesman.
  rewrite (mapM_Id (V1.routeDistance (M := Id) undefined computeDistance)).
  generalize (V1.getPermutations undefined inner (length inner)) as perms.
  intros perms.
  assert (map (V1.routeDistance (M := Id) undefined computeDistance)
              (map (λ permutation, start :: permutation ++ [end_]) perms)
          = map (λ p, (route_sum undefined computeDistance (start :: p ++ [end_]),
                       start :: p ++ [end_])) perms) as ->; [| done].
  induction perms as [| p perms IH]; [done |].
  cbn [map]. by rewrite IH, routeDistance_Id.
Qed.

(** [reduce] never sees an empty array: the array revision returns a
    route, one of the assembled candidates. *)
Lemma V1_travelingSalesman_returns (inner : list T) (start end_ : T) :
  ∃ p, p ∈ V1.getPermutations undefined inner (length inner)
       ∧ V1.travelingSalesman (M := Id) undefined computeDistance inner start end_
         = Some (start :: p ++ [end_]).
Proof.
  rewrite V1_travelingSalesman_Id.
  destruct (permutations_nonempty undefined inner) as (p1 & rest & Hperms).
  rewrite permutations_getPermutations in Hperms. rewrite Hperms.
  cbn [map V1.reduce fmap option_fmap option_map].
  match goal with
  | |- context [foldl ?f ?b ?l] =>
      pose proof (foldl_keep_min_elem fst b l) as Hin;
      change (foldl (keep_min fst) b l) with (foldl f b l) in Hin
  end.
  rewrite <- (map_cons (λ p, (route_sum undefined computeDistance
                                (start :: p ++ [end_]), start :: p ++ [end_]))) in Hin.
  apply list_elem_of_fmap in Hin as (p & Hp & Hin).
  exists p. split; [done |]. by rewrite Hp.
Qed.

Lemma reduce_related {X Y} (R : X → Y → Prop) (kx : X → num) (ky : Y → num)
    (xs : list X) (ys : list Y) :
  (∀ x y, R x y → kx x = ky y) →
  Forall2 R xs ys →
  option_Forall2 R
    (V1.reduce (λ min curr, if ltb (kx curr) (kx min) then curr else min) xs)
    (V1.reduce (λ min curr, if ltb (ky curr) (ky min) then curr else min) ys).
Proof.
  intros Hkey [| x y xs' ys' Hxy Hrest]; [constructor |].
  cbn [V1.reduce]. constructor.
  revert x y Hxy. induction Hrest as [| x' y' xs' ys' Hxy' _ IH]; intros x y Hxy; [done |].
  cbn [foldl]. apply IH.
  rewrite (Hkey _ _ Hxy), (Hkey _ _ Hxy'). by destruct (ltb _ _).
Qed.

Lemma push_number_run σ (l : Store.loc) (d : num) (ds : list num) :
  σ !! l = Some (Store.Numbers ds) →
  Store.push_number (T := T) l d σ = (tt, <[l := Store.Numbers (ds ++ [d])]> σ).
Proof. intros Hl. unfold Store.push_number. by rewrite Hl. Qed.

Lemma numbers_holds σ (l : Store.loc) (ds : list num) :
  σ !! l = Some (Store.Numbers ds) → Store.numbers l σ = (ds, σ).
Proof. intros Hl. unfold Store.numbers. by rewrite Hl. Qed.

(** The loop that pushes one distance per index. *)
Lemma distances_loop_run (route distances : Store.loc) (r : list T)
    (indices : list nat) σ (ds0 : list num) :
  σ !! route = Some (Store.Points r) →
  σ !! distances = Some (Store.Numbers ds0) →
  (for_of indices
     (λ _ i,
        elements ← Store.points route;
        Store.push_number distances
          (computeDistance (nth i elements undefined, nth (i + 1) elements undefined)))
     tt σ).2 !! distances
  = Some (Store.Numbers
            (ds0 ++ map (λ i, computeDistance (nth i r undefined,
                                               nth (i + 1) r undefined)) indices)).
Proof.
  revert σ ds0. induction indices as [| i indices IH]; intros σ ds0 Hroute Hds.
  { by rewrite app_nil_r. }
  cbn [for_of map]. rewrite run_St_bind, run_St_bind, (points_holds _ _ _ Hroute).
  cbn [fst snd]. rewrite (push_number_run _ _ _ _ Hds). cbn [fst snd].
  rewrite IH with (ds0 := ds0 ++ [computeDistance (nth i r undefined,
                                                   nth (i + 1) r undefined)]).
  - by rewrite <- app_assoc.
  - rewrite lookup_insert_ne; [done |]. intros Heq. rewrite Heq in Hds. congruence.
  - apply lookup_insert_eq.
Qed.

Lemma framed_routeDistance D (route : Store.loc) :
  framed D
    (distances ← Store.alloc (T := T) (Store.Numbers []);
     elements ← Store.points route;
     _ ← for_of (seq 0 (length elements - 1))
       (λ _ i,
          elements ← Store.points route;
          Store.push_number distances
            (computeDistance (nth i elements undefined, nth (i + 1) elements undefined)))
       tt;
     ds ← Store.numbers distances;
     mret (foldl add zero ds, route))
    (λ _, True).
Proof.
  eapply framed_bind; [apply framed_alloc | intros distances Hnew].
  eapply framed_bind; [apply framed_points | intros elements' _].
  eapply framed_bind; [| intros _ _].
  { apply (framed_for_of _ _ _ _ (λ _, True)); [| done]. intros _ i _.
    eapply framed_bind; [apply framed_points | intros elements'' _].
    by apply framed_push_number. }
  eapply framed_bind; [apply framed_numbers | intros ds _].
  by apply framed_ret.
Qed.

Lemma routeDistance_run σ (route : Store.loc) (r : list T) :
  σ !! route = Some (Store.Points r) →
  σ ⊆ ((distances ← Store.alloc (T := T) (Store.Numbers []);
        elements ← Store.points route;
        _ ← for_of (seq 0 (length elements - 1))
          (λ _ i,
             elements ← Store.points route;
             Store.push_number distances
               (computeDistance (nth i elements undefined,
                                 nth (i + 1) elements undefined)))
          tt;
        ds ← Store.numbers distances;
        mret (foldl add zero ds, route)) σ).2
  ∧ ((distances ← Store.alloc (T := T) (Store.Numbers []);
      elements ← Store.points route;
      _ ← for_of (seq 0 (length elements - 1))
        (λ _ i,
           elements ← Store.points route;
           Store.push_number distances
             (computeDistance (nth i elements undefined,
                               nth (i + 1) elements undefined)))
        tt;
      ds ← Store.numbers distances;
      mret (foldl add zero ds, route)) σ).1
    = (route_sum undefined computeDistance r, route).
Proof.
  intros Hroute. split.
  { eapply framed_subseteq, framed_routeDistance. }
  rewrite run_St_bind.
  destruct (alloc_subseteq (T := T) (Store.Numbers []) σ) as [Hsub Hds].
  set (distances := (Store.alloc (Store.Numbers []) σ).1) in *.
  set (σ1 := (Store.alloc (Store.Numbers []) σ).2) in *.
  pose proof (lookup_weaken _ _ _ _ Hroute Hsub) as Hroute1.
  rewrite run_St_bind, (points_holds _ _ _ Hroute1). cbn [fst snd].
  rewrite run_St_bind, run_St_bind.
  rewrite (numbers_holds _ _ _
             (distances_loop_run route distances r _ σ1 [] Hroute1 Hds)).
  done.
Qed.

(** The location the array revision returns holds the route the pure
    array revision returns on the elements of [innerDestinations]. *)
Lemma StoreV1_travelingSalesman_computes σ (innerDestinations : Store.loc)
    (elements : list T) (start end_ : T) :
  σ !! innerDestinations = Some (Store.Points elements) →
  option_Forall2
    (λ l route,
       (StoreV1.travelingSalesman undefined computeDistance innerDestinations
          start end_ σ).2 !! l = Some (Store.Points route))
    (StoreV1.travelingSalesman undefined computeDistance innerDestinations
       start end_ σ).1
    (V1.travelingSalesman (M := Id) undefined computeDistance elements start end_).
Proof.
  intros Hinner. rewrite V1_travelingSalesman_Id. unfold StoreV1.travelingSalesman.
  rewrite run_St_bind, (points_holds _ _ _ Hinner). cbn [fst snd].
  rewrite run_St_bind.
  destruct (StoreV1_getPermutations_computes undefined (length elements) σ
              innerDestinations elements Hinner) as (Hsub1 & ls & Hpl & Hls).
  cbv beta in Hsub1, Hpl, Hls.
  set (run1 := StoreV1.getPermutations undefined innerDestinations (length elements) σ)
    in *.
  rewrite run_St_bind, (arrays_holds _ _ _ Hpl). cbn [fst snd].
  rewrite run_St_bind.
  destruct (mapM_run
              (λ permutation,
                 inner ← Store.points permutation;
                 Store.alloc (Store.Points (start :: inner ++ [end_])))
              (λ σ l p, σ !! l = Some (Store.Points (start :: p ++ [end_])))
              ls (V1.getPermutations undefined elements (length elements)) run1.2)
    as [Hsub2 Hroutes]; [| | exact Hls |].
  { intros σ' l p Hl. rewrite run_St_bind, (points_holds _ _ _ Hl). cbn [fst snd].
    apply alloc_subseteq. }
  { intros σ' σ'' l p Hsub Hl. exact (lookup_weaken _ _ _ _ Hl Hsub). }
  set (run2 := mapM (M := Store.St T num) _ ls run1.2) in *.
  rewrite run_St_bind.
  destruct (alloc_subseteq (T := T) (num := num) (Store.Arrays run2.1) run2.2)
    as [Hsub3 Harr].
  rewrite run_St_bind, (arrays_holds _ _ _ Harr). cbn [fst snd].
  rewrite run_St_bind.
  destruct (mapM_run
              (λ route,
                 distances ← Store.alloc (T := T) (Store.Numbers []);
                 elements ← Store.points route;
                 _ ← for_of (seq 0 (length elements - 1))
                   (λ _ i,
                      elements ← Store.points route;
                      Store.push_number distances
                        (computeDistance (nth i elements undefined,
                                          nth (i + 1) elements undefined)))
                   tt;
                 ds ← Store.numbers distances;
                 mret (foldl add zero ds, route))
              (λ σ d r, d.1 = route_sum undefined computeDistance r
                        ∧ σ !! d.2 = Some (Store.Points r))
              run2.1
              (map (λ p, start :: p ++ [end_])
                   (V1.getPermutations undefined elements (length elements)))
              (Store.alloc (Store.Arrays run2.1) run2.2).2)
    as [Hsub4 Hscored].
  { intros σ' l r Hl. destruct (routeDistance_run σ' l r Hl) as [Hsub Hvalue].
    split; [exact Hsub |]. rewrite Hvalue. cbn [fst snd].
    split; [done | exact (lookup_weaken _ _ _ _ Hl Hsub)]. }
  { intros σ' σ'' d r Hsub [Hd Hl]. split; [done | exact (lookup_weaken _ _ _ _ Hl Hsub)]. }
  { apply Forall2_fmap_r. eapply Forall2_impl; [exact Hroutes |].
    intros l p Hl. exact (lookup_weaken _ _ _ _ Hl Hsub3). }
  set (run4 := mapM (M := Store.St T num) _ run2.1 _) in *.
  cbn [mret Store.St_ret fst snd].
  destruct (reduce_related
              (λ d c, d.1 = c.1 ∧ run4.2 !! d.2 = Some (Store.Points c.2)) fst fst
              run4.1
              (map (λ p, (route_sum undefined computeDistance (start :: p ++ [end_]),
                          start :: p ++ [end_]))
                   (V1.getPermutations undefined elements (length elements))))
    as [d c [_ Hd] |]; [by intros d c [? _] | | by constructor | constructor].
  rewrite <- (map_map (λ p, start :: p ++ [end_])
                      (λ r, (route_sum undefined computeDistance r, r))).
  apply Forall2_fmap_r. eapply Forall2_impl; [exact Hscored |]. by intros d r [? ?].
Qed.
End StoreV1Optimizer.

(** C10: whatever the store holds when an optimizer is called, every
    array of the store, the caller's [innerDestinations] among them,
    holds the same elements in the same order when it returns; so does
    [getPermutations]. *)
Theorem arguments_are_not_mutated {T num : Type} (undefined : T) `{Number num}
    (computeDistance : T * T → num) (σ : gmap Store.loc (Store.cell T num))
    (innerDestinations : Store.loc) (start end_ : T) (size : nat) :
  σ ⊆ (StoreV2.travelingSalesman undefined computeDistance innerDestinations
         start end_ σ).2
  ∧ σ ⊆ (StoreV2.handRolledTravelingSalesman undefined computeDistance innerDestinations
           start end_ σ).2
  ∧ σ ⊆ (StoreV1.travelingSalesman undefined computeDistance innerDestinations
           start end_ σ).2
  ∧ σ ⊆ (StoreV1.getPermutations undefined innerDestinations size σ).2.
Proof.
  repeat split; eapply framed_subseteq.
  - apply framed_V2_travelingSalesman.
  - apply framed_handRolledTravelingSalesman.
  - apply framed_V1_travelingSalesman.
  - apply framed_getPermutations.
Qed.

(** * Further properties *)

(** ** The permutation generator on any [size] *)
Section PartialOrderings.
Context {T : Type} (undefined : T).
Implicit Types (arr p : list T) (i size : nat).

Lemma flat_map_nil_inv {A B} (f : A → list B) (l : list A) :
  (∀ a, a ∈ l → f a = []) → flat_map f l = [].
Proof.
  induction l as [| a l IH]; intros Hf; [done |].
  simpl. rewrite Hf by (by left). apply IH. intros b Hb. apply Hf. by right.
Qed.

Lemma getPermutations_beyond arr size :
  length arr < size → V1.getPermutations undefined arr size = [].
Proof.
  revert arr. induction size as [| size IH]; intros arr Hlen; [lia |].
  simpl. apply flat_map_nil_inv. intros i Hi%elem_of_seq.
  rewrite remaining_delete, IH; [done |].
  rewrite length_delete by (apply lookup_lt_is_Some; lia). lia.
Qed.



End PartialOrderings.

(** X1: [getPermutations(arr, size)] with [size] greater than
    [arr.length] returns the empty array: the recursion runs out of
    elements before [size] reaches [0]. *)
Theorem getPermutations_size_beyond_length {T : Type} (undefined : T)
    (arr : list T) (size : nat) :
  length arr < size → V1.getPermutations undefined arr size = [].
Proof. apply getPermutations_beyond. Qed.

Lemma getPermutations_three_of_two :
  V1.getPermutations 0 [1; 2] 3 = [].
Proof. apply (getPermutations_size_beyond_length 0 [1; 2] 3). simpl. lia. Defined.



(** ** The order of emission *)
Section EmissionOrder.
Context {T : Type} (undefined : T).
Implicit Types (arr p : list T).

Lemma getPermutations_last arr :
  last (V1.getPermutations undefined arr (length arr)) = Some (reverse arr).
Proof.
  remember (length arr) as n eqn:Hn. revert arr Hn.
  induction n as [| n IH]; intros arr Hn.
  { symmetry in Hn. by apply nil_length_inv in Hn as ->. }
  destruct (decide (arr = [])) as [-> | Hne]; [done |].
  apply exists_last in Hne as (init & x & ->).
  rewrite length_app in Hn. cbn [length] in Hn.
  assert (length init = n) as Hinit by lia.
  cbn [V1.getPermutations]. rewrite length_app. cbn [length].
  rewrite Nat.add_1_r, seq_S, flat_map_app. cbn [flat_map]. rewrite app_nil_r.
  rewrite remaining_delete. change (0 + length init) with (length init).
  replace (delete (length init) (init ++ [x])) with init.
  2: { rewrite delete_take_drop, take_app_length.
       rewrite drop_ge by (rewrite length_app; simpl; lia). by rewrite app_nil_r. }
  replace (V1.index undefined (init ++ [x]) (length init)) with x.
  2: { unfold V1.index. by rewrite nth_middle. }
  rewrite Hinit. rewrite last_app.
  change (map (cons x) (V1.getPermutations undefined init n))
    with (cons x <$> V1.getPermutations undefined init n).
  rewrite fmap_last, (IH init) by done. simpl. by rewrite reverse_snoc.
Qed.

Lemma lex_lt_cons (a : nat) (p q : list nat) : lex_lt p q → lex_lt (a :: p) (a :: q).
Proof. intros Hpq. destruct q; [by destruct p |]. right. done. Qed.

Lemma StronglySorted_flat_map_seq {B} (R : relation B) (g : nat → list B) (start n : nat) :
  (∀ i, start ≤ i < start + n → StronglySorted R (g i)) →
  (∀ i j x y, start ≤ i → i < j → j < start + n → x ∈ g i → y ∈ g j → R x y) →
  StronglySorted R (flat_map g (seq start n)).
Proof.
  revert start. induction n as [| n IH]; intros start Hsorted Hacross; [constructor |].
  cbn [seq flat_map]. apply StronglySorted_app_2.
  - intros x y Hx Hy%list_elem_of_In. apply in_flat_map in Hy as (j & Hj%in_seq & Hy).
    apply (Hacross start j); [lia | lia | lia | done | by apply list_elem_of_In].
  - apply Hsorted. lia.
  - apply IH.
    + intros i Hi. apply Hsorted. lia.
    + intros i j x y Hi Hij Hj. apply Hacross; lia.
Qed.

Lemma StronglySorted_lt_delete (positions : list nat) (i : nat) :
  StronglySorted lt positions → StronglySorted lt (delete i positions).
Proof.
  intros Hsorted. revert i.
  induction Hsorted as [| a l Hl IH Ha]; intros i; [destruct i; constructor |].
  destruct i as [| i]; simpl; [done |].
  constructor; [apply IH |]. by apply Forall_delete.
Qed.

Lemma StronglySorted_lookup {Y} (S : relation Y) (data : list Y) (i j : nat) (a b : Y) :
  StronglySorted S data → i < j →
  data !! i = Some a → data !! j = Some b → S a b.
Proof.
  intros Hsorted. revert i j.
  induction Hsorted as [| c l Hl IH Hc]; intros i j Hij Ha Hb; [done |].
  destruct j as [| j]; [lia |]. destruct i as [| i].
  - injection Ha as ->. rewrite Forall_forall in Hc. apply Hc.
    by eapply list_elem_of_lookup_2.
  - apply (IH i j); [lia | done | done].
Qed.

(** From increasing positions the orderings come out in increasing
    lexicographic order. *)
Lemma getPermutations_sorted (positions : list nat) (size : nat) :
  StronglySorted lt positions →
  StronglySorted lex_lt (V1.getPermutations 0 positions size).
Proof.
  revert positions. induction size as [| size IH]; intros positions Hsorted.
  { repeat constructor. }
  cbn [V1.getPermutations]. apply StronglySorted_flat_map_seq.
  - intros i Hi. rewrite remaining_delete.
    apply (StronglySorted_fmap _ lex_lt); [intros p q; apply lex_lt_cons |].
    by apply IH, StronglySorted_lt_delete.
  - intros i j p q _ Hij Hj (p' & -> & _)%list_elem_of_fmap (q' & -> & _)%list_elem_of_fmap.
    left. unfold V1.index.
    destruct (lookup_lt_is_Some_2 positions i) as [a Ha]; [lia |].
    destruct (lookup_lt_is_Some_2 positions j) as [b Hb]; [lia |].
    rewrite (nth_lookup_Some _ _ _ _ Ha), (nth_lookup_Some _ _ _ _ Hb).
    by apply (StronglySorted_lookup lt positions i j).
Qed.
End EmissionOrder.

Lemma StronglySorted_lt_seq (start n : nat) : StronglySorted lt (seq start n).
Proof.
  revert start. induction n as [| n IH]; intros start; [constructor |].
  constructor; [apply IH |]. apply Forall_forall. intros i Hi%elem_of_seq. lia.
Qed.

(** X3: the orderings are emitted in increasing lexicographic order of
    the positions they read, so the first ordering is the input itself
    and the last is the input reversed. *)
Theorem getPermutations_emission_order {T : Type} (undefined : T) (arr : list T) :
  let n := length arr in
  V1.getPermutations undefined arr n
  = map (λ positions, map (V1.index undefined arr) positions)
        (V1.getPermutations 0 (seq 0 n) n)
  ∧ StronglySorted lex_lt (V1.getPermutations 0 (seq 0 n) n)
  ∧ head (V1.getPermutations undefined arr n) = Some arr
  ∧ last (V1.getPermutations undefined arr n) = Some (reverse arr).
Proof.
  intros n. subst n. split; [apply getPermutations_by_position |].
  split; [apply getPermutations_sorted, StronglySorted_lt_seq |].
  split; [| apply getPermutations_last].
  by destruct (getPermutations_first undefined arr) as [rest ->].
Qed.

(** ** The route returned *)

(** X4: the array revision of [travelingSalesman] always returns a
    route through the inner destinations: [reduce] without an initial
    value never meets an empty array, so it does not throw, and the
    result is [start], an ordering of the inner destinations, [end]. *)
Theorem travelingSalesman_returns_a_route {T : Type} (undefined : T) `{Number num}
    (distance : T * T → num) (inner : list T) (start end_ : T) :
  ∃ route, V1.travelingSalesman (M := Id) undefined distance inner start end_
           = Some route
           ∧ is_route_of inner start end_ route.
Proof.
  destruct (V1_travelingSalesman_returns undefined distance inner start end_)
    as (p & Hp & ->).
  eexists. split; [done |].
  apply (startAndEnd_is_route_of inner start end_ p).
  by apply (getPermutations_Permutation undefined inner (length inner)).
Qed.

(** ** The two revisions of the pipeline *)
Section Revisions.
Context {T : Type} (undefined : T) `{Number num}.
Implicit Types (inner p route : list T).

Lemma revisions_agree_Id (d : T * T → num) inner (start end_ : T) :
  V1.travelingSalesman (M := Id) undefined d inner start end_
  = Some (V2.travelingSalesman (M := Id) undefined d inner start end_).
Proof.
  rewrite V1_travelingSalesman_Id, travelingSalesman_Id, permutations_getPermutations.
  unfold V2.generateRoutes. rewrite map_map.
  assert (∀ perms : list (list T),
    map (λ p, (route_sum undefined d (start :: p ++ [end_]), start :: p ++ [end_])) perms
    = map (λ p, scored d (V2.startAndEnd start end_ p)) perms) as ->.
  { intros perms. apply map_ext. intros p. unfold scored, route_score.
    by rewrite (total_distance_route_sum undefined). }
  destruct (permutations_nonempty undefined inner) as (p1 & rest & Hperms).
  rewrite permutations_getPermutations in Hperms. rewrite Hperms.
  cbn [map]. by rewrite toMin_cons.
Qed.

Context {E : Type}.
Variable dist : T * T → E + num.

Lemma Eff_bind_assoc {Q A B C} (m : Eff Q E A) (f : A → Eff Q E B) (g : B → Eff Q E C) :
  (m ≫= f) ≫= g = m ≫= (λ a, f a ≫= g).
Proof.
  destruct m as [log [err | a]]; unfold mbind, Eff_bind; cbn; [done |].
  destruct (f a) as [log' [err | b]]; cbn; [done |].
  destruct (g b) as [log'' [err | c]]; cbn; by rewrite app_assoc.
Qed.

Lemma Eff_ret_bind {Q A B} (a : A) (f : A → Eff Q E B) : mret a ≫= f = f a.
Proof. unfold mbind, Eff_bind, mret, Eff_ret. cbn. by destruct (f a) as [log [err | b]]. Qed.

Lemma Eff_bind_ext {Q A B} (m : Eff Q E A) (f g : A → Eff Q E B) :
  (∀ a, m.2 = inr a → f a = g a) → m ≫= f = m ≫= g.
Proof.
  destruct m as [log [err | a]]; unfold mbind, Eff_bind; cbn; [done |].
  intros Hfg. by rewrite (Hfg a).
Qed.

(** Summing the pushed distances afterwards, or adding each as it is
    computed: the same queries, the same outcome. *)
Lemma sum_after_or_along {X} (qs : list (T * T)) (acc : num) (k : num → X) :
  (distances ← mapM (call dist) qs; mret (k (foldl add acc distances)))
  = (distance ← for_of qs (λ distance '(a, b), d ← call dist (a, b);
                                               mret (add distance d)) acc;
     mret (M := Eff (T * T) E) (k distance)).
Proof.
  revert acc. induction qs as [| [a b] qs IH]; intros acc.
  { cbn [mapM for_of]. by rewrite !Eff_ret_bind. }
  cbn [for_of].
  change (mapM (call dist) ((a, b) :: qs))
    with (y ← call dist (a, b); ys ← mapM (call dist) qs; mret (y :: ys)).
  rewrite !Eff_bind_assoc. apply Eff_bind_ext. intros d _.
  rewrite Eff_ret_bind, Eff_bind_assoc. rewrite <- IH.
  apply Eff_bind_ext. intros ds _. by rewrite Eff_ret_bind.
Qed.

Lemma mapM_fmap {A B C} (h : A → B) (g : B → Eff (T * T) E C) (l : list A) :
  mapM (λ x, g (h x)) l = mapM g (map h l).
Proof.
  induction l as [| x l IH]; [done |].
  change (mapM (λ x, g (h x)) (x :: l))
    with (y ← g (h x); ys ← mapM (λ x, g (h x)) l; mret (y :: ys)).
  by rewrite IH.
Qed.

Lemma routeDistance_total_distance route :
  V1.routeDistance (M := Eff (T * T) E) undefined (call dist) route
  = (distance ← V2.total_distance (M := Eff (T * T) E) (call dist) route;
     mret (distance, route)).
Proof.
  unfold V1.routeDistance, V2.total_distance.
  rewrite (mapM_fmap (λ i, (V1.index undefined route i, V1.index undefined route (i + 1)))
             (call dist)).
  rewrite (pairwise_by_index undefined).
  apply (sum_after_or_along _ _ (λ distance, (distance, route))).
Qed.

Lemma mapM_ext_Eff {A B} (f g : A → Eff (T * T) E B) (l : list A) :
  (∀ x, f x = g x) → mapM f l = mapM g l.
Proof.
  intros Hfg. induction l as [| x l IH]; [done |].
  change (mapM f (x :: l)) with (y ← f x; ys ← mapM f l; mret (y :: ys)).
  change (mapM g (x :: l)) with (y ← g x; ys ← mapM g l; mret (y :: ys)).
  by rewrite Hfg, IH.
Qed.

Lemma mapM_returns_length {A B} (f : A → Eff (T * T) E B) (l : list A) (ys : list B) :
  (mapM f l).2 = inr ys → length ys = length l.
Proof.
  revert ys. induction l as [| x l IH]; intros ys.
  { by intros [= <-]. }
  change (mapM f (x :: l)) with (y ← f x; ys ← mapM f l; mret (y :: ys)).
  unfold mbind, Eff_bind, mret, Eff_ret.
  destruct (f x) as [log [err | y]]; cbn; [done |].
  destruct (mapM f l) as [log' [err | ys']]; cbn; [done |].
  intros [= <-]. cbn. f_equal. by apply IH.
Qed.

Lemma revisions_agree_Eff inner (start end_ : T) :
  V1.travelingSalesman (M := Eff (T * T) E) undefined (call dist) inner start end_
  = (route ← V2.travelingSalesman (M := Eff (T * T) E) undefined (call dist)
               inner start end_;
     mret (Some route)).
Proof.
  unfold V1.travelingSalesman, V2.travelingSalesman, V2.calculateDistances.
  rewrite Eff_bind_assoc, permutations_getPermutations.
  rewrite (mapM_ext_Eff _ _ _ routeDistance_total_distance).
  apply Eff_bind_ext. intros distances Hlen%mapM_returns_length.
  rewrite Eff_ret_bind. f_equal. f_equal.
  destruct distances as [| c rest].
  { unfold V2.generateRoutes in Hlen. rewrite length_map in Hlen. cbn in Hlen.
    pose proof (getPermutations_length undefined inner (length inner) eq_refl) as Hfact.
    pose proof (lt_O_fact (length inner)). lia. }
  by rewrite toMin_cons.
Qed.
End Revisions.

(** X5: the two revisions of [travelingSalesman] do the same (the
    iterator revision run on the imported helpers [permutations],
    [single.pairwise] and [reduce.toMin]): with a pure distance function
    the array revision returns the route the iterator revision returns,
    and with a distance function that may throw they make the same calls
    in the same order and end in the same route or the same error. *)
Theorem revisions_return_the_same_route {T E : Type} (undefined : T) `{Number num}
    (distance : T * T → num) (dist : T * T → E + num) (inner : list T) (start end_ : T) :
  V1.travelingSalesman (M := Id) undefined distance inner start end_
  = Some (V2.travelingSalesman (M := Id) undefined distance inner start end_)
  ∧ V1.travelingSalesman (M := Eff (T * T) E) undefined (call dist) inner start end_
    = (route ← V2.travelingSalesman (M := Eff (T * T) E) undefined (call dist)
                 inner start end_;
       mret (Some route)).
Proof. split; [apply revisions_agree_Id | apply revisions_agree_Eff]. Qed.

(** ** The loop of the hand-rolled optimizer *)
Section HandRolledOver.
Context {T : Type} (undefined : T) `{Number num}.
Variable dist : T * T → num.
Implicit Types (perms : list (list T)).

Lemma handRolledOver_Id perms (start end_ : T) :
  handRolledOver (M := Id) undefined dist perms start end_
  = start :: (foldl (handRolledStep undefined dist start end_) (infinity, []) perms).2
             ++ [end_].
Proof.
  unfold handRolledOver. rewrite for_of_Id.
  rewrite (foldl_ext_eq _ (handRolledStep undefined dist start end_)); [done |].
  by intros [minDistance minRoute] route.
Qed.
End HandRolledOver.

(** X6: whatever the generator yields, the loop of the hand-rolled
    optimizer returns [start], one of the yielded permutations, [end]
    when some yielded permutation has an accumulated distance below
    [Infinity], and [[start, end]] when none has (every distance
    [Infinity] or [NaN], for instance, or nothing yielded);
    [handRolledTravelingSalesman] is this loop on what
    [permutations(destinations, destinations.length)] yields. *)
Theorem handRolled_route_or_start_end {T : Type} (undefined : T) `{Number num}
    (distance : T * T → num) (permutationsIter : list (list T))
    (destinations : list T) (start end_ : T) :
  (Exists (λ p, ltb (hand_score undefined distance start end_ p) infinity = true)
          permutationsIter →
   ∃ p, p ∈ permutationsIter
        ∧ handRolledOver (M := Id) undefined distance permutationsIter start end_
          = start :: p ++ [end_])
  ∧ (Forall (λ p, ltb (hand_score undefined distance start end_ p) infinity = false)
            permutationsIter →
     handRolledOver (M := Id) undefined distance permutationsIter start end_
     = [start; end_])
  ∧ V2.handRolledTravelingSalesman (M := Id) undefined distance destinations start end_
    = handRolledOver (M := Id) undefined distance
        (V2.permutations undefined destinations (length destinations)) start end_.
Proof.
  split; [| split; [| reflexivity]].
  - intros Hex. eexists. split; [| apply handRolledOver_Id].
    by apply handRolled_scan_candidate.
  - intros Hall. by rewrite handRolledOver_Id, handRolled_scan_sentinel.
Qed.

(** ** Shortest routes *)

(** ** Binary64 comparison *)
Section FloatOrder.
Implicit Types (x y z : spec_float).

Lemma SFltb_irreflexive x : SFltb x x = false.
Proof.
  unfold SFltb, SFcompare. destruct x as [[] | [] | | [] m e]; try reflexivity; float_cases.
Qed.

Lemma SFltb_transitive x y z : SFltb x y = true → SFltb y z = true → SFltb x z = true.
Proof.
  unfold SFltb, SFcompare.
  destruct x as [[] | [] | | [] m1 e1], y as [[] | [] | | [] m2 e2],
    z as [[] | [] | | [] m3 e3]; try discriminate; try reflexivity; intros H1 H2; float_cases.
Qed.

Lemma SFgeb_transitive x y z :
  y ≠ S754_nan → SFltb x y = false → SFltb y z = false → SFltb x z = false.
Proof.
  unfold SFltb, SFcompare.
  destruct x as [[] | [] | | [] m1 e1], y as [[] | [] | | [] m2 e2],
    z as [[] | [] | | [] m3 e3]; try discriminate; try reflexivity; try congruence;
    intros Hy H1 H2; float_cases.
Qed.

Lemma SFleb_of_not_ltb x y :
  x ≠ S754_nan → y ≠ S754_nan → SFltb x y = false → SFleb y x = true.
Proof.
  unfold SFltb, SFleb, SFcompare.
  destruct x as [[] | [] | | [] m1 e1], y as [[] | [] | | [] m2 e2];
    try discriminate; try reflexivity; try congruence; intros Hx Hy H1; float_cases.
Qed.
End FloatOrder.

Lemma not_nan_Prim2SF (x : float) : is_nan x = false → Prim2SF x ≠ S754_nan.
Proof.
  unfold is_nan. rewrite FloatAxioms.eqb_spec. intros Hx Hnan. rewrite Hnan in Hx. discriminate Hx.
Qed.

Lemma float_ltb_irreflexive (x : float) : ltb x x = false.
Proof. cbn. rewrite FloatAxioms.ltb_spec. apply SFltb_irreflexive. Qed.

Lemma float_ltb_transitive (x y z : float) :
  ltb x y = true → ltb y z = true → ltb x z = true.
Proof. cbn. rewrite !FloatAxioms.ltb_spec. apply SFltb_transitive. Qed.

Lemma float_geb_transitive (x y z : float) :
  is_nan y = false → ltb x y = false → ltb y z = false → ltb x z = false.
Proof.
  intros Hy%not_nan_Prim2SF. cbn. rewrite !FloatAxioms.ltb_spec. by apply SFgeb_transitive.
Qed.

Lemma float_leb_of_not_ltb (x y : float) :
  is_nan x = false → is_nan y = false → ltb x y = false → PrimFloat.leb y x = true.
Proof.
  intros Hx%not_nan_Prim2SF Hy%not_nan_Prim2SF. cbn. rewrite FloatAxioms.ltb_spec, FloatAxioms.leb_spec.
  by apply SFleb_of_not_ltb.
Qed.

(** ** Minimum selection over keys that are ordered *)
Section OrderedScan.
Context `{Number num} {X : Type} (key : X → num) (ordered : num → Prop).
Hypothesis ltb_irreflexive : ∀ x : num, ltb x x = false.
Hypothesis ltb_transitive :
  ∀ x y z : num, ltb x y = true → ltb y z = true → ltb x z = true.
Hypothesis geb_transitive :
  ∀ x y z : num, ordered y → ltb x y = false → ltb y z = false → ltb x z = false.

Lemma ordered_scan_step (seen : list X) (best datum : X) :
  Forall (λ x, ordered (key x)) seen →
  first_minimum key seen best →
  first_minimum key (seen ++ [datum]) (keep_min key best datum).
Proof.
  intros Hseen (i & Hi & Hbefore & Hmin). rewrite Forall_forall in Hseen.
  unfold keep_min. destruct (ltb (key datum) (key best)) eqn:Hlt.
  - exists (length seen). split; [| split].
    + by rewrite lookup_app_r, Nat.sub_diag.
    + intros j x Hj Hx. rewrite lookup_app_l in Hx by done.
      apply list_elem_of_lookup_2 in Hx.
      destruct (ltb (key datum) (key x)) eqn:Hdx; [done |].
      rewrite (geb_transitive _ (key x) _ (Hseen x Hx) Hdx) in Hlt; [done |].
      by apply Hmin.
    + intros x [Hx | ->%list_elem_of_singleton]%elem_of_app; [| done].
      destruct (ltb (key x) (key datum)) eqn:Hxd; [| done].
      rewrite <- (Hmin x Hx). symmetry. by eapply ltb_transitive.
  - exists i. split; [| split].
    + by apply lookup_app_l_Some.
    + intros j x Hj Hx. apply (Hbefore j); [done |].
      rewrite lookup_app_l in Hx; [done |].
      apply lookup_lt_Some in Hi. lia.
    + intros x [Hx | ->%list_elem_of_singleton]%elem_of_app; [by apply Hmin | done].
Qed.

Lemma ordered_scan (seen rest : list X) (best : X) :
  Forall (λ x, ordered (key x)) (seen ++ rest) →
  first_minimum key seen best →
  first_minimum key (seen ++ rest) (foldl (keep_min key) best rest).
Proof.
  revert seen best. induction rest as [| datum rest IH]; intros seen best Hall Hbest.
  - by rewrite app_nil_r.
  - cbn [foldl]. rewrite (cons_middle datum seen rest), app_assoc in Hall |- *.
    apply IH; [done |]. apply ordered_scan_step; [| done].
    apply Forall_app in Hall as [Hall _]. by apply Forall_app in Hall as [Hall _].
Qed.

Lemma ordered_first_minimum (x : X) (rest : list X) :
  Forall (λ x, ordered (key x)) (x :: rest) →
  first_minimum key (x :: rest) (foldl (keep_min key) x rest).
Proof.
  intros Hall. apply (ordered_scan [x]); [done |].
  exists 0. split; [done |]. split; [intros j y Hj; lia |].
  by intros y ->%list_elem_of_singleton.
Qed.
End OrderedScan.

Lemma first_minimum_elem `{Number num} {X : Type} (key : X → num) (data : list X) (r : X) :
  first_minimum key data r → r ∈ data.
Proof. intros (i & Hi & _). by eapply list_elem_of_lookup_2. Qed.

Lemma first_minimum_least `{Number num} {X : Type} (key : X → num) (data : list X) (r x : X) :
  first_minimum key data r → x ∈ data → ltb (key x) (key r) = false.
Proof. intros (i & _ & _ & Hmin). apply Hmin. Qed.

Section ShortestRoute.
Context {T : Type} (undefined : T).
Variable distance : T * T → float.
Implicit Types (inner p q : list T).

Lemma float_first_minimum {X : Type} (key : X → float) (x : X) (rest : list X) :
  Forall (λ x, is_nan (key x) = false) (x :: rest) →
  first_minimum key (x :: rest) (foldl (keep_min key) x rest).
Proof.
  apply (ordered_first_minimum key (λ x, is_nan x = false)).
  - apply float_ltb_irreflexive.
  - apply float_ltb_transitive.
  - apply float_geb_transitive.
Qed.

Lemma V1_shortest inner (start end_ : T) :
  (∀ p, p ≡ₚ inner →
        is_nan (route_sum undefined distance (start :: p ++ [end_])) = false) →
  ∃ p, p ≡ₚ inner
       ∧ V1.travelingSalesman (M := Id) undefined distance inner start end_
         = Some (start :: p ++ [end_])
       ∧ first_minimum fst
           (map (λ p, (route_sum undefined distance (start :: p ++ [end_]),
                       start :: p ++ [end_]))
                (V1.getPermutations undefined inner (length inner)))
           (route_sum undefined distance (start :: p ++ [end_]), start :: p ++ [end_])
       ∧ ∀ q, q ≡ₚ inner →
              PrimFloat.leb (route_sum undefined distance (start :: p ++ [end_]))
                            (route_sum undefined distance (start :: q ++ [end_])) = true.
Proof.
  intros Hnan. rewrite V1_travelingSalesman_Id.
  set (cand := λ p, (route_sum undefined distance (start :: p ++ [end_]),
                     start :: p ++ [end_])).
  assert (Forall (λ c, is_nan c.1 = false)
            (map cand (V1.getPermutations undefined inner (length inner)))) as Hall.
  { apply Forall_fmap, Forall_forall. intros p Hp. apply Hnan.
    by eapply getPermutations_Permutation. }
  destruct (permutations_nonempty undefined inner) as (p1 & rest & Hperms).
  rewrite permutations_getPermutations in Hperms.
  assert (∀ q, q ≡ₚ inner → cand q ∈ map cand (V1.getPermutations undefined inner (length inner)))
    as Hcomplete.
  { intros q Hq. apply list_elem_of_fmap_2. by apply getPermutations_complete. }
  rewrite Hperms in Hall, Hcomplete |- *. cbn [map V1.reduce] in *.
  pose proof (float_first_minimum fst _ _ Hall) as Hmin.
  change (λ min curr : float * list T, if ltb curr.1 min.1 then curr else min)
    with (keep_min (X := float * list T) fst).
  pose proof (first_minimum_elem _ _ _ Hmin) as Hin.
  rewrite <- (map_cons cand) in Hin. apply list_elem_of_fmap in Hin as (p & Hp & Hin).
  rewrite Hp in Hmin |- *.
  assert (p ≡ₚ inner) as Hperm.
  { apply (getPermutations_Permutation undefined inner (length inner)); [done |].
    by rewrite Hperms. }
  exists p. split; [done |]. split; [done |]. split; [done |].
  intros q Hq. apply float_leb_of_not_ltb; [by apply Hnan | by apply Hnan |].
  apply (first_minimum_least fst _ _ (cand q) Hmin), Hcomplete, Hq.
Qed.

(** The loop of the hand-rolled optimizer, on whatever is yielded. *)
Lemma handRolledOver_shortest (perms : list (list T)) (start end_ : T) :
  Forall (λ p, is_nan (hand_score undefined distance start end_ p) = false) perms →
  Exists (λ p, ltb (hand_score undefined distance start end_ p) infinity = true) perms →
  ∃ p, p ∈ perms
       ∧ handRolledOver (M := Id) undefined distance perms start end_
         = start :: p ++ [end_]
       ∧ first_minimum fst
           (map (λ p, (hand_score undefined distance start end_ p, p)) perms)
           (hand_score undefined distance start end_ p, p)
       ∧ ∀ q, q ∈ perms →
              PrimFloat.leb (hand_score undefined distance start end_ p)
                            (hand_score undefined distance start end_ q) = true.
Proof.
  intros Hnan Hfinite. rewrite Forall_forall in Hnan.
  rewrite handRolledOver_Id, handRolled_scan_keep_min.
  set (cand := λ p, (hand_score undefined distance start end_ p, p)).
  assert (Forall (λ c, is_nan c.1 = false) ((infinity, []) :: map cand perms)) as Hall.
  { constructor; [done |]. apply Forall_fmap, Forall_forall. intros p Hp. by apply Hnan. }
  pose proof (float_first_minimum fst _ _ Hall) as Hmin.
  apply first_minimum_after_sentinel in Hmin; [| by apply Exists_fmap].
  pose proof (first_minimum_elem _ _ _ Hmin) as Hin.
  apply list_elem_of_fmap in Hin as (p & Hp & Hin).
  rewrite Hp in Hmin |- *.
  exists p. split; [done |]. split; [done |]. split; [done |].
  intros q Hq. apply float_leb_of_not_ltb; [by apply Hnan | by apply Hnan |].
  apply (first_minimum_least fst _ _ (cand q) Hmin). by apply list_elem_of_fmap_2.
Qed.
End ShortestRoute.

(** X7: on binary64 numbers, when no candidate route has the total
    distance [NaN], the array revision of [travelingSalesman] returns
    a shortest route: the result is [start], an ordering [p] of the
    inner destinations, [end]; it is the first-encountered minimum of
    the scored candidates; and its total distance is [<=] the total
    distance of the route through any ordering of the inner
    destinations. *)
Theorem travelingSalesman_returns_a_shortest_route {T : Type} (undefined : T)
    (distance : T * T → float) (inner : list T) (start end_ : T) :
  (∀ p, p ≡ₚ inner →
        is_nan (route_sum undefined distance (start :: p ++ [end_])) = false) →
  ∃ p, p ≡ₚ inner
       ∧ V1.travelingSalesman (M := Id) undefined distance inner start end_
         = Some (start :: p ++ [end_])
       ∧ first_minimum fst
           (map (λ p, (route_sum undefined distance (start :: p ++ [end_]),
                       start :: p ++ [end_]))
                (V1.getPermutations undefined inner (length inner)))
           (route_sum undefined distance (start :: p ++ [end_]), start :: p ++ [end_])
       ∧ ∀ q, q ≡ₚ inner →
              PrimFloat.leb (route_sum undefined distance (start :: p ++ [end_]))
                            (route_sum undefined distance (start :: q ++ [end_])) = true.
Proof. apply V1_shortest. Qed.

Lemma travelingSalesman_shortest_between_0_and_3 :
  ∃ p, p ≡ₚ [Num 1; Num 2]
       ∧ V1.travelingSalesman (M := Id) Undefined abs_difference
           [Num 1; Num 2] (Num 0) (Num 3)
         = Some (Num 0 :: p ++ [Num 3])
       ∧ first_minimum fst
           (map (λ p, (route_sum Undefined abs_difference (Num 0 :: p ++ [Num 3]),
                       Num 0 :: p ++ [Num 3]))
                (V1.getPermutations Undefined [Num 1; Num 2] (length [Num 1; Num 2])))
           (route_sum Undefined abs_difference (Num 0 :: p ++ [Num 3]),
            Num 0 :: p ++ [Num 3])
       ∧ ∀ q, q ≡ₚ [Num 1; Num 2] →
              PrimFloat.leb (route_sum Undefined abs_difference (Num 0 :: p ++ [Num 3]))
                            (route_sum Undefined abs_difference (Num 0 :: q ++ [Num 3]))
              = true.
Proof.
  apply (travelingSalesman_returns_a_shortest_route Undefined abs_difference
           [Num 1; Num 2] (Num 0) (Num 3)).
  intros p Hp. apply (getPermutations_complete Undefined [Num 1; Num 2] 2 p eq_refl) in Hp.
  vm_compute in Hp.
  repeat (apply elem_of_cons in Hp as [-> | Hp]; [vm_compute; reflexivity |]).
  by apply elem_of_nil in Hp.
Defined.

(** X8: on binary64 numbers, whatever the generator yields, when no
    yielded permutation has the accumulated distance [NaN] and some
    yielded permutation has one below [Infinity], the loop of the
    hand-rolled optimizer returns [start], [p], [end] for the yielded
    permutation [p] that is the first-encountered minimum under the
    distance the loop accumulates; that distance is [<=] the
    accumulated distance of every yielded permutation. *)
Theorem handRolled_returns_a_shortest_route {T : Type} (undefined : T)
    (distance : T * T → float) (permutationsIter : list (list T)) (start end_ : T) :
  Forall (λ p, is_nan (hand_score undefined distance start end_ p) = false)
         permutationsIter →
  Exists (λ p, PrimFloat.ltb (hand_score undefined distance start end_ p)
                             PrimFloat.infinity = true)
         permutationsIter →
  ∃ p, p ∈ permutationsIter
       ∧ handRolledOver (M := Id) undefined distance permutationsIter start end_
         = start :: p ++ [end_]
       ∧ first_minimum fst
           (map (λ p, (hand_score undefined distance start end_ p, p)) permutationsIter)
           (hand_score undefined distance start end_ p, p)
       ∧ ∀ q, q ∈ permutationsIter →
              PrimFloat.leb (hand_score undefined distance start end_ p)
                            (hand_score undefined distance start end_ q) = true.
Proof. apply handRolledOver_shortest. Qed.

Lemma handRolled_shortest_between_0_and_3 :
  ∃ p, p ∈ [[Num 1; Num 2]; [Num 2; Num 1]]
       ∧ handRolledOver (M := Id) Undefined abs_difference
           [[Num 1; Num 2]; [Num 2; Num 1]] (Num 0) (Num 3)
         = Num 0 :: p ++ [Num 3]
       ∧ first_minimum fst
           (map (λ p, (hand_score Undefined abs_difference (Num 0) (Num 3) p, p))
                [[Num 1; Num 2]; [Num 2; Num 1]])
           (hand_score Undefined abs_difference (Num 0) (Num 3) p, p)
       ∧ ∀ q, q ∈ [[Num 1; Num 2]; [Num 2; Num 1]] →
              PrimFloat.leb (hand_score Undefined abs_difference (Num 0) (Num 3) p)
                            (hand_score Undefined abs_difference (Num 0) (Num 3) q)
              = true.
Proof.
  apply (handRolled_returns_a_shortest_route Undefined abs_difference
           [[Num 1; Num 2]; [Num 2; Num 1]] (Num 0) (Num 3)).
  - repeat constructor.
  - constructor. vm_compute. reflexivity.
Defined.

(** ** Ties among the shortest routes *)
Section TiesByPosition.
Context `{Number num} {X : Type} (key : X → num) (R : relation X).

(** In a sorted scan, a candidate that the first minimum does not beat
    is the first minimum itself or comes after it. *)
Lemma first_minimum_sorted {Y} (S : relation Y) (g : Y → X) (data : list Y) (r : X) :
  StronglySorted S data →
  first_minimum key (map g data) r →
  ∃ y, y ∈ data ∧ r = g y
       ∧ ∀ y', y' ∈ data → ltb (key r) (key (g y')) = false → y' = y ∨ S y y'.
Proof.
  intros Hsorted (i & Hi & Hbefore & _).
  rewrite list_lookup_fmap in Hi.
  destruct (data !! i) as [y |] eqn:Hy; [| done]. injection Hi as <-.
  exists y. split; [by eapply list_elem_of_lookup_2 |]. split; [done |].
  intros y' (j & Hj)%list_elem_of_lookup_1 Htie.
  destruct (Nat.lt_total j i) as [Hlt | [-> | Hgt]].
  - rewrite (Hbefore j (g y') Hlt) in Htie; [done |].
    by rewrite list_lookup_fmap, Hj.
  - left. congruence.
  - right. exact (StronglySorted_lookup S data i j y y' Hsorted Hgt Hy Hj).
Qed.
End TiesByPosition.

Lemma SFltb_of_leb (x y : spec_float) : SFleb x y = true → SFltb y x = false.
Proof.
  unfold SFltb, SFleb, SFcompare.
  destruct x as [[] | [] | | [] m1 e1], y as [[] | [] | | [] m2 e2];
    try discriminate; try reflexivity; intros H1; float_cases.
Qed.

Lemma float_ltb_of_leb (x y : float) : PrimFloat.leb x y = true → ltb y x = false.
Proof. cbn. rewrite FloatAxioms.ltb_spec, FloatAxioms.leb_spec. apply SFltb_of_leb. Qed.

Section LeastPositions.
Context {T : Type} (undefined : T).
Variable distance : T * T → float.
Implicit Types (inner : list T) (positions : list nat).

Lemma V1_least_positions inner (start end_ : T) :
  (∀ p, p ≡ₚ inner →
        is_nan (route_sum undefined distance (start :: p ++ [end_])) = false) →
  ∃ positions,
    positions ≡ₚ seq 0 (length inner)
    ∧ V1.travelingSalesman (M := Id) undefined distance inner start end_
      = Some (start :: map (V1.index undefined inner) positions ++ [end_])
    ∧ ∀ positions',
        positions' ≡ₚ seq 0 (length inner) →
        PrimFloat.leb
          (route_sum undefined distance
             (start :: map (V1.index undefined inner) positions' ++ [end_]))
          (route_sum undefined distance
             (start :: map (V1.index undefined inner) positions ++ [end_])) = true →
        positions' = positions ∨ lex_lt positions positions'.
Proof.
  intros Hnan.
  destruct (V1_shortest undefined distance inner start end_ Hnan)
    as (p & Hp & Hresult & Hfirst & _).
  rewrite getPermutations_by_position, map_map in Hfirst.
  apply (first_minimum_sorted fst lex_lt) in Hfirst
    as (positions & Hin & Heq & Hties);
    [| apply getPermutations_sorted, StronglySorted_lt_seq].
  injection Heq as _ Heq%app_inv_tail. subst p.
  exists positions. split; [| split; [done |]].
  { apply (getPermutations_Permutation 0 (seq 0 (length inner)) (length inner));
      [by rewrite length_seq | done]. }
  intros positions' Hp' Hleb. apply Hties.
  - apply getPermutations_complete; [by rewrite length_seq | done].
  - cbn [fst]. by apply float_ltb_of_leb.
Qed.
End LeastPositions.

(** X9: among the shortest routes the array revision of
    [travelingSalesman] returns the one that reads the inner
    destinations in the lexicographically smallest order of positions:
    on binary64 numbers, when no candidate route has the total distance
    [NaN], the result is [start], the inner destinations at
    [positions], [end], and every ordering [positions'] whose route is
    at most as long is [positions] itself or comes after it in
    lexicographic order. *)
Theorem travelingSalesman_breaks_ties_by_position {T : Type} (undefined : T)
    (distance : T * T → float) (inner : list T) (start end_ : T) :
  (∀ p, p ≡ₚ inner →
        is_nan (route_sum undefined distance (start :: p ++ [end_])) = false) →
  ∃ positions,
    positions ≡ₚ seq 0 (length inner)
    ∧ V1.travelingSalesman (M := Id) undefined distance inner start end_
      = Some (start :: map (V1.index undefined inner) positions ++ [end_])
    ∧ ∀ positions',
        positions' ≡ₚ seq 0 (length inner) →
        PrimFloat.leb
          (route_sum undefined distance
             (start :: map (V1.index undefined inner) positions' ++ [end_]))
          (route_sum undefined distance
             (start :: map (V1.index undefined inner) positions ++ [end_])) = true →
        positions' = positions ∨ lex_lt positions positions'.
Proof. apply V1_least_positions. Qed.

(** A tie: between [0] and [0] the routes through [1, 2] and through
    [2, 1] both have the total distance [4].  The positions [1, 0] would
    have [0, 1] before them with a route at most as long, so the
    positions returned are [0, 1] and the route is [0, 1, 2, 0]. *)
Lemma travelingSalesman_tie_between_0_and_0 :
  route_sum Undefined abs_difference [Num 0; Num 1; Num 2; Num 0] = 4%float
  ∧ route_sum Undefined abs_difference [Num 0; Num 2; Num 1; Num 0] = 4%float
  ∧ V1.travelingSalesman (M := Id) Undefined abs_difference
      [Num 1; Num 2] (Num 0) (Num 0)
    = Some [Num 0; Num 1; Num 2; Num 0].
Proof.
  split; [vm_compute; reflexivity |]. split; [vm_compute; reflexivity |].
  destruct (travelingSalesman_breaks_ties_by_position Undefined abs_difference
              [Num 1; Num 2] (Num 0) (Num 0))
    as (positions & Hpositions & Hresult & Hties).
  { intros p Hp.
    apply (getPermutations_complete Undefined [Num 1; Num 2] 2 p eq_refl) in Hp.
    vm_compute in Hp.
    repeat (apply elem_of_cons in Hp as [-> | Hp]; [vm_compute; reflexivity |]).
    by apply elem_of_nil in Hp. }
  rewrite Hresult. symmetry in Hpositions.
  apply Permutation_length_2_inv in Hpositions as [-> | ->]; [reflexivity |].
  destruct (Hties [0; 1]) as [Heq | Hlt].
  - reflexivity.
  - vm_compute. reflexivity.
  - discriminate Heq.
  - cbn in Hlt. lia.
Defined.

(** ** An input order that no ordering beats *)
Section Unbeaten.
Context {T : Type} (undefined : T) `{Number num}.
Variable distance : T * T → num.
Implicit Types (inner p : list T).

Lemma foldl_keep_min_unbeaten {X} (key : X → num) (b : X) (rest : list X) :
  (∀ x, x ∈ rest → ltb (key x) (key b) = false) → foldl (keep_min key) b rest = b.
Proof.
  induction rest as [| x rest IH]; intros Hrest; [done |].
  cbn [foldl]. unfold keep_min at 2. rewrite Hrest by (by left).
  apply IH. intros y Hy. apply Hrest. by right.
Qed.

Lemma V1_unbeaten inner (start end_ : T) :
  (∀ p, p ≡ₚ inner →
        ltb (route_sum undefined distance (start :: p ++ [end_]))
            (route_sum undefined distance (start :: inner ++ [end_])) = false) →
  V1.travelingSalesman (M := Id) undefined distance inner start end_
  = Some (start :: inner ++ [end_]).
Proof.
  intros Hbest. rewrite V1_travelingSalesman_Id.
  pose proof (getPermutations_Permutation undefined inner (length inner)) as Hperm.
  destruct (getPermutations_first undefined inner) as [rest Hperms].
  rewrite Hperms in Hperm |- *. cbn [map V1.reduce].
  change (λ min curr : num * list T, if ltb curr.1 min.1 then curr else min)
    with (keep_min (X := num * list T) fst).
  rewrite foldl_keep_min_unbeaten; [done |].
  intros c (p & -> & Hp)%list_elem_of_fmap. cbn [fst]. apply Hbest, Hperm; [done |].
  by right.
Qed.
End Unbeaten.

(** X10: when no ordering of the inner destinations gives a route of
    strictly smaller total distance than the order in which they were
    passed, the array revision of [travelingSalesman] returns them in
    that order (with ties, and when the total of the given order is
    [NaN]). *)
Theorem travelingSalesman_keeps_unbeaten_input_order {T : Type} (undefined : T)
    `{Number num} (distance : T * T → num) (inner : list T) (start end_ : T) :
  (∀ p, p ≡ₚ inner →
        ltb (route_sum undefined distance (start :: p ++ [end_]))
            (route_sum undefined distance (start :: inner ++ [end_])) = false) →
  V1.travelingSalesman (M := Id) undefined distance inner start end_
  = Some (start :: inner ++ [end_]).
Proof. apply V1_unbeaten. Qed.

Lemma travelingSalesman_keeps_1_2_3 :
  V1.travelingSalesman (M := Id) Undefined abs_difference
    [Num 1; Num 2; Num 3] (Num 0) (Num 4)
  = Some (Num 0 :: [Num 1; Num 2; Num 3] ++ [Num 4]).
Proof.
  apply (travelingSalesman_keeps_unbeaten_input_order Undefined abs_difference
           [Num 1; Num 2; Num 3] (Num 0) (Num 4)).
  intros p Hp.
  apply (getPermutations_complete Undefined [Num 1; Num 2; Num 3] 3 p eq_refl) in Hp.
  vm_compute in Hp.
  repeat (apply elem_of_cons in Hp as [-> | Hp]; [vm_compute; reflexivity |]).
  by apply elem_of_nil in Hp.
Defined.

(** ** Where the two optimizers return the same route

    On binary64 numbers the conditions under which the optimizers were
    shown to agree are also necessary, given that they score the
    candidates alike. *)

(** A number is below [Infinity], is [Infinity], or is [NaN]. *)
Lemma float_below_infinity (x : float) :
  ltb x infinity = true ∨ x = PrimFloat.infinity ∨ is_nan x = true.
Proof.
  cbn. unfold is_nan. rewrite FloatAxioms.ltb_spec, FloatAxioms.eqb_spec.
  destruct (Prim2SF x) as [[] | [] | | [] m e] eqn:Hx; try (by left); try (by do 2 right).
  right. left. by apply FloatAxioms.Prim2SF_inj.
Qed.

(** [NaN] is below nothing and nothing is below [NaN]. *)
Lemma float_ltb_nan (x y : float) :
  is_nan x = true ∨ is_nan y = true → ltb x y = false.
Proof.
  cbn. unfold is_nan. rewrite FloatAxioms.ltb_spec, !FloatAxioms.eqb_spec.
  unfold SFltb, SFeqb, SFcompare.
  destruct (Prim2SF x) as [[] | [] | | [] m1 e1], (Prim2SF y) as [[] | [] | | [] m2 e2];
    try reflexivity; intros [Hnan | Hnan]; float_cases;
    rewrite ?Pos.compare_refl, ?Z.compare_refl in Hnan; try discriminate.
Qed.

Section AgreementConversely.
Context {T : Type} (undefined : T).
Variable distance : T * T → float.
Implicit Types (inner p : list T).

(** What the hand-rolled loop carries is its initial pair or a
    permutation with its score, which is below [Infinity]. *)
Lemma handRolled_scan_below (start end_ : T) (perms : list (list T)) best :
  best = (infinity, [])
  ∨ (ltb best.1 infinity = true
     ∧ best.1 = hand_score undefined distance start end_ best.2) →
  foldl (handRolledStep undefined distance start end_) best perms = (infinity, [])
  ∨ (ltb (hand_score undefined distance start end_
            (foldl (handRolledStep undefined distance start end_) best perms).2)
         infinity = true).
Proof.
  revert best. induction perms as [| p perms IH]; intros best Hbest; cbn [foldl].
  { destruct Hbest as [-> | [Hlt Heq]]; [by left | right; by rewrite <- Heq]. }
  apply IH. unfold handRolledStep. cbv zeta.
  destruct (ltb (hand_score undefined distance start end_ p) best.1) eqn:Hlt; [| done].
  right. split; [| done]. cbn [fst].
  destruct Hbest as [-> | [Hbelow _]]; [done |].
  by apply (float_ltb_transitive _ best.1).
Qed.

Lemma optimizers_agree_only_there inner (start end_ : T) :
  inner ≠ [] →
  (∀ p, p ∈ V2.permutations undefined inner (length inner) →
        hand_score undefined distance start end_ p
        = route_score distance (V2.startAndEnd start end_ p)) →
  V2.handRolledTravelingSalesman (M := Id) undefined distance inner start end_
  = V2.travelingSalesman (M := Id) undefined distance inner start end_ →
  (ltb (route_score distance (V2.startAndEnd start end_ inner)) infinity = true
   ∨ route_score distance (V2.startAndEnd start end_ inner) = infinity)
  ∧ ∃ p, p ∈ V2.permutations undefined inner (length inner)
         ∧ ltb (route_score distance (V2.startAndEnd start end_ p)) infinity = true.
Proof.
  intros Hinner Hscores Hsame.
  assert (length (V2.travelingSalesman (M := Id) undefined distance inner start end_)
          ≠ 2) as Hlong.
  { destruct (travelingSalesman_is_route_of undefined distance inner start end_)
      as [-> _]. destruct inner; [done | simpl; lia]. }
  destruct (permutations_first undefined inner) as [rest Hperms].
  split.
  - destruct (float_below_infinity
                (route_score distance (V2.startAndEnd start end_ inner)))
      as [Hlt | [Heq | Hnan]]; [by left | by right | exfalso].
    assert (V2.travelingSalesman (M := Id) undefined distance inner start end_
            = V2.startAndEnd start end_ inner) as Hkept.
    { rewrite travelingSalesman_Id, Hperms. cbn [V2.generateRoutes map].
      rewrite toMin_cons, foldl_keep_min_unbeaten; [done |].
      intros x _. apply float_ltb_nan. by right. }
    rewrite Hkept in Hsame, Hlong. rewrite handRolledTravelingSalesman_Id in Hsame.
    destruct (handRolled_scan_below start end_
                (V2.permutations undefined inner (length inner)) (infinity, []))
      as [Hnone | Hbelow]; [by left | |].
    + rewrite Hnone in Hsame. by rewrite <- Hsame in Hlong.
    + apply (inj (cons start)), (inj (λ l, l ++ [end_])) in Hsame.
      rewrite Hsame, Hscores in Hbelow by (rewrite Hperms; by left).
      rewrite float_ltb_nan in Hbelow by (by left). discriminate Hbelow.
  - destruct (decide (Exists (λ p, ltb (hand_score undefined distance start end_ p)
                                       infinity = true)
                             (V2.permutations undefined inner (length inner))))
      as [Hex | Hall].
    { apply Exists_exists in Hex as (p & Hp & Hlt). exists p. split; [done |].
      by rewrite <- Hscores. }
    exfalso. apply not_Exists_Forall in Hall; [| intros p; apply _].
    rewrite handRolled_no_candidate in Hsame.
    + by rewrite <- Hsame in Hlong.
    + eapply Forall_impl; [exact Hall |]. intros p Hp. cbn beta in Hp.
      by apply not_true_is_false.
Qed.
End AgreementConversely.

(** ** The calls of the distance function *)
Section QueryCounts.
Context {T E : Type} (undefined : T) `{Number num}.
Variable d : T * T → num.
Implicit Types (inner p route : list T).

Lemma length_consecutive route : length (consecutive undefined route) = length route - 1.
Proof. unfold consecutive. by rewrite length_map, length_seq. Qed.

Lemma run_V1_routeDistance route :
  V1.routeDistance (M := Eff (T * T) E) undefined (call (λ q, inr (d q))) route
  = (consecutive undefined route, inr (route_sum undefined d route, route)).
Proof.
  unfold V1.routeDistance.
  erewrite run_bind;
    [| apply (run_mapM (E := E) _ _
                (λ i, [(V1.index undefined route i, V1.index undefined route (i + 1))])
                (λ i, d (V1.index undefined route i, V1.index undefined route (i + 1))));
       by intros i
     | reflexivity].
  rewrite app_nil_r. f_equal.
Qed.

Lemma queries_V1_travelingSalesman inner (start end_ : T) :
  V1.travelingSalesman (M := Eff (T * T) E) undefined (call (λ q, inr (d q)))
    inner start end_
  = (flat_map (λ p, consecutive undefined (start :: p ++ [end_]))
              (V1.getPermutations undefined inner (length inner)),
     inr (V1.travelingSalesman (M := Id) undefined d inner start end_)).
Proof.
  rewrite V1_travelingSalesman_Id. unfold V1.travelingSalesman.
  erewrite run_bind;
    [| apply (run_mapM (E := E) _ _ (consecutive undefined)
                (λ route, (route_sum undefined d route, route)));
       apply run_V1_routeDistance
     | reflexivity].
  rewrite app_nil_r.
  generalize (V1.getPermutations undefined inner (length inner)) as perms.
  intros perms. f_equal.
  - induction perms as [| p perms IH]; [done |]. cbn [map flat_map]. by rewrite IH.
  - by rewrite map_map.
Qed.

Lemma count_V1_queries inner (start end_ : T) :
  length (flat_map (λ p, consecutive undefined (start :: p ++ [end_]))
            (V1.getPermutations undefined inner (length inner)))
  = fact (length inner + 1).
Proof.
  rewrite (flat_map_constant_length (c := length inner + 1)).
  - rewrite getPermutations_length by done. rewrite Nat.add_1_r. simpl. lia.
  - intros p Hp%list_elem_of_In.
    apply (getPermutations_Permutation undefined inner (length inner)) in Hp; [| done].
    rewrite length_consecutive. cbn [length].
    rewrite length_app, (Permutation_length Hp). simpl. lia.
Qed.

Lemma run_calculateDistances (routes : list (list T)) :
  V2.calculateDistances (M := Eff (T * T) E) (call (λ q, inr (d q))) routes
  = (flat_map V2.pairwise routes, inr (map (scored d) routes)).
Proof.
  unfold V2.calculateDistances. apply run_mapM. intros route.
  erewrite run_bind; [| apply run_total_distance | reflexivity].
  by rewrite app_nil_r.
Qed.

Lemma run_handRolledOver (perms : list (list T)) (start end_ : T) :
  handRolledOver (M := Eff (T * T) E) undefined (call (λ q, inr (d q))) perms start end_
  = (flat_map (λ p, V2.pairwise p
                    ++ [(start, V2.index undefined p 0);
                        (V2.index undefined p (length p - 1), end_)]) perms,
     inr (handRolledOver (M := Id) undefined d perms start end_)).
Proof.
  rewrite handRolledOver_Id. unfold handRolledOver.
  erewrite run_bind;
    [| apply (run_for_of _ _
               (λ p, V2.pairwise p ++ [(start, V2.index undefined p 0);
                                        (V2.index undefined p (length p - 1), end_)])
               (handRolledStep undefined d start end_))
     | reflexivity].
  - by rewrite app_nil_r.
  - intros [minDistance minRoute] route. unfold V2.handRolledDistance.
    erewrite run_bind; [| | reflexivity].
    + rewrite app_nil_r. reflexivity.
    + erewrite run_bind; [| apply run_total_distance |]; [reflexivity |].
      erewrite run_bind; [| reflexivity |]; [reflexivity |].
      erewrite run_bind; [| reflexivity | reflexivity]. reflexivity.
Qed.
End QueryCounts.

Section EmptyPermutation.
Context {T E : Type} (undefined : T) `{Number num}.
Variable dist : T * T → E + num.

Lemma handRolledOver_empty_permutation (start end_ : T) :
  handRolledOver (M := Eff (T * T) E) undefined (call dist) [[]] start end_
  = match dist (start, undefined) with
    | inl err => ([(start, undefined)], inl err)
    | inr _ =>
        ([(start, undefined); (undefined, end_)],
         match dist (undefined, end_) with
         | inl err => inl err
         | inr _ => inr [start; end_]
         end)
    end.
Proof.
  unfold handRolledOver, V2.handRolledDistance, V2.total_distance, call.
  cbn. unfold mbind, Eff_bind, mret, Eff_ret. cbn.
  destruct (dist (start, undefined)) as [err | v]; [reflexivity |]. cbn.
  destruct (dist (undefined, end_)) as [err | v']; [reflexivity |]. cbn.
  by destruct (ltb _ _).
Qed.
End EmptyPermutation.

(** X11: with a distance function that returns, the array revision of
    [travelingSalesman] calls it once for every index [i] of every
    candidate route, on [[route[i], route[i + 1]]], route by route in
    emission order and in increasing [i]: [(n + 1)!] calls for [n]
    inner destinations; the route returned is the one computed from the
    distances returned. *)
Theorem travelingSalesman_queries {T E : Type} (undefined : T) `{Number num}
    (distance : T * T → num) (inner : list T) (start end_ : T) :
  let queries :=
    flat_map (λ p, consecutive undefined (start :: p ++ [end_]))
             (V1.getPermutations undefined inner (length inner)) in
  V1.travelingSalesman (M := Eff (T * T) E) undefined (call (λ q, inr (distance q)))
    inner start end_
  = (queries, inr (V1.travelingSalesman (M := Id) undefined distance inner start end_))
  ∧ length queries = fact (length inner + 1).
Proof.
  intros queries. split; [apply queries_V1_travelingSalesman | apply count_V1_queries].
Qed.

(** X12: [calculateDistances] on the routes that [generateRoutes]
    assembles from any sequence of inner routes yields, in the order of
    the inner routes, the total distance and the array of each route
    [start], inner route, [end]; with a distance function that returns
    it calls it on the consecutive pairs of each route, route by route:
    one call more per route than the inner route has points. *)
Theorem calculateDistances_of_generateRoutes {T E : Type} (undefined : T)
    `{Number num} (distance : T * T → num) (inner : list (list T)) (start end_ : T) :
  let queries := flat_map (λ p, V2.pairwise (start :: p ++ [end_])) inner in
  V2.calculateDistances (M := Eff (T * T) E) (call (λ q, inr (distance q)))
    (V2.generateRoutes start end_ inner)
  = (queries,
     inr (map (λ p, (route_sum undefined distance (start :: p ++ [end_]),
                     start :: p ++ [end_])) inner))
  ∧ length queries = sum_list (map (λ p, length p + 1) inner).
Proof.
  intros queries. split.
  - rewrite run_calculateDistances. unfold V2.generateRoutes, V2.startAndEnd. f_equal.
    + unfold queries. induction inner as [| p ps IH]; [done |].
      cbn [map flat_map]. by rewrite IH.
    + f_equal. rewrite map_map. apply map_ext. intros p. unfold scored, route_score.
      by rewrite (total_distance_route_sum undefined).
  - unfold queries. induction inner as [| p ps IH]; [done |].
    cbn [flat_map map sum_list]. rewrite length_app, IH.
    rewrite (pairwise_by_index undefined), length_map, length_seq. cbn [length].
    rewrite length_app. simpl. lia.
Qed.

(** X13: whatever the generator yields, with a distance function that
    returns the loop of the hand-rolled optimizer calls it, for each
    yielded permutation in turn, on the consecutive pairs of the
    permutation, then on [(start, route[0])], then on
    [(route[route.length - 1], end)].  On the empty permutation (the
    one permutation of no destinations) these are [(start, undefined)]
    and [(undefined, end)]: the loop never asks for the distance from
    [start] to [end], ends in the error of the first of the two calls
    that throws, and returns [[start, end]] when both return. *)
Theorem handRolled_queries {T E : Type} (undefined : T) `{Number num}
    (distance : T * T → num) (dist : T * T → E + num)
    (permutationsIter : list (list T)) (start end_ : T) :
  handRolledOver (M := Eff (T * T) E) undefined (call (λ q, inr (distance q)))
    permutationsIter start end_
  = (flat_map (λ route, V2.pairwise route
                        ++ [(start, V2.index undefined route 0);
                            (V2.index undefined route (length route - 1), end_)])
              permutationsIter,
     inr (handRolledOver (M := Id) undefined distance permutationsIter start end_))
  ∧ handRolledOver (M := Eff (T * T) E) undefined (call dist) [[]] start end_
    = match dist (start, undefined) with
      | inl err => ([(start, undefined)], inl err)
      | inr _ =>
          ([(start, undefined); (undefined, end_)],
           match dist (undefined, end_) with
           | inl err => inl err
           | inr _ => inr [start; end_]
           end)
      end.
Proof.
  split; [apply run_handRolledOver | apply handRolledOver_empty_permutation].
Qed.

(** ** The memoizing wrapper around a function with effects *)
Section StatefulCachedFn.
Context {Input Key Output E St : Type} `{Countable Key}.
Variable same_value_zero : Input → Key.
Variable f : Input → St → (E + Output) * St.
Implicit Types (cache : gmap Key Output) (s : St) (input : Input).


(** The wrapper around [f] is the wrapper around a function that
    calls nothing, whenever the stack has room for the call. *)
Lemma Stateful_cachedFn_calls_nothing (stack_overflow : E) (depth : nat) input cache s :
  Reentrant.cachedFn same_value_zero stack_overflow
    (λ input s, Reentrant.of_outcome (f input s)) (S depth) input cache s
  = Stateful.cachedFn same_value_zero f input cache s.
Proof.
  cbn [Reentrant.cachedFn]. unfold Stateful.cachedFn.
  destruct (cache !! same_value_zero input) as [result |]; [done |].
  by destruct (f input s) as [[err | result] s'].
Qed.
End StatefulCachedFn.

(** ** The memoizing wrapper around a function that calls it *)
Section ReentrantCachedFn.
Context {Input Key Output E St : Type} `{Countable Key}.
Variable same_value_zero : Input → Key.
Variable stack_overflow : E.
Variable f : Input → St → Reentrant.body Input Output E St.
Implicit Types (cache : gmap Key Output) (s : St) (input again : Input) (depth : nat).

(** Whatever [f] does, no key leaves the map. *)
Lemma Reentrant_run_keeps_keys
    (wrapper : Input → gmap Key Output → St → (E + Output) * gmap Key Output * St)
    (b : Reentrant.body Input Output E St) cache :
  (∀ input cache s, dom cache ⊆ dom (wrapper input cache s).1.2) →
  dom cache ⊆ dom (Reentrant.run wrapper b cache).1.2.
Proof.
  intros Hwrapper. revert cache.
  induction b as [result s | err s | input s continue IH]; intros cache; [done | done |].
  cbn [Reentrant.run]. specialize (Hwrapper input cache s).
  destruct (wrapper input cache s) as [[outcome cache1] s1]. cbn [fst snd] in Hwrapper.
  etrans; [exact Hwrapper | apply IH].
Qed.

Lemma Reentrant_cachedFn_keeps_keys depth input cache s :
  dom cache
  ⊆ dom (Reentrant.cachedFn same_value_zero stack_overflow f depth input cache s).1.2.
Proof.
  revert input cache s. induction depth as [| depth IH]; intros input cache s; [done |].
  cbn [Reentrant.cachedFn]. destruct (cache !! same_value_zero input) as [result |]; [done |].
  pose proof (Reentrant_run_keeps_keys
                (Reentrant.cachedFn same_value_zero stack_overflow f depth)
                (f input s) cache IH) as Hrun.
  destruct (Reentrant.run _ _ _) as [[[err | result] cache1] s1]; [done |].
  cbn [fst snd] in *. rewrite dom_insert. set_solver.
Qed.

Hypothesis f_calls_nothing : ∀ input s, Reentrant.calls_nothing (f input s).

(** Around an [f] that calls nothing, the map is never shrunk and no
    entry is overwritten. *)
Lemma Reentrant_cachedFn_grows depth input cache s :
  cache ⊆ (Reentrant.cachedFn same_value_zero stack_overflow f depth input cache s).1.2.
Proof.
  destruct depth as [| depth]; [done |]. cbn [Reentrant.cachedFn].
  destruct (cache !! same_value_zero input) as [result |] eqn:Hin; [done |].
  specialize (f_calls_nothing input s).
  destruct (f input s) as [result s' | err s' | ? ? ?]; [| done | done].
  by apply insert_subseteq.
Qed.

Lemma Reentrant_calls_grows depth inputs cache s :
  cache ⊆ (Reentrant.calls same_value_zero stack_overflow f depth inputs cache s).1.2.
Proof.
  revert cache s. induction inputs as [| input rest IH]; intros cache s; [done |].
  pose proof (Reentrant_cachedFn_grows depth input cache s) as Hstep.
  cbn [Reentrant.calls].
  destruct (Reentrant.cachedFn same_value_zero stack_overflow f depth input cache s)
    as [[outcome cache1] s1].
  specialize (IH cache1 s1).
  destruct (Reentrant.calls same_value_zero stack_overflow f depth rest cache1 s1)
    as [[outcomes cache2] s2].
  cbn [fst snd] in *. by etrans.
Qed.

(** A call that returned was made with room on the stack, and its
    result is in the map. *)
Lemma Reentrant_cachedFn_returned depth input cache s (r : Output) :
  (Reentrant.cachedFn same_value_zero stack_overflow f depth input cache s).1.1 = inr r →
  depth ≠ 0
  ∧ (Reentrant.cachedFn same_value_zero stack_overflow f depth input cache s).1.2
      !! same_value_zero input = Some r.
Proof.
  destruct depth as [| depth]; [done |]. cbn [Reentrant.cachedFn].
  destruct (cache !! same_value_zero input) as [result |] eqn:Hin.
  - intros [= <-]. done.
  - specialize (f_calls_nothing input s).
    destruct (f input s) as [result s' | err s' | ? ? ?]; [| done | done].
    intros [= <-]. split; [done | apply lookup_insert_eq].
Qed.

Lemma Reentrant_cachedFn_frozen depth input again cache s (r : Output)
    (inputs : list Input) :
  (Reentrant.cachedFn same_value_zero stack_overflow f depth input cache s).1.1 = inr r →
  same_value_zero again = same_value_zero input →
  let first := Reentrant.cachedFn same_value_zero stack_overflow f depth input cache s in
  let later := Reentrant.calls same_value_zero stack_overflow f depth inputs
                 first.1.2 first.2 in
  Reentrant.cachedFn same_value_zero stack_overflow f depth again later.1.2 later.2
  = (inr r, later.1.2, later.2).
Proof.
  intros [Hdepth Hr]%Reentrant_cachedFn_returned Hagain first later.
  destruct depth as [| depth]; [done |]. cbn [Reentrant.cachedFn]. rewrite Hagain.
  assert (later.1.2 !! same_value_zero input = Some r) as ->; [| done].
  eapply lookup_weaken; [exact Hr | apply Reentrant_calls_grows].
Qed.
End ReentrantCachedFn.

(** X14: [cachedFn] freezes the first answer of a function that does
    not call the wrapper it is wrapped in.  Such an [f] may have state
    of its own and may throw; once a call of the wrapper on [input] has
    returned [r], every later call on an input with the same key in the
    map ([again]), after any calls in between, returns [r] without
    running [f] and without touching the map; the map only grows: no
    entry is removed or overwritten. *)
Theorem cachedFn_first_answer_is_frozen {Input Key Output E St : Type} `{Countable Key}
    (same_value_zero : Input → Key) (stack_overflow : E)
    (f : Input → St → Reentrant.body Input Output E St)
    (depth : nat) (input again : Input) (cache : gmap Key Output) (s : St) (r : Output)
    (inputs : list Input) :
  (∀ input s, Reentrant.calls_nothing (f input s)) →
  (Reentrant.cachedFn same_value_zero stack_overflow f depth input cache s).1.1 = inr r →
  same_value_zero again = same_value_zero input →
  let first := Reentrant.cachedFn same_value_zero stack_overflow f depth input cache s in
  let later := Reentrant.calls same_value_zero stack_overflow f depth inputs
                 first.1.2 first.2 in
  Reentrant.cachedFn same_value_zero stack_overflow f depth again later.1.2 later.2
  = (inr r, later.1.2, later.2)
  ∧ cache ⊆ first.1.2
  ∧ first.1.2 ⊆ later.1.2.
Proof.
  intros Hf Hr Hagain first later. split; [by apply Reentrant_cachedFn_frozen |].
  split; [by apply Reentrant_cachedFn_grows | by apply Reentrant_calls_grows].
Qed.

(** A run of X14 on the function of the test,
    [(x) => { callCount++; return x * 2 }]: after the call on [5] has
    returned [10], and after the calls on [5] and [10], the call on [5]
    returns [10] and [callCount] stays. *)
Lemma cachedFn_frozen_in_the_test :
  let f := λ (x : float) (callCount : nat),
             Reentrant.Return (E := ()) (Input := float) (x * 2)%float (S callCount) in
  let first := Reentrant.cachedFn number_key () f 1 5%float ∅ 0 in
  let later := Reentrant.calls number_key () f 1 [5; 10]%float first.1.2 first.2 in
  Reentrant.cachedFn number_key () f 1 5%float later.1.2 later.2
  = (inr 10%float, later.1.2, later.2)
  ∧ ∅ ⊆ first.1.2
  ∧ first.1.2 ⊆ later.1.2.
Proof.
  exact (cachedFn_first_answer_is_frozen number_key ()
           (λ (x : float) (callCount : nat),
              Reentrant.Return (E := ()) (Input := float) (x * 2)%float (S callCount))
           1 5%float 5%float ∅ 0 10%float [5; 10]%float (λ _ _, I) eq_refl eq_refl).
Defined.

(** The condition of X14 is needed.  [enters_once] calls its wrapper
    on its own input: the nested call on [5] returns [0] and stores it,
    the outer call returns [1] and stores it over the [0]; the wrapper
    has answered [0] for [5] once and answers [1] from then on, and [f]
    has run twice for the one key. *)
Lemma cachedFn_reentrant_call_overwrites :
  let nested := Reentrant.cachedFn id () enters_once 1 5 ∅ 1 in
  let outer := Reentrant.cachedFn id () enters_once 2 5 ∅ 0 in
  nested.1.1 = inr 0 ∧ nested.1.2 !! 5 = Some 0
  ∧ outer.1.1 = inr 1 ∧ outer.1.2 !! 5 = Some 1 ∧ outer.2 = 2
  ∧ Reentrant.cachedFn id () enters_once 2 5 outer.1.2 outer.2
    = (inr 1, outer.1.2, outer.2).
Proof. repeat split; vm_compute; reflexivity. Qed.



(** ** The memoizing wrapper on pair arrays *)
Section ReferenceKeys.
Context {T num : Type} (undefined : T) `{Number num}.
Variable f : T * T → num.
Implicit Types (w : ByReference.world T num) (qs : list (T * T)).

(** A call on a new pair array is a miss: [f] is invoked on the pair
    and its result stored under the new reference. *)
Lemma computeDistance_miss w (q : T * T) :
  ByReference.valid w →
  ByReference.computeDistance undefined f q w
  = (f q,
     {| ByReference.pairs := ByReference.pairs w ++ [q];
        ByReference.wrapper :=
          {| cache := <[length (ByReference.pairs w) := f q]>
                        (cache (ByReference.wrapper w));
             invocations := invocations (ByReference.wrapper w)
                            ++ [length (ByReference.pairs w)] |} |}).
Proof.
  intros Hvalid. unfold ByReference.computeDistance, ByReference.new_pair,
    ByReference.cached, mbind, ByReference.Refs_bind, cachedFn, id. cbn [fst snd
    ByReference.pairs ByReference.wrapper].
  destruct (cache (ByReference.wrapper w) !! length (ByReference.pairs w)) as [r |] eqn:Hin.
  { specialize (Hvalid _ (mk_is_Some _ _ Hin)). lia. }
  by rewrite nth_middle.
Qed.

Lemma valid_step w (q : T * T) :
  ByReference.valid w →
  ByReference.valid (ByReference.computeDistance undefined f q w).2.
Proof.
  intros Hvalid. rewrite computeDistance_miss by done.
  intros ref. cbn [snd ByReference.pairs ByReference.wrapper cache].
  rewrite length_app. cbn [length]. intros Hin.
  destruct (decide (ref = length (ByReference.pairs w))) as [-> | Hne]; [lia |].
  rewrite lookup_insert_ne in Hin by done. specialize (Hvalid _ Hin). lia.
Qed.

Lemma valid_after w qs :
  ByReference.valid w → ByReference.valid (after undefined f w qs).
Proof.
  revert w. induction qs as [| q qs IH]; intros w Hvalid; [done |].
  cbn [after foldl]. by apply IH, valid_step.
Qed.

Lemma after_app w qs qs' :
  after undefined f w (qs ++ qs') = after undefined f (after undefined f w qs) qs'.
Proof. apply foldl_app. Qed.

Lemma makes_ret {A} (a : A) :
  makes undefined f (mret (M := ByReference.Refs T num) a) [] a.
Proof. by intros w _. Qed.

Lemma makes_bind {A B} (m : ByReference.Refs T num A)
    (k : A → ByReference.Refs T num B) qs qs' (a : A) (b : B) :
  makes undefined f m qs a → makes undefined f (k a) qs' b →
  makes undefined f (m ≫= k) (qs ++ qs') b.
Proof.
  intros Hm Hk w Hvalid. unfold mbind, ByReference.Refs_bind.
  rewrite (Hm w Hvalid). cbn [fst snd].
  rewrite (Hk _ (valid_after w qs Hvalid)). by rewrite after_app.
Qed.

Lemma makes_computeDistance (q : T * T) :
  makes undefined f (ByReference.computeDistance undefined f q) [q] (f q).
Proof.
  intros w Hvalid. cbn [after foldl]. by rewrite computeDistance_miss.
Qed.

Lemma makes_mapM {A B} (xs : list A) (body : A → ByReference.Refs T num B)
    (queries : A → list (T * T)) (body' : A → B) :
  (∀ x, makes undefined f (body x) (queries x) (body' x)) →
  makes undefined f (mapM body xs) (flat_map queries xs) (map body' xs).
Proof.
  intros Hbody. induction xs as [| x xs IH]; [apply makes_ret |].
  cbn [flat_map map]. rewrite <- (app_nil_r (flat_map queries xs)).
  change (mapM body (x :: xs)) with (y ← body x; k ← mapM body xs; mret (y :: k)).
  eapply makes_bind; [apply Hbody |].
  eapply makes_bind; [apply IH | apply makes_ret].
Qed.

Lemma makes_for_of {A S} (xs : list A) (body : S → A → ByReference.Refs T num S)
    (queries : A → list (T * T)) (body' : S → A → S) (s : S) :
  (∀ s x, makes undefined f (body s x) (queries x) (body' s x)) →
  makes undefined f (for_of xs body s) (flat_map queries xs) (foldl body' s xs).
Proof.
  intros Hbody. revert s. induction xs as [| x xs IH]; intros s; [apply makes_ret |].
  cbn [for_of flat_map foldl]. eapply makes_bind; [apply Hbody | apply IH].
Qed.

Lemma makes_V1_routeDistance (route : list T) :
  makes undefined f
    (V1.routeDistance (M := ByReference.Refs T num) undefined
       (ByReference.computeDistance undefined f) route)
    (consecutive undefined route) (route_sum undefined f route, route).
Proof.
  unfold V1.routeDistance. rewrite <- (app_nil_r (consecutive undefined route)).
  eapply makes_bind; [| apply makes_ret].
  unfold consecutive. rewrite <- (flat_map_singleton (map _ _)).
  rewrite flat_map_concat_map, map_map, <- flat_map_concat_map.
  apply (makes_mapM _ _
           (λ i, [(V1.index undefined route i, V1.index undefined route (i + 1))])
           (λ i, f (V1.index undefined route i, V1.index undefined route (i + 1)))).
  intros i. apply makes_computeDistance.
Qed.

Lemma makes_V1_travelingSalesman (inner : list T) (start end_ : T) :
  makes undefined f
    (V1.travelingSalesman (M := ByReference.Refs T num) undefined
       (ByReference.computeDistance undefined f) inner start end_)
    (flat_map (λ p, consecutive undefined (start :: p ++ [end_]))
              (V1.getPermutations undefined inner (length inner)))
    (V1.travelingSalesman (M := Id) undefined f inner start end_).
Proof.
  rewrite V1_travelingSalesman_Id. unfold V1.travelingSalesman.
  rewrite <- (app_nil_r (flat_map _ _)).
  eapply makes_bind; [| apply makes_ret].
  generalize (V1.getPermutations undefined inner (length inner)) as perms.
  intros perms.
  replace (flat_map (λ p, consecutive undefined (start :: p ++ [end_])) perms)
    with (flat_map (consecutive undefined) (map (λ p, start :: p ++ [end_]) perms)).
  2: { induction perms as [| p perms IH]; [done |]. cbn [map flat_map]. by rewrite IH. }
  rewrite <- (map_map (λ p, start :: p ++ [end_])
                      (λ route, (route_sum undefined f route, route))).
  apply makes_mapM, makes_V1_routeDistance.
Qed.

Lemma makes_total_distance (route : list T) :
  makes undefined f
    (V2.total_distance (M := ByReference.Refs T num)
       (ByReference.computeDistance undefined f) route)
    (V2.pairwise route) (route_score f route).
Proof.
  unfold route_score. rewrite total_distance_Id. unfold V2.total_distance.
  rewrite <- (flat_map_singleton (V2.pairwise route)) at 2.
  replace (foldl add zero (map f (V2.pairwise route)))
    with (foldl (λ distance q, add distance (f q)) zero (V2.pairwise route)).
  2: { generalize (zero (num := num)) as acc.
       induction (V2.pairwise route) as [| q qs IH]; intros acc; [done | apply IH]. }
  apply (makes_for_of _ _ (λ q, [q])). intros distance [a b].
  rewrite <- (app_nil_r [(a, b)]).
  eapply makes_bind; [apply makes_computeDistance | apply makes_ret].
Qed.

Lemma makes_handRolledOver (perms : list (list T)) (start end_ : T) :
  makes undefined f
    (handRolledOver (M := ByReference.Refs T num) undefined
       (ByReference.computeDistance undefined f) perms start end_)
    (flat_map (λ p, V2.pairwise p
                    ++ [(start, V2.index undefined p 0);
                        (V2.index undefined p (length p - 1), end_)]) perms)
    (handRolledOver (M := Id) undefined f perms start end_).
Proof.
  rewrite handRolledOver_Id. unfold handRolledOver.
  rewrite <- (app_nil_r (flat_map _ _)).
  eapply makes_bind; [| apply makes_ret].
  apply (makes_for_of _ _ _ (handRolledStep undefined f start end_)).
  intros [minDistance minRoute] route.
  rewrite <- (app_nil_r (_ ++ _)).
  eapply makes_bind; [| apply makes_ret].
  unfold V2.handRolledDistance.
  eapply makes_bind; [apply makes_total_distance |].
  change [(start, V2.index undefined route 0);
          (V2.index undefined route (length route - 1), end_)]
    with ([(start, V2.index undefined route 0)]
          ++ [(V2.index undefined route (length route - 1), end_)] ++ []).
  eapply makes_bind; [apply makes_computeDistance |].
  eapply makes_bind; [apply makes_computeDistance | apply makes_ret].
Qed.

(** What the calls leave: one new pair array per call, one invocation
    of [f] per call, on that array, and one more entry in the map. *)
Lemma after_pairs w qs :
  ByReference.valid w →
  ByReference.pairs (after undefined f w qs) = ByReference.pairs w ++ qs
  ∧ invocations (ByReference.wrapper (after undefined f w qs))
    = invocations (ByReference.wrapper w)
      ++ seq (length (ByReference.pairs w)) (length qs)
  ∧ size (cache (ByReference.wrapper (after undefined f w qs)))
    = size (cache (ByReference.wrapper w)) + length qs.
Proof.
  revert w. induction qs as [| q qs IH]; intros w Hvalid.
  { cbn. rewrite !app_nil_r. split; [done |]. split; [done | lia]. }
  cbn [after foldl]. destruct (IH _ (valid_step w q Hvalid)) as (Hpairs & Hinv & Hsize).
  fold (after undefined f (ByReference.computeDistance undefined f q w).2 qs).
  rewrite Hpairs, Hinv, Hsize. rewrite computeDistance_miss by done.
  cbn [snd ByReference.pairs ByReference.wrapper cache invocations].
  rewrite length_app. cbn [length seq]. rewrite Nat.add_1_r, <- !app_assoc.
  split; [done |]. split; [done |].
  rewrite map_size_insert_None; [lia |].
  destruct (cache (ByReference.wrapper w) !! length (ByReference.pairs w)) as [r |] eqn:Hin;
    [| done].
  specialize (Hvalid _ (mk_is_Some _ _ Hin)). lia.
Qed.
End ReferenceKeys.

(** X16: passed to an optimizer, [cachedFn(f)] never hits.  Each call
    [computeDistance([a, b])] builds a new pair array and the map
    compares arrays by identity, so from any state of the wrapper the
    array revision of [travelingSalesman], and the loop of the
    hand-rolled optimizer on whatever is yielded, return what they
    return with [f] itself, and every call they make allocates one pair
    array, runs [f] on it and adds one entry to the map ([(n + 1)!]
    entries per run of [travelingSalesman]), leaving a state from which
    the next run misses as well. *)
Theorem cachedFn_never_hits_on_pair_arrays {T num : Type} (undefined : T)
    `{Number num} (f : T * T → num) (inner : list T)
    (permutationsIter : list (list T)) (start end_ : T)
    (w : ByReference.world T num) :
  ByReference.valid w →
  let computeDistance := ByReference.computeDistance undefined f in
  let queries :=
    flat_map (λ p, consecutive undefined (start :: p ++ [end_]))
             (V1.getPermutations undefined inner (length inner)) in
  all_misses w
    (V1.travelingSalesman (M := ByReference.Refs T num) undefined computeDistance
       inner start end_ w)
    queries
    (V1.travelingSalesman (M := Id) undefined f inner start end_)
  ∧ length queries = fact (length inner + 1)
  ∧ all_misses w
      (handRolledOver (M := ByReference.Refs T num) undefined computeDistance
         permutationsIter start end_ w)
      (flat_map (λ route, V2.pairwise route
                          ++ [(start, V2.index undefined route 0);
                              (V2.index undefined route (length route - 1), end_)])
                permutationsIter)
      (handRolledOver (M := Id) undefined f permutationsIter start end_).
Proof.
  intros Hvalid computeDistance queries.
  assert (∀ A (m : ByReference.Refs T num A) qs a,
            makes undefined f m qs a → all_misses w (m w) qs a) as Hrun.
  { intros A m qs a Hm. rewrite (Hm w Hvalid).
    destruct (after_pairs undefined f w qs Hvalid) as (Hpairs & Hinv & Hsize).
    split; [done |]. split; [done |]. split; [done |]. split; [done |].
    by apply valid_after. }
  split; [apply Hrun, makes_V1_travelingSalesman |].
  split; [apply count_V1_queries | apply Hrun, makes_handRolledOver].
Qed.

Lemma cachedFn_never_hits_in_runTests :
  let computeDistance := ByReference.computeDistance Undefined abs_difference in
  let destinations := [Num 1; Num 2; Num 3; Num 4; Num 5] in
  let queries :=
    flat_map (λ p, consecutive Undefined (Num 0 :: p ++ [Num 6]))
             (V1.getPermutations Undefined destinations (length destinations)) in
  all_misses ByReference.new_world
    (V1.travelingSalesman (M := ByReference.Refs value float) Undefined computeDistance
       destinations (Num 0) (Num 6) ByReference.new_world)
    queries
    (V1.travelingSalesman (M := Id) Undefined abs_difference destinations (Num 0) (Num 6))
  ∧ length queries = fact (length destinations + 1)
  ∧ all_misses ByReference.new_world
      (handRolledOver (M := ByReference.Refs value float) Undefined computeDistance
         [[Num 1; Num 2]; [Num 2; Num 1]] (Num 0) (Num 6) ByReference.new_world)
      (flat_map (λ route, V2.pairwise route
                          ++ [(Num 0, V2.index Undefined route 0);
                              (V2.index Undefined route (length route - 1), Num 6)])
                [[Num 1; Num 2]; [Num 2; Num 1]])
      (handRolledOver (M := Id) Undefined abs_difference
         [[Num 1; Num 2]; [Num 2; Num 1]] (Num 0) (Num 6)).
Proof.
  apply (cachedFn_never_hits_on_pair_arrays Undefined abs_difference
           [Num 1; Num 2; Num 3; Num 4; Num 5] [[Num 1; Num 2]; [Num 2; Num 1]]
           (Num 0) (Num 6) ByReference.new_world).
  intros ref [r Hr]. cbn in Hr. by rewrite lookup_empty in Hr.
Defined.

(** ** The returned array is new *)
Section FreshResults.
Context {T num : Type} (undefined : T) `{Number num}.
Variable computeDistance : T * T → num.
Implicit Types (D : gset Store.loc).

Lemma toMin_elem {X} (key : X → num) (xs : list X) (r : X) :
  V2.toMin xs key = Some r → r ∈ xs.
Proof.
  destruct xs as [| x rest]; [done |]. rewrite toMin_cons. intros [= <-].
  apply foldl_keep_min_elem.
Qed.

Lemma framed_mapM_elem {A B} D (f : A → Store.St T num B) (xs : list A) (Q : B → Prop) :
  (∀ x, x ∈ xs → framed D (f x) Q) → framed D (mapM f xs) (Forall Q).
Proof.
  induction xs as [| x xs IH]; intros Hf.
  - by apply framed_ret.
  - eapply framed_bind; [apply Hf; by left |]. intros y Hy.
    eapply framed_bind; [apply IH; intros x' Hx'; apply Hf; by right |]. intros ys Hys.
    apply framed_ret. by constructor.
Qed.

(** The array an array literal allocates holds the elements it was
    given when it is read next. *)
Lemma framed_alloc_arrays D (xs : list Store.loc) :
  framed D (l ← Store.alloc (T := T) (num := num) (Store.Arrays xs); Store.arrays l)
         (λ ys, ys = xs).
Proof.
  intros σ HD. unfold mbind, Store.St_bind, Store.alloc, Store.arrays. cbn [fst snd].
  rewrite lookup_insert_eq. pose proof (is_fresh (dom σ)) as Hfresh.
  split; [rewrite dom_insert; set_solver |]. split; [| done].
  intros l Hl. apply lookup_insert_ne. set_solver.
Qed.

Lemma framed_V2_travelingSalesman_fresh D (innerDestinations : Store.loc) (start end_ : T) :
  framed D (StoreV2.travelingSalesman undefined computeDistance innerDestinations
              start end_) (λ l, l ∉ D).
Proof.
  eapply framed_bind; [apply framed_points | intros elements _].
  eapply framed_bind; [apply framed_alloc | intros destinationsArray _].
  eapply framed_bind; [apply framed_points | intros elements' _].
  eapply framed_bind; [apply framed_permutations | intros permutationsIter _].
  eapply framed_bind; [| intros distances Hnew].
  { apply (framed_mapM _ _ _ (λ d, d.2 ∉ D)). intros innerRoute.
    eapply framed_bind; [apply framed_points | intros inner _].
    eapply framed_bind; [apply framed_alloc | intros routeArray Hroute].
    eapply framed_bind; [apply framed_points | intros route _].
    by apply framed_ret. }
  destruct (V2.toMin distances fst) as [r |] eqn:Hmin; [| apply framed_alloc].
  apply framed_ret. rewrite Forall_forall in Hnew. by apply Hnew, (toMin_elem fst).
Qed.

Lemma framed_handRolledTravelingSalesman_fresh D (destinations : Store.loc)
    (start end_ : T) :
  framed D (StoreV2.handRolledTravelingSalesman undefined computeDistance destinations
              start end_) (λ l, l ∉ D).
Proof.
  eapply framed_bind; [apply framed_alloc | intros empty _].
  eapply framed_bind; [apply framed_points | intros elements _].
  eapply framed_bind; [apply framed_permutations | intros permutationsIter _].
  eapply framed_bind; [| intros best _].
  { apply (framed_for_of _ _ _ _ (λ _, True)); [| done].
    intros [minDistance minRoute] route _.
    eapply framed_bind; [apply framed_points | intros elements' _].
    by apply framed_ret. }
  eapply framed_bind; [apply framed_points | intros elements' _].
  apply framed_alloc.
Qed.

Lemma reduce_elem {X} (key : X → num) (xs : list X) (r : X) :
  V1.reduce (λ min curr, if ltb (key curr) (key min) then curr else min) xs = Some r →
  r ∈ xs.
Proof.
  destruct xs as [| x rest]; [done |]. rewrite reduce_cons. intros [= <-].
  apply foldl_keep_min_elem.
Qed.

Lemma framed_assoc {A B C} D (m : Store.St T num A) (f : A → Store.St T num B)
    (g : B → Store.St T num C) (Q : C → Prop) :
  framed D ((m ≫= f) ≫= g) Q → framed D (m ≫= (λ a, f a ≫= g)) Q.
Proof. intros Hm σ HD. exact (Hm σ HD). Qed.

Lemma framed_V1_travelingSalesman_fresh D (innerDestinations : Store.loc)
    (start end_ : T) :
  framed D (StoreV1.travelingSalesman undefined computeDistance innerDestinations
              start end_) (λ result, ∀ l, result = Some l → l ∉ D).
Proof.
  eapply framed_bind; [apply framed_points | intros elements _].
  eapply framed_bind; [apply framed_getPermutations | intros permutations _].
  eapply framed_bind; [apply framed_arrays | intros perms _].
  eapply framed_bind; [| intros routes Hroutes].
  { apply (framed_mapM _ _ _ (λ l, l ∉ D)). intros permutation.
    eapply framed_bind; [apply framed_points | intros inner _].
    apply framed_alloc. }
  apply framed_assoc.
  eapply framed_bind; [apply framed_alloc_arrays | intros routes' ->].
  eapply framed_bind; [| intros routeDistances Hnew].
  { apply (framed_mapM_elem _ _ _ (λ d, d.2 ∉ D)). intros route Hroute.
    rewrite Forall_forall in Hroutes. specialize (Hroutes route Hroute).
    eapply framed_bind; [apply framed_alloc | intros distances Hdistances].
    eapply framed_bind; [apply framed_points | intros elements' _].
    eapply framed_bind; [| intros _ _].
    { apply (framed_for_of _ _ _ _ (λ _, True)); [| done]. intros _ i _.
      eapply framed_bind; [apply framed_points | intros elements'' _].
      by apply framed_push_number. }
    eapply framed_bind; [apply framed_numbers | intros ds _].
    by apply framed_ret. }
  apply framed_ret. intros l Hl.
  destruct (V1.reduce _ routeDistances) as [r |] eqn:Hmin; [| done].
  injection Hl as <-. rewrite Forall_forall in Hnew. by apply Hnew, (reduce_elem fst).
Qed.

Lemma framed_fresh {A} (m : Store.St T num A) (Q : A → Prop) σ :
  framed (dom σ) m Q → Q (m σ).1.
Proof. intros Hm. by destruct (Hm σ) as (_ & _ & HQ). Qed.
End FreshResults.

(** X17: called on an array of points, the array revision of
    [travelingSalesman] returns a new array: it is none of the arrays
    that existed when the function was called, the caller's
    [innerDestinations] among them, and it holds the route the function
    computes from the elements of [innerDestinations]. *)
Theorem travelingSalesman_returns_a_new_array {T num : Type} (undefined : T)
    `{Number num} (computeDistance : T * T → num)
    (σ : gmap Store.loc (Store.cell T num)) (innerDestinations : Store.loc)
    (elements : list T) (start end_ : T) :
  σ !! innerDestinations = Some (Store.Points elements) →
  let run :=
    StoreV1.travelingSalesman undefined computeDistance innerDestinations start end_ σ in
  ∃ result route,
    run.1 = Some result
    ∧ (result ∉ dom σ)
    ∧ run.2 !! result = Some (Store.Points route)
    ∧ V1.travelingSalesman (M := Id) undefined computeDistance elements start end_
      = Some route.
Proof.
  intros Helements run.
  pose proof (StoreV1_travelingSalesman_computes undefined computeDistance σ
                innerDestinations elements start end_ Helements) as Hcomputes.
  fold run in Hcomputes.
  destruct (V1_travelingSalesman_returns undefined computeDistance elements start end_)
    as (p & _ & Hpure).
  rewrite Hpure in Hcomputes |- *.
  destruct (run.1) as [result |] eqn:Hresult; inversion Hcomputes as [? ? Hholds |].
  exists result, (start :: p ++ [end_]). split; [done |]. split; [| done].
  revert Hresult. unfold run.
  apply (framed_fresh _ (λ result, ∀ l, result = Some l → l ∉ dom σ)),
    framed_V1_travelingSalesman_fresh.
Qed.

Lemma travelingSalesman_new_array_for_1 :
  let σ : gmap Store.loc (Store.cell value float) := {[ 0 := Store.Points [Num 1] ]} in
  let run := StoreV1.travelingSalesman Undefined abs_difference 0 (Num 0) (Num 2) σ in
  ∃ result route,
    run.1 = Some result
    ∧ (result ∉ dom σ)
    ∧ run.2 !! result = Some (Store.Points route)
    ∧ V1.travelingSalesman (M := Id) Undefined abs_difference [Num 1] (Num 0) (Num 2)
      = Some route.
Proof.
  apply (travelingSalesman_returns_a_new_array Undefined abs_difference
           {[ 0 := Store.Points [Num 1] ]} 0 [Num 1] (Num 0) (Num 2)).
  apply lookup_singleton_eq.
Defined.

(** X18: called on an array of points, the iterator revision of
    [travelingSalesman] and [handRolledTravelingSalesman] each return a
    new array, none of the arrays that existed when the function was
    called, which holds the route the function computes from the
    elements of the caller's sequence. *)
Theorem optimizers_return_new_arrays {T num : Type} (undefined : T) `{Number num}
    (computeDistance : T * T → num) (σ : gmap Store.loc (Store.cell T num))
    (innerDestinations : Store.loc) (elements : list T) (start end_ : T) :
  σ !! innerDestinations = Some (Store.Points elements) →
  let pipeline :=
    StoreV2.travelingSalesman undefined computeDistance innerDestinations start end_ σ in
  let handRolled :=
    StoreV2.handRolledTravelingSalesman undefined computeDistance innerDestinations
      start end_ σ in
  (fst pipeline ∉ dom σ)
  ∧ pipeline.2 !! pipeline.1
    = Some (Store.Points
              (V2.travelingSalesman (M := Id) undefined computeDistance elements
                 start end_))
  ∧ (fst handRolled ∉ dom σ)
  ∧ handRolled.2 !! handRolled.1
    = Some (Store.Points
              (V2.handRolledTravelingSalesman (M := Id) undefined computeDistance
                 elements start end_)).
Proof.
  intros Helements pipeline handRolled.
  split; [| split; [| split]].
  - apply (framed_fresh _ (λ l, l ∉ dom σ)), framed_V2_travelingSalesman_fresh.
  - by apply StoreV2_travelingSalesman_computes.
  - apply (framed_fresh _ (λ l, l ∉ dom σ)), framed_handRolledTravelingSalesman_fresh.
  - by apply StoreV2_handRolledTravelingSalesman_computes.
Qed.

Lemma optimizers_new_arrays_for_1 :
  let σ : gmap Store.loc (Store.cell value float) := {[ 0 := Store.Points [Num 1] ]} in
  let pipeline := StoreV2.travelingSalesman Undefined abs_difference 0 (Num 0) (Num 2) σ in
  let handRolled :=
    StoreV2.handRolledTravelingSalesman Undefined abs_difference 0 (Num 0) (Num 2) σ in
  (fst pipeline ∉ dom σ)
  ∧ pipeline.2 !! pipeline.1
    = Some (Store.Points
              (V2.travelingSalesman (M := Id) Undefined abs_difference [Num 1]
                 (Num 0) (Num 2)))
  ∧ (fst handRolled ∉ dom σ)
  ∧ handRolled.2 !! handRolled.1
    = Some (Store.Points
              (V2.handRolledTravelingSalesman (M := Id) Undefined abs_difference
                 [Num 1] (Num 0) (Num 2))).
Proof.
  apply (optimizers_return_new_arrays Undefined abs_difference
           {[ 0 := Store.Points [Num 1] ]} 0 [Num 1] (Num 0) (Num 2)).
  apply lookup_singleton_eq.
Defined.
